(** * Phalanx secrets service: resolution, audit and sync

    A shallow embedding of [src/phalanx/services/secrets.py]
    ([SecretsService]) and the properties of its secret resolution loop,
    its audit comparison and its Vault synchronisation. *)

From Stdlib Require Import String List Bool Arith Lia.
Import ListNotations.
Open Scope string_scope.
Open Scope list_scope.

(** ** Python dictionaries

    A Python [dict] keeps its keys in insertion order, and both the audit
    report and the order of the Vault operations follow that order, so a
    dictionary is an association list: [set] overwrites in place or appends,
    [del] keeps the order of what remains. *)

Module Dict.

Definition t (V : Type) : Type := list (string * V).

Section Operations.
Context {V : Type}.

(** [d.get(k)] *)
Fixpoint get (d : t V) (k : string) : option V :=
  match d with
  | [] => None
  | (k', v) :: d' => if String.eqb k k' then Some v else get d' k
  end.

(** [d.get(k, default)] *)
Definition get_default (d : t V) (k : string) (default : V) : V :=
  match get d k with
  | Some v => v
  | None => default
  end.

(** [k in d] *)
Definition mem (d : t V) (k : string) : bool :=
  match get d k with
  | Some _ => true
  | None => false
  end.

(** [d[k] = v] *)
Fixpoint set (d : t V) (k : string) (v : V) : t V :=
  match d with
  | [] => [(k, v)]
  | (k', v') :: d' =>
      if String.eqb k k' then (k', v) :: d' else (k', v') :: set d' k v
  end.

(** [del d[k]] (the callers only delete keys that are present) *)
Fixpoint del (d : t V) (k : string) : t V :=
  match d with
  | [] => []
  | (k', v') :: d' =>
      if String.eqb k k' then d' else (k', v') :: del d' k
  end.

(** [d.keys()] *)
Definition keys (d : t V) : list string := map fst d.

(** A dictionary holds every key once. *)
Definition wf (d : t V) : Prop := NoDup (keys d).

(** [d1 == d2] for dictionaries whose values are compared by [veqb]:
    the same keys with equal values, whatever the order. *)
Definition eqb (veqb : V -> V -> bool) (d1 d2 : t V) : bool :=
  Nat.eqb (length d1) (length d2)
  && forallb
       (fun kv =>
          match get d2 (fst kv) with
          | Some v2 => veqb (snd kv) v2
          | None => false
          end)
       d1.

End Operations.

End Dict.

(** ** Data model

    The classes of [phalanx.models.secrets] are not part of the service
    file; they are given here with the fields and methods the service
    uses. *)

(** pydantic's [SecretStr] wraps a string; its truth value is that of the
    string (it has a length), and two of them are equal when the strings
    are. *)
Definition SecretStr : Type := string.

Definition secret_truthy (s : SecretStr) : bool := negb (String.eqb s "").

(** Truth value of a [SecretStr | None]. *)
Definition truthy (v : option SecretStr) : bool :=
  match v with
  | Some s => secret_truthy s
  | None => false
  end.

(** [a != b] on [SecretStr | None]. *)
Definition secret_neb (a b : option SecretStr) : bool :=
  match a, b with
  | Some x, Some y => negb (String.eqb x y)
  | None, None => false
  | _, _ => true
  end.

(** Modelled from the spec: a copy rule "references another (application,
    key) whose resolved value should be duplicated verbatim"; the class
    [SecretCopyRules] itself is not in the service file. *)
Record SecretCopyRules : Type := mkCopy {
  copy_application : string;
  copy_key : string
}.

(** Modelled from the spec: the generate rules, which are not in the
    service file. A rule either "produces a new value via a generation
    function" or is a generate-from-source rule whose "generation function
    takes as input another resolved secret's value"; the service tells the
    latter by [isinstance(..., SourceSecretGenerateRules)] and reads its
    [source] key. *)
Inductive SecretGenerateRules : Type :=
| SimpleSecretGenerateRules (type : string)
| SourceSecretGenerateRules (type : string) (source : string).

(** Modelled from the spec: a secret declaration "identifies an
    (application, key) pair" and its provenance rule; the class [Secret] is
    not in the service file, the fields are those [_resolve_secret] reads. *)
Record Secret : Type := mkSecret {
  application : string;
  key : string;
  value : option SecretStr;
  copy_rules : option SecretCopyRules;
  generate : option SecretGenerateRules
}.

(** Modelled from the spec: a static secret is an optional value for an
    (application, key) pair; of the class [StaticSecret] the service reads
    [value]. *)
Record StaticSecret : Type := mkStatic {
  static_value : option SecretStr
}.

(** Modelled from the spec: the pull secret is "a structured object
    describing container-registry credentials"; the service only tests
    whether [registries] is empty and serialises the whole. *)
Record RegistryPullSecret : Type := mkRegistry {
  username : string;
  password : SecretStr
}.

Record PullSecret : Type := mkPull {
  registries : Dict.t RegistryPullSecret
}.

(** Modelled from the spec: the static secrets, an "(application, key) ->
    optional value mapping ... plus an optional pull secret". *)
Record StaticSecrets : Type := mkStatics {
  static_applications : Dict.t (Dict.t StaticSecret);
  static_pull_secret : option PullSecret
}.

(** [StaticSecrets()] *)
Definition empty_static_secrets : StaticSecrets := mkStatics [] None.

(** Modelled from the spec: [StaticSecrets.for_application], the static
    values of one application ("the static value for that pair if
    supplied"), empty when the application has none. *)
Definition for_application (s : StaticSecrets) (app : string)
  : Dict.t StaticSecret :=
  Dict.get_default (static_applications s) app [].

(** [if not static_secrets: static_secrets = StaticSecrets()] *)
Definition statics_or_empty (static_secrets : option StaticSecrets) : StaticSecrets :=
  match static_secrets with
  | Some s => s
  | None => empty_static_secrets
  end.

(** [application -> key -> value], for Vault and for the resolved secrets. *)
Definition Secrets : Type := Dict.t (Dict.t SecretStr).

(** Modelled from the spec: the resolved secrets, "application -> key ->
    value, plus an optional resolved pull secret". *)
Record ResolvedSecrets : Type := mkResolved {
  applications : Secrets;
  pull_secret : option PullSecret
}.

(** [table.get(app, {}).get(key)] *)
Definition lookup (table : Secrets) (app k : string) : option SecretStr :=
  Dict.get (Dict.get_default table app []) k.

(** [table[app][key] = v] on a [defaultdict(dict)] *)
Definition assign (table : Secrets) (app k : string) (v : SecretStr) : Secrets :=
  Dict.set table app (Dict.set (Dict.get_default table app []) k v).

(** The pair a declaration is about. *)
Definition secret_id (s : Secret) : string * string := (application s, key s).

(** ** Secret generation

    The [generate] methods of the rules are not in the service file and
    draw fresh randomness (or read the clock): the generator is an
    interface over an explicit source of randomness that is threaded
    through the resolution. [generate_simple ty] is [generate()] of a rule
    of type [ty], [generate_from_source ty source_key value] is
    [generate(value)] of a from-source rule. *)

Class Generator (Rng : Type) : Type := {
  generate_simple : string -> Rng -> SecretStr * Rng;
  generate_from_source : string -> string -> SecretStr -> Rng -> SecretStr * Rng
}.

(** Outcome of the resolution loop. *)
Inductive Resolution (A : Type) : Type :=
| Resolved (a : A)
| UnresolvedSecretsError (unresolved : list Secret)
| OutOfFuel.

Arguments Resolved {A} a.
Arguments UnresolvedSecretsError {A} unresolved.
Arguments OutOfFuel {A}.

Section Resolver.
Context {Rng : Type} {G : Generator Rng}.

(** [SecretsService._resolve_secret] *)
Definition _resolve_secret (config : Secret) (resolved : Secrets)
    (current_value static_value : option SecretStr) (regenerate : bool)
    (rng : Rng) : option SecretStr * Rng :=
  if truthy (value config) then (value config, rng)
  else
    match copy_rules config with
    | Some rules =>
        let other := lookup resolved (copy_application rules) (copy_key rules) in
        if truthy other then (other, rng) else (None, rng)
    | None =>
        match generate config with
        | Some rules =>
            if truthy current_value && negb regenerate then (current_value, rng)
            else
              match rules with
              | SourceSecretGenerateRules ty other_key =>
                  match lookup resolved (application config) other_key with
                  | Some other =>
                      if secret_truthy other then
                        let (v, rng') := generate_from_source ty other_key other rng in
                        (Some v, rng')
                      else (None, rng)
                  | None => (None, rng)
                  end
              | SimpleSecretGenerateRules ty =>
                  let (v, rng') := generate_simple ty rng in (Some v, rng')
              end
        | None =>
            (if truthy static_value then static_value else current_value, rng)
        end
    end.

(** The arguments [_resolve_secrets] computes for one declaration. *)
Definition current_value_of (vault_secrets : Secrets) (config : Secret)
  : option SecretStr :=
  lookup vault_secrets (application config) (key config).

Definition static_value_of (static_secrets : StaticSecrets) (config : Secret)
  : option SecretStr :=
  match Dict.get (for_application static_secrets (application config)) (key config) with
  | Some s => static_value s
  | None => None
  end.

(** One run of the [for config in secrets] loop: the table and the
    randomness are threaded forward, the declarations that did not resolve
    are collected in order. *)
Fixpoint resolve_pass (vault_secrets : Secrets) (static_secrets : StaticSecrets)
    (regenerate : bool) (secrets : list Secret) (resolved : Secrets) (rng : Rng)
  : Secrets * Rng * list Secret :=
  match secrets with
  | [] => (resolved, rng, [])
  | config :: rest =>
      let '(secret, rng1) :=
        _resolve_secret config resolved
          (current_value_of vault_secrets config)
          (static_value_of static_secrets config)
          regenerate rng in
      match secret with
      | Some s =>
          if secret_truthy s then
            resolve_pass vault_secrets static_secrets regenerate rest
              (assign resolved (application config) (key config) s) rng1
          else
            let '(resolved', rng', unresolved) :=
              resolve_pass vault_secrets static_secrets regenerate rest resolved rng1 in
            (resolved', rng', config :: unresolved)
      | None =>
          let '(resolved', rng', unresolved) :=
            resolve_pass vault_secrets static_secrets regenerate rest resolved rng1 in
          (resolved', rng', config :: unresolved)
      end
  end.

(** The [while unresolved] loop; [fuel] bounds the number of passes. *)
Fixpoint resolve_loop (vault_secrets : Secrets) (static_secrets : StaticSecrets)
    (regenerate : bool) (fuel : nat) (resolved : Secrets) (rng : Rng)
    (unresolved : list Secret) (left : nat) : Resolution (Secrets * Rng) :=
  match unresolved with
  | [] => Resolved (resolved, rng)
  | _ :: _ =>
      match fuel with
      | O => OutOfFuel
      | S fuel' =>
          let '(resolved', rng', unresolved') :=
            resolve_pass vault_secrets static_secrets regenerate unresolved resolved rng in
          if Nat.leb left (length unresolved') then UnresolvedSecretsError unresolved'
          else
            resolve_loop vault_secrets static_secrets regenerate fuel'
              resolved' rng' unresolved' (length unresolved')
      end
  end.

(** [_resolve_secrets] with an explicit bound on the number of passes. *)
Definition resolve_secrets_fuel (fuel : nat) (secrets : list Secret)
    (vault_secrets : Secrets) (static_secrets : option StaticSecrets)
    (regenerate : bool) (rng : Rng) : Resolution (ResolvedSecrets * Rng) :=
  let static_secrets := statics_or_empty static_secrets in
  match resolve_loop vault_secrets static_secrets regenerate fuel [] rng
          secrets (length secrets) with
  | Resolved (resolved, rng') =>
      Resolved (mkResolved resolved (static_pull_secret static_secrets), rng')
  | UnresolvedSecretsError unresolved => UnresolvedSecretsError unresolved
  | OutOfFuel => OutOfFuel
  end.

(** [SecretsService._resolve_secrets]: every pass that does not raise
    shrinks the pending list, so one pass per declaration is enough fuel
    ([resolve_secrets_total]). *)
Definition _resolve_secrets (secrets : list Secret) (vault_secrets : Secrets)
    (static_secrets : option StaticSecrets) (regenerate : bool) (rng : Rng)
  : Resolution (ResolvedSecrets * Rng) :=
  resolve_secrets_fuel (length secrets) secrets vault_secrets static_secrets
    regenerate rng.

End Resolver.

(** ** Audit

    The comparison loop of [SecretsService.audit]. The three lists hold the
    [(application, key)] pairs; the report renders each pair as
    [f"{app_name} {key}"]. *)

Definition Entry : Type := (string * string)%type.

Record AuditState : Type := mkAudit {
  audit_vault : Secrets;
  audit_missing : list Entry;
  audit_mismatch : list Entry
}.

(** [del vault_secrets[app_name][key]]: the inner dictionary is updated in
    place, so the application keeps its position. *)
Definition consume (vault_secrets : Secrets) (app_name k : string) : Secrets :=
  Dict.set vault_secrets app_name
    (Dict.del (Dict.get_default vault_secrets app_name []) k).

(** Body of [for key, secret in values.items()]. *)
Definition audit_secret (app_name : string) (st : AuditState)
    (item : string * SecretStr) : AuditState :=
  let (k, secret) := item in
  if negb (Dict.mem (Dict.get_default (audit_vault st) app_name []) k) then
    mkAudit (audit_vault st) (audit_missing st ++ [(app_name, k)]) (audit_mismatch st)
  else
    let mismatch :=
      if secret_neb (Some secret) (lookup (audit_vault st) app_name k)
      then audit_mismatch st ++ [(app_name, k)]
      else audit_mismatch st in
    mkAudit (consume (audit_vault st) app_name k) (audit_missing st) mismatch.

(** Body of [for app_name, values in resolved.applications.items()]. *)
Definition audit_application (st : AuditState)
    (item : string * Dict.t SecretStr) : AuditState :=
  fold_left (audit_secret (fst item)) (snd item) st.

(** [[f"{a} {k}" for a, lv in vault_secrets.items() for k in lv]], as pairs *)
Definition entries (table : Secrets) : list Entry :=
  flat_map (fun item => map (fun kv => (fst item, fst kv)) (snd item)) table.

Record AuditFindings : Type := mkFindings {
  missing : list Entry;
  mismatch : list Entry;
  unknown : list Entry
}.

Definition audit_compare (resolved : ResolvedSecrets) (vault_secrets : Secrets)
  : AuditFindings :=
  let st := fold_left audit_application (applications resolved)
              (mkAudit vault_secrets [] []) in
  mkFindings (audit_missing st) (audit_mismatch st) (entries (audit_vault st)).

Definition newline : string := String (Ascii.ascii_of_nat 10) EmptyString.

Definition bullet : string := newline ++ "• ".

Definition entry_text (e : Entry) : string := fst e ++ " " ++ snd e.

(** One block of the report; an empty list contributes nothing. *)
Definition report_section (heading : string) (l : list Entry) : string :=
  match l with
  | [] => ""
  | _ :: _ =>
      heading ++ ":" ++ bullet ++ String.concat bullet (map entry_text l) ++ newline
  end.

Definition audit_report (f : AuditFindings) : string :=
  report_section "Missing secrets" (missing f)
  ++ report_section "Incorrect secrets" (mismatch f)
  ++ report_section "Unknown secrets in Vault" (unknown f).

(** ** Vault client *)

(** Modelled from the spec: the mutating calls of the store client
    ([phalanx.storage.vault.VaultClient], not in the service file):
    [storeApplicationSecret(app, map)], [updateApplicationSecret(app, key,
    value)] and [deleteApplicationSecret(app)]. *)
Inductive VaultCall : Type :=
| store_application_secret (app : string) (values : Dict.t SecretStr)
| update_application_secret (app k : string) (secret : SecretStr)
| delete_application_secret (app : string).

(** Modelled from the spec: what a call does to the store. Storing writes
    the whole entry of an application (this is how [_clean_vault_secrets]
    drops keys), updating sets one key of it, deleting removes the entry;
    [getEnvironmentSecrets()] reads the store as it is. *)
Definition vault_apply (store : Secrets) (c : VaultCall) : Secrets :=
  match c with
  | store_application_secret app values => Dict.set store app values
  | update_application_secret app k secret => assign store app k secret
  | delete_application_secret app => Dict.del store app
  end.

(** The store after a sequence of calls. *)
Definition vault_run (store : Secrets) (calls : list VaultCall) : Secrets :=
  fold_left vault_apply calls store.

(** ** Sync

    The methods make their Vault calls one after the other and never read
    the store back, so each is the list of calls it makes. *)

(** [SecretsService._sync_application_secrets] *)
Definition _sync_application_secrets (vault_secrets : Secrets)
    (resolved : ResolvedSecrets) : list VaultCall :=
  flat_map
    (fun item : string * Dict.t SecretStr =>
       let (app, values) := item in
       if negb (Dict.mem vault_secrets app) then
         [store_application_secret app values]
       else
         let vault_app_secrets := Dict.get_default vault_secrets app [] in
         flat_map
           (fun kv : string * SecretStr =>
              if secret_neb (Some (snd kv)) (Dict.get vault_app_secrets (fst kv))
              then [update_application_secret app (fst kv) (snd kv)]
              else [])
           values)
    (applications resolved).

(** [SecretsService._clean_vault_secrets]: the keys to delete are removed
    from the snapshot's own dictionary, which is then written back. *)
Definition _clean_vault_secrets (vault_secrets : Secrets)
    (resolved : ResolvedSecrets) (has_pull_secret : bool) : list VaultCall :=
  flat_map
    (fun item : string * Dict.t SecretStr =>
       let (app, values) := item in
       match Dict.get (applications resolved) app with
       | None =>
           if String.eqb app "pull-secret" && has_pull_secret then []
           else [delete_application_secret app]
       | Some expected =>
           let to_delete :=
             filter (fun k => negb (Dict.mem expected k)) (Dict.keys values) in
           match to_delete with
           | [] => []
           | _ :: _ =>
               [store_application_secret app
                  (filter (fun kv => Dict.mem expected (fst kv)) values)]
           end
       end)
    vault_secrets.

Section Service.
Context {Rng : Type} {G : Generator Rng}.

(** [PullSecret.to_dockerconfigjson] *)
Variable to_dockerconfigjson : PullSecret -> string.

(** [SecretsService._sync_pull_secret] *)
Definition _sync_pull_secret (vault_secrets : Secrets) (pull : PullSecret)
  : list VaultCall :=
  let v := to_dockerconfigjson pull in
  let secret := [(".dockerconfigjson", v)] in
  match Dict.get vault_secrets "pull-secret" with
  | None => [store_application_secret "pull-secret" secret]
  | Some current =>
      if negb (Dict.eqb String.eqb secret current)
      then [store_application_secret "pull-secret" secret]
      else []
  end.

(** The Vault calls of [sync] once the secrets are resolved. *)
Definition sync_calls (vault_secrets : Secrets) (resolved : ResolvedSecrets)
    (delete : bool) : list VaultCall :=
  _sync_application_secrets vault_secrets resolved
  ++ match pull_secret resolved with
     | Some pull =>
         match registries pull with
         | [] => []
         | _ :: _ => _sync_pull_secret vault_secrets pull
         end
     | None => []
     end
  ++ (if delete then
        _clean_vault_secrets vault_secrets resolved
          (match pull_secret resolved with Some _ => true | None => false end)
      else []).

(** [SecretsService.audit] against the Vault snapshot [vault_secrets]. *)
Definition audit (secrets : list Secret) (onepassword : option StaticSecrets)
    (vault_secrets : Secrets) (static_secrets : option StaticSecrets)
    (rng : Rng) : Resolution string :=
  let static_secrets :=
    match static_secrets with
    | Some s => Some s
    | None => onepassword
    end in
  match _resolve_secrets secrets vault_secrets static_secrets false rng with
  | Resolved (resolved, _) =>
      Resolved (audit_report (audit_compare resolved vault_secrets))
  | UnresolvedSecretsError unresolved => UnresolvedSecretsError unresolved
  | OutOfFuel => OutOfFuel
  end.

Record SyncResult : Type := mkSync {
  sync_resolved : ResolvedSecrets;
  sync_made : list VaultCall;
  sync_store : Secrets;
  sync_rng : Rng
}.

(** [SecretsService.sync] on a Vault holding [store]; [onepassword] is what
    [_get_onepassword_secrets] returns for the environment. *)
Definition sync (secrets : list Secret) (onepassword : option StaticSecrets)
    (store : Secrets) (static_secrets : option StaticSecrets)
    (regenerate delete : bool) (rng : Rng) : Resolution SyncResult :=
  let static_secrets :=
    match static_secrets with
    | Some s => Some s
    | None => onepassword
    end in
  let vault_secrets := store in
  match _resolve_secrets secrets vault_secrets static_secrets regenerate rng with
  | Resolved (resolved, rng') =>
      let calls := sync_calls vault_secrets resolved delete in
      Resolved (mkSync resolved calls (vault_run store calls) rng')
  | UnresolvedSecretsError unresolved => UnresolvedSecretsError unresolved
  | OutOfFuel => OutOfFuel
  end.

End Service.

(** ** Saving Vault secrets and the template of static secrets *)

(** The dictionary [save_vault_secrets] hands to [json.dump] for one
    application: the value of each secret, [None] (written as [null]) for
    a secret without value. *)
Definition app_secrets_of (values : Dict.t SecretStr) : Dict.t (option string) :=
  fold_left
    (fun app_secrets kv =>
       Dict.set app_secrets (fst kv)
         (if secret_truthy (snd kv) then Some (snd kv) else None))
    values [].

(** [SecretsService.save_vault_secrets], given the snapshot of Vault: the
    files it opens for writing under [path], in order, each with its name
    and the dictionary dumped into it. *)
Definition save_vault_secrets (vault_secrets : Secrets)
  : list (string * Dict.t (option string)) :=
  map (fun item => ((fst item ++ ".json")%string, app_secrets_of (snd item)))
    vault_secrets.

(** [template[secret.application][secret.key] = StaticSecret(value=None)]
    on a [defaultdict(dict)]; the description, the only other content of
    the entry, is not a field of the record. *)
Definition template_entry (template : Dict.t (Dict.t StaticSecret))
    (secret : Secret) : Dict.t (Dict.t StaticSecret) :=
  Dict.set template (application secret)
    (Dict.set (Dict.get_default template (application secret) [])
       (key secret) (mkStatic None)).

(** [SecretsService.generate_static_template], before the dump to YAML:
    [static] lists what [all_static_secrets] gives for the applications of
    the environment, in order; the pull secret is [PullSecret()]. *)
Definition generate_static_template (static : list Secret) : StaticSecrets :=
  mkStatics (fold_left template_entry static []) (Some (mkPull [])).

(** ** Vocabulary of the properties *)

(** The application a Vault call writes to. *)
Definition call_target (c : VaultCall) : string :=
  match c with
  | store_application_secret app _ => app
  | update_application_secret app _ _ => app
  | delete_application_secret app => app
  end.

(** A table of secrets is well formed when each application occurs once
    and each of its keys once. *)
Definition wf_secrets (T : Secrets) : Prop :=
  Dict.wf T /\ forall a d, In (a, d) T -> Dict.wf d.

(** The pairs a declaration refers to: the source of its copy rule and the
    source of its from-source generate rule. *)
Definition references (s : Secret) : list (string * string) :=
  match copy_rules s with
  | Some rules => [(copy_application rules, copy_key rules)]
  | None => []
  end
  ++ match generate s with
     | Some (SourceSecretGenerateRules _ src) => [(application s, src)]
     | _ => []
     end.

(** The table holds a value for the pair. *)
Definition has (table : Secrets) (id : string * string) : Prop :=
  truthy (lookup table (fst id) (snd id)) = true.

(** Every value of the table belongs to a declaration that is no longer
    pending, and the pending declarations are about distinct pairs. *)
Definition origin (secrets : list Secret) (T : Secrets) (X : list Secret) : Prop :=
  incl X secrets
  /\ NoDup (map secret_id X)
  /\ forall a k v, lookup T a k = Some v ->
       exists d, In d secrets /\ secret_id d = (a, k) /\ ~ In d X.

(** The references of the declarations form a DAG over the declared pairs:
    [rank] numbers the declarations below [N] so that everything a
    declaration refers to is declared with a smaller number. [N] is then at
    least the number of declarations on the longest chain of references. *)
Definition acyclic (rank : Secret -> nat) (N : nat) (secrets : list Secret) : Prop :=
  forall d, In d secrets ->
    rank d < N
    /\ forall p, In p (references d) ->
         exists d', In d' secrets /\ secret_id d' = p /\ rank d' < rank d.

(** A declaration without a rule finds a value in the static secrets or in
    Vault. *)
Definition provided (vault_secrets : Secrets) (static_secrets : StaticSecrets)
    (d : Secret) : Prop :=
  truthy (value d) = false -> copy_rules d = None -> generate d = None ->
  truthy (static_value_of static_secrets d) = true
  \/ truthy (current_value_of vault_secrets d) = true.

(** The generator never produces the empty string. *)
Definition productive {Rng : Type} (G : Generator Rng) : Prop :=
  (forall ty rng, secret_truthy (fst (generate_simple ty rng)) = true)
  /\ (forall ty src s rng,
        secret_truthy (fst (generate_from_source ty src s rng)) = true).

(** Every declaration is pending or has its value in the table. *)
Definition settled (secrets : list Secret) (T : Secrets) (X : list Secret) : Prop :=
  forall d, In d secrets -> In d X \/ has T (secret_id d).

Inductive Classification : Type := Ok | Missing | Mismatch | Unknown.

Definition classification_eqb (c c' : Classification) : bool :=
  match c, c' with
  | Ok, Ok | Missing, Missing | Mismatch, Mismatch | Unknown, Unknown => true
  | _, _ => false
  end.

(** The classification in the words of the spec: a resolved pair is missing
    when absent from the snapshot, a mismatch when present with another
    value, ok when present and equal; a pair of the snapshot that is not
    resolved is unknown. A pair in neither has no classification. *)
Definition classify (resolved vault_secrets : Secrets) (e : Entry)
  : option Classification :=
  match lookup resolved (fst e) (snd e), lookup vault_secrets (fst e) (snd e) with
  | Some r, Some v => if String.eqb r v then Some Ok else Some Mismatch
  | Some _, None => Some Missing
  | None, Some _ => Some Unknown
  | None, None => None
  end.

Definition classified (c : Classification) (resolved vault_secrets : Secrets)
    (e : Entry) : bool :=
  match classify resolved vault_secrets e with
  | Some c' => classification_eqb c c'
  | None => false
  end.

Definition entry_eqb (e e' : Entry) : bool :=
  String.eqb (fst e) (fst e') && String.eqb (snd e) (snd e').

(** The secrets of a table in the order the audit visits them. *)
Definition items (T : Secrets) : list (Entry * SecretStr) :=
  flat_map (fun item => map (fun kv => ((fst item, fst kv), snd kv)) (snd item)) T.

Definition audit_item (st : AuditState) (it : Entry * SecretStr) : AuditState :=
  audit_secret (fst (fst it)) st (snd (fst it), snd it).

(** How the audit classifies one secret against the snapshot [W] it has at
    that point. *)
Definition item_missing (W : Secrets) (it : Entry * SecretStr) : bool :=
  match lookup W (fst (fst it)) (snd (fst it)) with
  | None => true
  | Some _ => false
  end.

Definition item_mismatch (W : Secrets) (it : Entry * SecretStr) : bool :=
  match lookup W (fst (fst it)) (snd (fst it)) with
  | None => false
  | Some v => negb (String.eqb (snd it) v)
  end.

(** The report as a listing, to compare [audit]'s text with: a text of
    lines, each ended by a newline. A group that is not empty is its
    heading followed by its pairs, one per line as [• application key],
    in the order of the list; the groups come in the order missing,
    mismatch, unknown, under the headings [audit] prints. *)
Fixpoint unlines (lines : list string) : string :=
  match lines with
  | [] => ""
  | line :: rest => line ++ newline ++ unlines rest
  end.

Definition group_lines (heading : string) (l : list Entry) : list string :=
  match l with
  | [] => []
  | _ :: _ =>
      (heading ++ ":")%string
      :: map (fun e => ("• " ++ fst e ++ " " ++ snd e)%string) l
  end.

Definition listed_report (missing mismatch unknown : list Entry) : string :=
  unlines
    (group_lines "Missing secrets" missing
     ++ group_lines "Incorrect secrets" mismatch
     ++ group_lines "Unknown secrets in Vault" unknown).

(** The calls [_sync_application_secrets] makes for one resolved
    application. *)
Definition sync_application_calls (vault_secrets : Secrets)
    (item : string * Dict.t SecretStr) : list VaultCall :=
  let (app, values) := item in
  if negb (Dict.mem vault_secrets app) then
    [store_application_secret app values]
  else
    let vault_app_secrets := Dict.get_default vault_secrets app [] in
    flat_map
      (fun kv : string * SecretStr =>
         if secret_neb (Some (snd kv)) (Dict.get vault_app_secrets (fst kv))
         then [update_application_secret app (fst kv) (snd kv)]
         else [])
      values.

(** The calls [_clean_vault_secrets] makes for one application of the
    snapshot. *)
Definition clean_application_calls (resolved : ResolvedSecrets)
    (has_pull_secret : bool) (item : string * Dict.t SecretStr) : list VaultCall :=
  let (app, values) := item in
  match Dict.get (applications resolved) app with
  | None =>
      if String.eqb app "pull-secret" && has_pull_secret then []
      else [delete_application_secret app]
  | Some expected =>
      let to_delete :=
        filter (fun k => negb (Dict.mem expected k)) (Dict.keys values) in
      match to_delete with
      | [] => []
      | _ :: _ =>
          [store_application_secret app
             (filter (fun kv => Dict.mem expected (fst kv)) values)]
      end
  end.

(** What cleaning leaves of the entry [values] of application [app]. *)
Definition cleaned_entry (resolved : ResolvedSecrets) (has_pull_secret : bool)
    (app : string) (values : Dict.t SecretStr) : option (Dict.t SecretStr) :=
  match Dict.get (applications resolved) app with
  | None =>
      if String.eqb app "pull-secret" && has_pull_secret then Some values
      else None
  | Some expected => Some (filter (fun kv => Dict.mem expected (fst kv)) values)
  end.

(** The pull secret [sync] writes: the resolved one, when it has
    registries. *)
Definition synced_pull_secret (resolved : ResolvedSecrets) : option PullSecret :=
  match pull_secret resolved with
  | Some pull =>
      match registries pull with
      | [] => None
      | _ :: _ => Some pull
      end
  | None => None
  end.

(** The source a declaration copies from, when its copy rule decides. *)
Definition copy_needs (d : Secret) : list (string * string) :=
  if truthy (value d) then []
  else
    match copy_rules d with
    | Some rules => [(copy_application rules, copy_key rules)]
    | None => []
    end.

(** ** A concrete generator, for running the model *)

(** Randomness is a counter: the n-th draw is a string of n+1 letters. *)
#[local] Instance counter_generator : Generator nat := {|
  generate_simple := fun _ n => (String.concat "" (repeat "g" (S n)), S n);
  generate_from_source := fun _ _ src n => (("derived-" ++ src)%string, S n)
|}.

(** A stand-in for the registry credentials' JSON. *)
Definition demo_dockerconfigjson (p : PullSecret) : string :=
  String.concat ";"
    (map (fun r => (fst r ++ "=" ++ username (snd r) ++ ":" ++ password (snd r))%string)
       (registries p)).

(** The declarations of the spec's example scenario: [db.password] is
    generated, [api.dbpass] copies it. *)
Definition demo_db : Secret :=
  mkSecret "db" "password" None None (Some (SimpleSecretGenerateRules "password")).

Definition demo_api : Secret :=
  mkSecret "api" "dbpass" None (Some (mkCopy "db" "password")) None.

Definition demo_rank (s : Secret) : nat :=
  match copy_rules s with
  | Some _ => 1
  | None => 0
  end.



(** A declaration without any rule. *)
Definition demo_static : Secret := mkSecret "app" "key" None None None.

(** A declaration with a value from configuration. *)
Definition demo_literal : Secret := mkSecret "A" "k1" (Some "new") None None.

Definition demo_pull : PullSecret :=
  mkPull [("ghcr.io", mkRegistry "bot" "old-password")].

Definition demo_pull_changed : PullSecret :=
  mkPull [("ghcr.io", mkRegistry "bot" "new-password")].

(** * Properties *)

(** ** Resolving one declaration *)

Section ResolveSecretFacts.
Context {Rng : Type} {G : Generator Rng}.

(** What the generate branch of [_resolve_secret] yields when the current
    value is not kept. *)
Lemma resolve_secret_generates (config : Secret) (resolved : Secrets)
    (current static : option SecretStr) (regenerate : bool) (rng : Rng)
    (rules : SecretGenerateRules) :
  truthy (value config) = false ->
  copy_rules config = None ->
  generate config = Some rules ->
  truthy current && negb regenerate = false ->
  _resolve_secret config resolved current static regenerate rng =
  match rules with
  | SimpleSecretGenerateRules ty =>
      (Some (fst (generate_simple ty rng)), snd (generate_simple ty rng))
  | SourceSecretGenerateRules ty src =>
      match lookup resolved (application config) src with
      | Some other =>
          if secret_truthy other
          then (Some (fst (generate_from_source ty src other rng)),
                snd (generate_from_source ty src other rng))
          else (None, rng)
      | None => (None, rng)
      end
  end.
Proof.
  intros Hv Hc Hg Hkeep. unfold _resolve_secret.
  rewrite Hv, Hc, Hg, Hkeep.
  destruct rules as [ty | ty src].
  - now destruct (generate_simple ty rng).
  - destruct (lookup resolved (application config) src) as [other |]; [| reflexivity].
    destruct (secret_truthy other); [| reflexivity].
    now destruct (generate_from_source ty src other rng).
Qed.

(** C6: [_resolve_secret] tries the rule kinds in a fixed order. A literal
    value, when there is one, is the result whatever else the declaration
    carries; without it a copy rule decides alone, giving its source's value
    from the table of resolved secrets or nothing yet; without either a
    generate rule decides alone, keeping the current value unless
    regeneration is asked for, otherwise generating (from its source once
    that is resolved for the from-source rules, afresh for the others); and
    only a declaration with none of these falls back to the static value and
    then to the current value. *)
Theorem resolve_secret_precedence (config : Secret) (resolved : Secrets)
    (current static : option SecretStr) (regenerate : bool) (rng : Rng) :
  let result := _resolve_secret config resolved current static regenerate rng in
  (truthy (value config) = true -> result = (value config, rng))
  /\ (truthy (value config) = false ->
      forall rules, copy_rules config = Some rules ->
        let other := lookup resolved (copy_application rules) (copy_key rules) in
        (truthy other = true -> result = (other, rng))
        /\ (truthy other = false -> result = (None, rng)))
  /\ (truthy (value config) = false -> copy_rules config = None ->
      forall rules, generate config = Some rules ->
        (truthy current = true -> regenerate = false -> result = (current, rng))
        /\ (truthy current = false \/ regenerate = true ->
            match rules with
            | SimpleSecretGenerateRules ty =>
                result = (Some (fst (generate_simple ty rng)),
                          snd (generate_simple ty rng))
            | SourceSecretGenerateRules ty src =>
                let other := lookup resolved (application config) src in
                (truthy other = false -> result = (None, rng))
                /\ (forall s, other = Some s -> secret_truthy s = true ->
                    result = (Some (fst (generate_from_source ty src s rng)),
                              snd (generate_from_source ty src s rng)))
            end))
  /\ (truthy (value config) = false -> copy_rules config = None ->
      generate config = None ->
      (truthy static = true -> result = (static, rng))
      /\ (truthy static = false -> result = (current, rng))).
Proof.
  cbv zeta. split; [| split; [| split]].
  - intros Hv. unfold _resolve_secret. now rewrite Hv.
  - intros Hv rules Hc. unfold _resolve_secret. rewrite Hv, Hc.
    split; intros Hother; now rewrite Hother.
  - intros Hv Hc rules Hg. split.
    + intros Hcur Hre. unfold _resolve_secret.
      now rewrite Hv, Hc, Hg, Hcur, Hre.
    + intros Hkeep.
      assert (Hk : truthy current && negb regenerate = false).
      { destruct Hkeep as [-> | ->]; [reflexivity | apply andb_false_r]. }
      rewrite (resolve_secret_generates _ _ _ _ _ _ _ Hv Hc Hg Hk).
      destruct rules as [ty | ty src]; [reflexivity |].
      split.
      * intros Hother.
        destruct (lookup resolved (application config) src) as [other |];
          [| reflexivity].
        simpl in Hother. now rewrite Hother.
      * intros s -> Hs. now rewrite Hs.
  - intros Hv Hc Hg. unfold _resolve_secret. rewrite Hv, Hc, Hg.
    split; intros Hs; now rewrite Hs.
Qed.

(** C7: for a declaration resolved by its generate rule that has a
    (non-empty) current value in Vault, [regenerate = false] keeps that value
    unchanged and draws nothing from the generator; with [regenerate = true]
    the current value plays no part in the result, and the value produced is
    the generator's (for a from-source rule, from its source once that is
    resolved). *)
Theorem generated_secret_stability (config : Secret) (resolved : Secrets)
    (current : SecretStr) (static : option SecretStr) (rng : Rng)
    (rules : SecretGenerateRules) :
  truthy (value config) = false ->
  copy_rules config = None ->
  generate config = Some rules ->
  secret_truthy current = true ->
  _resolve_secret config resolved (Some current) static false rng
    = (Some current, rng)
  /\ (forall other_current,
        _resolve_secret config resolved (Some current) static true rng
        = _resolve_secret config resolved other_current static true rng)
  /\ match rules with
     | SimpleSecretGenerateRules ty =>
         _resolve_secret config resolved (Some current) static true rng
         = (Some (fst (generate_simple ty rng)), snd (generate_simple ty rng))
     | SourceSecretGenerateRules ty src =>
         forall s, lookup resolved (application config) src = Some s ->
           secret_truthy s = true ->
           _resolve_secret config resolved (Some current) static true rng
           = (Some (fst (generate_from_source ty src s rng)),
              snd (generate_from_source ty src s rng))
     end.
Proof.
  intros Hv Hc Hg Hcur. split; [| split].
  - unfold _resolve_secret. rewrite Hv, Hc, Hg. simpl. now rewrite Hcur.
  - intros other_current.
    rewrite !(resolve_secret_generates _ _ _ _ _ _ _ Hv Hc Hg)
      by apply andb_false_r.
    reflexivity.
  - rewrite (resolve_secret_generates _ _ _ _ _ _ _ Hv Hc Hg)
      by apply andb_false_r.
    destruct rules as [ty | ty src]; [reflexivity |].
    intros s -> Hs. now rewrite Hs.
Qed.

End ResolveSecretFacts.

(** ** Dictionary facts *)

Module DictFacts.
Import Dict.

Section Facts.
Context {V : Type}.
Implicit Types (d : Dict.t V) (k : string) (v : V).

Lemma get_In_keys d k : get d k <> None <-> In k (keys d).
Proof.
  induction d as [| [k' v'] d IH]; simpl.
  - split; [congruence | tauto].
  - destruct (String.eqb_spec k k') as [-> | Hne].
    + split; [auto | congruence].
    + rewrite IH. split; [auto | intros [Heq | Hin]; congruence || assumption].
Qed.

Lemma get_None_keys d k : get d k = None <-> ~ In k (keys d).
Proof.
  rewrite <- get_In_keys. destruct (get d k) as [v |].
  - split; [congruence | intros H; exfalso; apply H; congruence].
  - split; [intros _ H; now apply H | reflexivity].
Qed.

Lemma mem_true_keys d k : mem d k = true <-> In k (keys d).
Proof.
  rewrite <- get_In_keys. unfold mem.
  destruct (get d k); split; congruence || auto.
Qed.

Lemma mem_false_keys d k : mem d k = false <-> ~ In k (keys d).
Proof.
  rewrite <- mem_true_keys. destruct (mem d k).
  - split; [congruence | intros H; exfalso; now apply H].
  - split; [congruence | reflexivity].
Qed.

Lemma get_In d k v : get d k = Some v -> In (k, v) d.
Proof.
  induction d as [| [k' v'] d IH]; simpl; [congruence |].
  destruct (String.eqb_spec k k') as [-> | Hne].
  - intros [= ->]. now left.
  - intros H. right. auto.
Qed.

Lemma In_get d k v : wf d -> In (k, v) d -> get d k = Some v.
Proof.
  unfold wf. induction d as [| [k' v'] d IH]; simpl; [tauto |].
  intros Hwf [Heq | Hin]; inversion Hwf as [| ? ? Hnotin Hwf']; subst.
  - injection Heq as -> ->. now rewrite String.eqb_refl.
  - destruct (String.eqb_spec k k') as [-> | Hne]; [| auto].
    exfalso. apply Hnotin. apply (in_map fst) in Hin. exact Hin.
Qed.

Lemma get_set_same d k v : get (set d k v) k = Some v.
Proof.
  induction d as [| [k' v'] d IH]; simpl.
  - now rewrite String.eqb_refl.
  - destruct (String.eqb_spec k k') as [-> | Hne]; simpl.
    + now rewrite String.eqb_refl.
    + now destruct (String.eqb_spec k k').
Qed.

Lemma get_set_other d k k' v : k' <> k -> get (set d k v) k' = get d k'.
Proof.
  intros Hne. induction d as [| [k0 v0] d IH]; simpl.
  - now destruct (String.eqb_spec k' k).
  - destruct (String.eqb_spec k k0) as [-> | Hne0]; simpl.
    + now destruct (String.eqb_spec k' k0).
    + now rewrite IH.
Qed.

Lemma keys_set_present d k v : In k (keys d) -> keys (set d k v) = keys d.
Proof.
  induction d as [| [k' v'] d IH]; simpl; [tauto |].
  destruct (String.eqb_spec k k') as [-> | Hne]; simpl; [reflexivity |].
  intros [Heq | Hin]; [congruence |]. f_equal. auto.
Qed.

Lemma keys_set_absent d k v : ~ In k (keys d) -> keys (set d k v) = keys d ++ [k].
Proof.
  induction d as [| [k' v'] d IH]; simpl; [reflexivity |].
  intros Hnotin. destruct (String.eqb_spec k k') as [-> | Hne]; simpl.
  - tauto.
  - f_equal. apply IH. tauto.
Qed.

Lemma In_keys_set d k k' v : In k' (keys (set d k v)) <-> k' = k \/ In k' (keys d).
Proof.
  rewrite <- !get_In_keys.
  destruct (String.eqb_spec k' k) as [-> | Hne].
  - rewrite get_set_same. split; [auto | congruence].
  - rewrite get_set_other by assumption. tauto.
Qed.

Lemma wf_set d k v : wf d -> wf (set d k v).
Proof.
  unfold wf. intros Hwf.
  destruct (in_dec string_dec k (keys d)) as [Hin | Hnotin].
  - now rewrite keys_set_present.
  - rewrite keys_set_absent by assumption.
    apply NoDup_app; [assumption | repeat constructor; simpl; tauto |].
    intros x Hx [<- | []]. contradiction.
Qed.

Lemma keys_del_incl d k k' : In k' (keys (del d k)) -> In k' (keys d).
Proof.
  induction d as [| [k0 v0] d IH]; simpl; [tauto |].
  destruct (String.eqb_spec k k0) as [-> | Hne]; simpl; tauto.
Qed.

Lemma wf_del d k : wf d -> wf (del d k).
Proof.
  unfold wf. induction d as [| [k0 v0] d IH]; simpl; [auto |].
  intros Hwf. inversion Hwf as [| ? ? Hnotin Hwf']; subst.
  destruct (String.eqb_spec k k0) as [-> | Hne]; simpl; [assumption |].
  constructor; [| auto]. intros Hin. apply Hnotin.
  eapply keys_del_incl; eassumption.
Qed.

Lemma get_del_same d k : wf d -> get (del d k) k = None.
Proof.
  unfold wf. induction d as [| [k0 v0] d IH]; simpl; [reflexivity |].
  intros Hwf. inversion Hwf as [| ? ? Hnotin Hwf']; subst.
  destruct (String.eqb_spec k k0) as [-> | Hne]; simpl.
  - now apply get_None_keys.
  - destruct (String.eqb_spec k k0); [congruence | auto].
Qed.

Lemma get_del_other d k k' : k' <> k -> get (del d k) k' = get d k'.
Proof.
  intros Hne. induction d as [| [k0 v0] d IH]; simpl; [reflexivity |].
  destruct (String.eqb_spec k k0) as [-> | Hne0]; simpl.
  - now destruct (String.eqb_spec k' k0).
  - now rewrite IH.
Qed.

(** Deleting keeps the order of the other entries. *)
Lemma del_filter d k :
  wf d -> del d k = filter (fun kv => negb (String.eqb (fst kv) k)) d.
Proof.
  unfold wf. induction d as [| [k0 v0] d IH]; simpl; [reflexivity |].
  intros Hwf. inversion Hwf as [| ? ? Hnotin Hwf']; subst.
  rewrite (String.eqb_sym k0 k).
  destruct (String.eqb_spec k k0) as [-> | Hne]; simpl.
  - symmetry. apply forallb_filter_id. apply forallb_forall.
    intros [k1 v1] Hin. simpl. apply negb_true_iff.
    apply String.eqb_neq. intros ->. apply Hnotin.
    apply (in_map fst) in Hin. exact Hin.
  - f_equal. auto.
Qed.

End Facts.

(** The table of tables. *)

Lemma lookup_assign_same (table : Secrets) (app k : string) (v : SecretStr) :
  lookup (assign table app k v) app k = Some v.
Proof.
  unfold lookup, assign, get_default.
  rewrite get_set_same. apply get_set_same.
Qed.

Lemma lookup_assign_other (table : Secrets) (app k app' k' : string)
    (v : SecretStr) :
  (app', k') <> (app, k) ->
  lookup (assign table app k v) app' k' = lookup table app' k'.
Proof.
  intros Hne. unfold lookup, assign, get_default.
  destruct (String.eqb_spec app' app) as [-> | Happ].
  - rewrite get_set_same. apply get_set_other. congruence.
  - now rewrite get_set_other.
Qed.

Lemma In_set {V : Type} (d : Dict.t V) (k k' : string) (v v' : V) :
  In (k', v') (set d k v) -> (k' = k /\ v' = v) \/ In (k', v') d.
Proof.
  induction d as [| [k0 v0] d IH]; simpl.
  - intros [[= <- <-] | []]. auto.
  - destruct (String.eqb_spec k k0) as [-> | Hne]; simpl.
    + intros [[= <- <-] | Hin]; auto.
    + intros [Heq | Hin]; [auto |]. destruct (IH Hin); auto.
Qed.

Lemma wf_secrets_empty : wf_secrets [].
Proof. split; [constructor | intros a d []]. Qed.

Lemma wf_get_default (T : Secrets) (a : string) :
  wf_secrets T -> wf (get_default T a []).
Proof.
  intros [_ Hinner]. unfold get_default.
  destruct (get T a) as [d |] eqn:Hget; [| constructor].
  apply (Hinner a). now apply get_In.
Qed.

Lemma wf_secrets_set (T : Secrets) (a : string) (d : Dict.t SecretStr) :
  wf_secrets T -> wf d -> wf_secrets (set T a d).
Proof.
  intros HT Hd. split; [apply wf_set, HT |].
  intros a' d' Hin. apply In_set in Hin.
  destruct Hin as [[_ ->] | Hin]; [exact Hd |]. now apply (proj2 HT a').
Qed.

Lemma wf_secrets_assign (T : Secrets) (a k : string) (v : SecretStr) :
  wf_secrets T -> wf_secrets (assign T a k v).
Proof.
  intros HT. apply wf_secrets_set; [exact HT |].
  apply wf_set. now apply wf_get_default.
Qed.

Lemma In_entries (T : Secrets) (a k : string) :
  In (a, k) (entries T) <-> exists d, In (a, d) T /\ In k (keys d).
Proof.
  unfold entries. rewrite in_flat_map. split.
  - intros ([a' d] & Hin & Hk). simpl in Hk. apply in_map_iff in Hk.
    destruct Hk as ([k' v] & [= <- <-] & Hkv).
    exists d. split; [exact Hin |]. now apply (in_map fst) in Hkv.
  - intros (d & Hin & Hk). exists (a, d). split; [exact Hin |].
    simpl. unfold keys in Hk. apply in_map_iff in Hk.
    destruct Hk as ([k' v] & <- & Hkv). apply in_map_iff.
    exists (k', v). auto.
Qed.

(** The entries of a table are the pairs that have a value. *)
Lemma entries_lookup (T : Secrets) (a k : string) :
  wf T -> (In (a, k) (entries T) <-> lookup T a k <> None).
Proof.
  intros HT. rewrite In_entries. unfold lookup, get_default. split.
  - intros (d & Hin & Hk). rewrite (In_get T a d HT Hin).
    now apply get_In_keys.
  - destruct (get T a) as [d |] eqn:Hget; [| simpl; congruence].
    intros Hk. exists d. split; [now apply get_In | now apply get_In_keys].
Qed.

Lemma NoDup_entries (T : Secrets) : wf_secrets T -> NoDup (entries T).
Proof.
  induction T as [| [a d] T IH]; intros [Houter Hinner]; [constructor |].
  unfold wf in Houter. simpl in Houter.
  inversion Houter as [| ? ? Hnotin Houter']; subst.
  change (entries ((a, d) :: T))
    with (map (fun kv => (a, fst kv)) d ++ entries T).
  apply NoDup_app.
  - assert (Hd : wf d) by (apply (Hinner a); now left).
    unfold wf, keys in Hd. clear - Hd.
    induction d as [| [k v] d IHd]; simpl in *; [constructor |].
    inversion Hd as [| ? ? Hk Hd']; subst. constructor; [| auto].
    intros Hin. apply Hk. apply in_map_iff in Hin.
    destruct Hin as ([k' v'] & [= <-] & Hin). now apply (in_map fst) in Hin.
  - apply IH. split; [exact Houter' |].
    intros a' d' Hin. apply (Hinner a'). now right.
  - intros [a' k'] Hleft Hright.
    apply in_map_iff in Hleft. destruct Hleft as (kv & [= <- <-] & _).
    apply In_entries in Hright. destruct Hright as (d' & Hin & _).
    apply Hnotin. now apply (in_map fst) in Hin.
Qed.

End DictFacts.

(** ** The resolution loop *)

Section ResolveLoopFacts.
Context {Rng : Type} {G : Generator Rng}.
Variables (vault_secrets : Secrets) (static_secrets : StaticSecrets)
  (regenerate : bool).

Let attempt (config : Secret) (resolved : Secrets) (rng : Rng) :=
  _resolve_secret config resolved (current_value_of vault_secrets config)
    (static_value_of static_secrets config) regenerate rng.

Let pass := resolve_pass vault_secrets static_secrets regenerate.
Let loop := resolve_loop vault_secrets static_secrets regenerate.

(** The two ways one iteration of the [for] loop goes. *)
Lemma resolve_pass_cons (c : Secret) (rest : list Secret) (T : Secrets)
    (rng : Rng) T' rng' P' :
  pass (c :: rest) T rng = (T', rng', P') ->
  (exists s, fst (attempt c T rng) = Some s /\ secret_truthy s = true
     /\ pass rest (assign T (application c) (key c) s) (snd (attempt c T rng))
        = (T', rng', P'))
  \/ (truthy (fst (attempt c T rng)) = false
      /\ exists U, P' = c :: U
         /\ pass rest T (snd (attempt c T rng)) = (T', rng', U)).
Proof.
  unfold pass, attempt. simpl.
  destruct (_resolve_secret c T _ _ regenerate rng) as [[s |] rng1]; simpl.
  - destruct (secret_truthy s) eqn:Hs.
    + intros H. left. exists s. auto.
    + destruct (resolve_pass _ _ _ rest T rng1) as [[T1 rng2] U].
      intros [= <- <- <-]. right. split; [reflexivity |]. exists U. auto.
  - destruct (resolve_pass _ _ _ rest T rng1) as [[T1 rng2] U].
    intros [= <- <- <-]. right. split; [reflexivity |]. exists U. auto.
Qed.

(** A pass never lengthens the pending list, and one that resolves nothing
    leaves the list and the table as they were. *)
Lemma resolve_pass_length (P : list Secret) :
  forall T rng T' rng' P',
    pass P T rng = (T', rng', P') ->
    length P' <= length P /\ (length P <= length P' -> P' = P /\ T' = T).
Proof.
  induction P as [| c rest IH]; intros T rng T' rng' P' Hpass.
  - injection Hpass as <- <- <-. auto.
  - apply resolve_pass_cons in Hpass.
    destruct Hpass as [(s & _ & _ & Hrest) | (_ & U & -> & Hrest)];
      apply IH in Hrest; destruct Hrest as [Hle Heq]; simpl.
    + split; [lia | intros; lia].
    + split; [lia |]. intros Hge.
      destruct Heq as [-> ->]; [lia | auto].
Qed.

Lemma resolve_pass_incl (P : list Secret) :
  forall T rng T' rng' P',
    pass P T rng = (T', rng', P') -> incl P' P.
Proof.
  induction P as [| c rest IH]; intros T rng T' rng' P' Hpass.
  - injection Hpass as <- <- <-. apply incl_refl.
  - apply resolve_pass_cons in Hpass.
    destruct Hpass as [(s & _ & _ & Hrest) | (_ & U & -> & Hrest)];
      apply IH in Hrest.
    + now apply incl_tl.
    + apply incl_cons; [now left | now apply incl_tl].
Qed.

(** A property of the table and of the declarations not resolved so far
    that every assignment preserves holds after a pass. *)
Lemma resolve_pass_invariant (J : Secrets -> list Secret -> Prop) :
  (forall T Q c rest rng s,
      J T (Q ++ c :: rest) ->
      fst (attempt c T rng) = Some s -> secret_truthy s = true ->
      J (assign T (application c) (key c) s) (Q ++ rest)) ->
  forall P Q T rng T' rng' P',
    J T (Q ++ P) -> pass P T rng = (T', rng', P') -> J T' (Q ++ P').
Proof.
  intros Hstep. induction P as [| c rest IH]; intros Q T rng T' rng' P' HJ Hpass.
  - now injection Hpass as <- <- <-.
  - apply resolve_pass_cons in Hpass.
    destruct Hpass as [(s & Hs & Htrue & Hrest) | (_ & U & -> & Hrest)].
    + eapply IH; [| exact Hrest]. eapply Hstep; eassumption.
    + change (c :: U) with ([c] ++ U). rewrite app_assoc.
      eapply IH; [| exact Hrest]. now rewrite <- app_assoc.
Qed.

(** The table only gains values during a pass. *)
Lemma has_assign (T : Secrets) (app k : string) (s : SecretStr) id :
  secret_truthy s = true -> has T id -> has (assign T app k s) id.
Proof.
  intros Hs Hid. unfold has. destruct id as [a' k']. simpl.
  destruct (string_dec a' app) as [-> | Ha];
    [destruct (string_dec k' k) as [-> | Hk] |].
  - now rewrite DictFacts.lookup_assign_same.
  - rewrite DictFacts.lookup_assign_other by congruence. exact Hid.
  - rewrite DictFacts.lookup_assign_other by congruence. exact Hid.
Qed.

(** A declaration still pending after a pass failed to resolve against a
    table at least as full as the one the pass started from. *)
Lemma resolve_pass_failed (P : list Secret) :
  forall T rng T' rng' P',
    pass P T rng = (T', rng', P') ->
    forall d, In d P' ->
      exists T1 rng1,
        (forall id, has T id -> has T1 id)
        /\ truthy (fst (attempt d T1 rng1)) = false.
Proof.
  induction P as [| c rest IH]; intros T rng T' rng' P' Hpass d Hd.
  - injection Hpass as <- <- <-. destruct Hd.
  - apply resolve_pass_cons in Hpass.
    destruct Hpass as [(s & Hs & Htrue & Hrest) | (Hfail & U & -> & Hrest)].
    + destruct (IH _ _ _ _ _ Hrest d Hd) as (T1 & rng1 & Hmono & Hfail).
      exists T1, rng1. split; [| exact Hfail].
      intros id Hid. apply Hmono. now apply has_assign.
    + destruct Hd as [<- | Hd].
      * exists T, rng. auto.
      * eapply IH; eassumption.
Qed.

(** One turn of the [while] loop. *)
Lemma resolve_loop_step (fuel : nat) (T : Secrets) (rng : Rng) (c : Secret)
    (rest : list Secret) (left : nat) :
  loop (S fuel) T rng (c :: rest) left =
  let '(T', rng', P') := pass (c :: rest) T rng in
  if Nat.leb left (length P') then UnresolvedSecretsError P'
  else loop fuel T' rng' P' (length P').
Proof. reflexivity. Qed.

(** The loop under an invariant of the passes. *)
Lemma resolve_loop_invariant (J : Secrets -> list Secret -> Prop) :
  (forall T Q c rest rng s,
      J T (Q ++ c :: rest) ->
      fst (attempt c T rng) = Some s -> secret_truthy s = true ->
      J (assign T (application c) (key c) s) (Q ++ rest)) ->
  forall fuel T rng P,
    J T P ->
    match loop fuel T rng P (length P) with
    | Resolved (T', _) => J T' []
    | UnresolvedSecretsError l => exists T', J T' l
    | OutOfFuel => True
    end.
Proof.
  intros Hstep. induction fuel as [| fuel IH]; intros T rng P HJ.
  - destruct P; unfold loop; simpl; auto.
  - destruct P as [| c rest]; [exact HJ |].
    rewrite resolve_loop_step.
    destruct (pass (c :: rest) T rng) as [[T' rng'] P'] eqn:Hpass.
    apply (resolve_pass_invariant J Hstep _ [] _ _ _ _ _ HJ) in Hpass.
    simpl in Hpass.
    destruct (Nat.leb (length (c :: rest)) (length P')).
    + now exists T'.
    + now apply IH.
Qed.

(** One pass per declaration is enough: the loop never runs out of fuel. *)
Lemma resolve_loop_total :
  forall fuel T rng P,
    length P <= fuel -> loop fuel T rng P (length P) <> OutOfFuel.
Proof.
  induction fuel as [| fuel IH]; intros T rng P Hlen.
  - destruct P; unfold loop; simpl in *; [discriminate | lia].
  - destruct P as [| c rest]; [discriminate |].
    rewrite resolve_loop_step.
    destruct (pass (c :: rest) T rng) as [[T' rng'] P'] eqn:Hpass.
    apply resolve_pass_length in Hpass.
    destruct (Nat.leb_spec (length (c :: rest)) (length P')) as [Hge | Hlt].
    + discriminate.
    + apply IH. simpl in *. lia.
Qed.

(** More fuel does not change a result. *)
Lemma resolve_loop_fuel_mono :
  forall fuel fuel' T rng P left,
    fuel <= fuel' ->
    loop fuel T rng P left <> OutOfFuel ->
    loop fuel' T rng P left = loop fuel T rng P left.
Proof.
  induction fuel as [| fuel IH]; intros fuel' T rng P left Hle Hres.
  - destruct P; unfold loop in *; simpl in *; [now destruct fuel' | congruence].
  - destruct fuel' as [| fuel']; [lia |].
    destruct P as [| c rest]; [reflexivity |].
    rewrite !resolve_loop_step in *.
    destruct (pass (c :: rest) T rng) as [[T' rng'] P'].
    destruct (Nat.leb left (length P')); [reflexivity |].
    apply IH; [lia | assumption].
Qed.

(** Two amounts of fuel that both suffice give the same result. *)
Lemma resolve_loop_fuel_irrelevant (fuel fuel' : nat) (T : Secrets) (rng : Rng)
    (P : list Secret) (left : nat) :
  loop fuel T rng P left <> OutOfFuel ->
  loop fuel' T rng P left <> OutOfFuel ->
  loop fuel T rng P left = loop fuel' T rng P left.
Proof.
  intros Hfuel Hfuel'.
  destruct (Nat.le_ge_cases fuel fuel') as [Hle | Hge].
  - symmetry. now apply resolve_loop_fuel_mono.
  - now apply resolve_loop_fuel_mono.
Qed.

End ResolveLoopFacts.

(** ** Declarations and the table of resolved secrets *)

Lemma NoDup_map_injective {A B : Type} (f : A -> B) (l : list A) :
  NoDup (map f l) -> forall x y, In x l -> In y l -> f x = f y -> x = y.
Proof.
  induction l as [| a l IH]; simpl; [tauto |].
  intros Hnd x y Hx Hy Hxy. inversion Hnd as [| ? ? Hnotin Hnd']; subst.
  destruct Hx as [<- | Hx], Hy as [<- | Hy]; auto.
  - exfalso. apply Hnotin. rewrite Hxy. now apply in_map.
  - exfalso. apply Hnotin. rewrite <- Hxy. now apply in_map.
Qed.

Lemma In_app_middle {A : Type} (x c : A) (Q rest : list A) :
  In x (Q ++ c :: rest) -> x = c \/ In x (Q ++ rest).
Proof.
  rewrite !in_app_iff. simpl. intuition auto.
Qed.

Lemma In_app_skip {A : Type} (x c : A) (Q rest : list A) :
  In x (Q ++ rest) -> In x (Q ++ c :: rest).
Proof.
  rewrite !in_app_iff. simpl. intuition auto.
Qed.

Lemma lookup_assign_Some (T : Secrets) (app k a' k' : string) (s v : SecretStr) :
  lookup (assign T app k s) a' k' = Some v ->
  (a', k') = (app, k) \/ lookup T a' k' = Some v.
Proof.
  intros H.
  destruct (string_dec a' app) as [-> | Ha];
    [destruct (string_dec k' k) as [-> | Hk] |]; auto;
    rewrite DictFacts.lookup_assign_other in H by congruence; auto.
Qed.

Section SecretRules.
Context {Rng : Type} {G : Generator Rng}.

(** A declaration resolved by its copy rule takes the value the table holds
    for the rule's source. *)
Lemma resolve_secret_copy (config : Secret) (T : Secrets)
    (current static : option SecretStr) (regenerate : bool) (rng : Rng)
    (rules : SecretCopyRules) (s : SecretStr) :
  truthy (value config) = false ->
  copy_rules config = Some rules ->
  fst (_resolve_secret config T current static regenerate rng) = Some s ->
  lookup T (copy_application rules) (copy_key rules) = Some s.
Proof.
  intros Hv Hc. unfold _resolve_secret. rewrite Hv, Hc.
  destruct (truthy (lookup T (copy_application rules) (copy_key rules))) eqn:Ht;
    simpl; [auto | discriminate].
Qed.

End SecretRules.

Lemma origin_start (secrets : list Secret) :
  NoDup (map secret_id secrets) -> origin secrets [] secrets.
Proof.
  intros Hnd. repeat split; [apply incl_refl | assumption |].
  intros a k v H. discriminate H.
Qed.

Lemma origin_assign (secrets : list Secret) (T : Secrets) (Q rest : list Secret)
    (c : Secret) (s : SecretStr) :
  origin secrets T (Q ++ c :: rest) ->
  origin secrets (assign T (application c) (key c) s) (Q ++ rest).
Proof.
  intros (Hincl & Hnd & Horigin).
  rewrite map_app in Hnd. simpl in Hnd.
  pose proof (NoDup_remove_1 _ _ _ Hnd) as Hnd1.
  pose proof (NoDup_remove_2 _ _ _ Hnd) as Hnd2.
  rewrite <- map_app in Hnd1, Hnd2.
  repeat split.
  - intros x Hx. apply Hincl. now apply In_app_skip.
  - exact Hnd1.
  - intros a k v Hlook. apply lookup_assign_Some in Hlook.
    destruct Hlook as [Heq | Hold].
    + exists c. repeat split.
      * apply Hincl. rewrite in_app_iff. simpl. auto.
      * now rewrite Heq.
      * intros Hin. apply Hnd2. now apply (in_map secret_id) in Hin.
    + destruct (Horigin _ _ _ Hold) as (d & Hd & Hid & Hnot).
      exists d. repeat split; auto.
      intros Hin. apply Hnot. now apply In_app_skip.
Qed.

(** A pair that has a value in the table is not the pair of a pending
    declaration. *)
Lemma origin_pending_fresh (secrets : list Secret) (T : Secrets)
    (X : list Secret) (c : Secret) (a k : string) (v : SecretStr) :
  NoDup (map secret_id secrets) ->
  origin secrets T X -> In c X -> lookup T a k = Some v ->
  secret_id c <> (a, k).
Proof.
  intros Hnd (Hincl & _ & Horigin) Hc Hlook Heq.
  destruct (Horigin _ _ _ Hlook) as (d & Hd & Hid & Hnot).
  apply Hnot.
  rewrite (NoDup_map_injective secret_id secrets Hnd d c); auto.
  congruence.
Qed.

(** ** [_resolve_secrets] *)

Section ResolveSecretsFacts.
Context {Rng : Type} {G : Generator Rng}.
Variables (secrets : list Secret) (vault_secrets : Secrets)
  (static_secrets : option StaticSecrets) (regenerate : bool).

Lemma resolve_secrets_fuel_loop (fuel : nat) (rng : Rng) :
  resolve_secrets_fuel fuel secrets vault_secrets static_secrets regenerate rng =
  match resolve_loop vault_secrets (statics_or_empty static_secrets) regenerate
          fuel [] rng secrets (length secrets) with
  | Resolved (T, rng') =>
      Resolved
        (mkResolved T (static_pull_secret (statics_or_empty static_secrets)), rng')
  | UnresolvedSecretsError l => UnresolvedSecretsError l
  | OutOfFuel => OutOfFuel
  end.
Proof. reflexivity. Qed.

(** [_resolve_secrets] returns or raises. *)
Lemma resolve_secrets_total (rng : Rng) :
  _resolve_secrets secrets vault_secrets static_secrets regenerate rng <> OutOfFuel.
Proof.
  unfold _resolve_secrets. rewrite resolve_secrets_fuel_loop.
  pose proof (resolve_loop_total vault_secrets (statics_or_empty static_secrets)
                regenerate (length secrets) [] rng secrets (le_n _)) as Htotal.
  destruct (resolve_loop _ _ _ _ _ _ _ _) as [[T rng'] | l |];
    [discriminate | discriminate | congruence].
Qed.

(** An invariant of the assignments holds of what [_resolve_secrets]
    returns, and of what it raises. *)
Lemma resolve_secrets_invariant (J : Secrets -> list Secret -> Prop) (rng : Rng) :
  (forall T Q c rest rng s,
      J T (Q ++ c :: rest) ->
      fst (_resolve_secret c T (current_value_of vault_secrets c)
             (static_value_of (statics_or_empty static_secrets) c)
             regenerate rng) = Some s ->
      secret_truthy s = true ->
      J (assign T (application c) (key c) s) (Q ++ rest)) ->
  J [] secrets ->
  match _resolve_secrets secrets vault_secrets static_secrets regenerate rng with
  | Resolved (R, _) => J (applications R) []
  | UnresolvedSecretsError l => exists T, J T l
  | OutOfFuel => False
  end.
Proof.
  intros Hstep Hstart.
  pose proof (resolve_secrets_total rng) as Htotal.
  unfold _resolve_secrets in *. rewrite resolve_secrets_fuel_loop in *.
  pose proof (resolve_loop_invariant vault_secrets
                (statics_or_empty static_secrets) regenerate J Hstep
                (length secrets) [] rng secrets Hstart) as Hinv.
  destruct (resolve_loop _ _ _ _ _ _ _ _) as [[T rng'] | l |];
    [exact Hinv | exact Hinv | congruence].
Qed.

(** When [_resolve_secrets] returns, every declaration has its value. *)
Lemma resolve_secrets_complete (rng : Rng) (R : ResolvedSecrets) (rng' : Rng) :
  _resolve_secrets secrets vault_secrets static_secrets regenerate rng
    = Resolved (R, rng') ->
  forall d, In d secrets -> has (applications R) (secret_id d).
Proof.
  intros Hres.
  pose proof (resolve_secrets_invariant
                (fun T X => forall d, In d secrets -> In d X \/ has T (secret_id d))
                rng) as Hinv.
  rewrite Hres in Hinv. intros d Hd.
  destruct (Hinv) with (d := d) as [[] | Hhas]; auto.
  intros T Q c rest rng0 s HJ _ Hs d0 Hd0.
  destruct (HJ d0 Hd0) as [Hin | Hhas].
  - apply In_app_middle in Hin. destruct Hin as [-> | Hin]; [| now left].
    right. unfold has, secret_id. simpl.
    now rewrite DictFacts.lookup_assign_same.
  - right. now apply has_assign.
Qed.

(** The pairs of the returned table are pairs of declarations. *)
Lemma resolve_secrets_declared (rng : Rng) (R : ResolvedSecrets) (rng' : Rng) :
  _resolve_secrets secrets vault_secrets static_secrets regenerate rng
    = Resolved (R, rng') ->
  forall a k v, lookup (applications R) a k = Some v ->
    exists d, In d secrets /\ secret_id d = (a, k).
Proof.
  intros Hres.
  pose proof (resolve_secrets_invariant
                (fun T X => incl X secrets
                   /\ forall a k v, lookup T a k = Some v ->
                        exists d, In d secrets /\ secret_id d = (a, k))
                rng) as Hinv.
  rewrite Hres in Hinv. apply Hinv.
  - intros T Q c rest rng0 s [Hincl HJ] _ _. split.
    + intros x Hx. apply Hincl. now apply In_app_skip.
    + intros a k v Hlook. apply lookup_assign_Some in Hlook.
      destruct Hlook as [Heq | Hold]; [| eauto].
      exists c. split; [| now rewrite Heq].
      apply Hincl. rewrite in_app_iff. simpl. auto.
  - split; [apply incl_refl | discriminate].
Qed.

(** The returned table holds every application once and every key of an
    application once. *)
Lemma resolve_secrets_wf (rng : Rng) (R : ResolvedSecrets) (rng' : Rng) :
  _resolve_secrets secrets vault_secrets static_secrets regenerate rng
    = Resolved (R, rng') ->
  wf_secrets (applications R).
Proof.
  intros Hres.
  pose proof (resolve_secrets_invariant (fun T _ => wf_secrets T) rng) as Hinv.
  rewrite Hres in Hinv. apply Hinv.
  - intros. now apply DictFacts.wf_secrets_assign.
  - apply DictFacts.wf_secrets_empty.
Qed.

End ResolveSecretsFacts.

(** ** Convergence on acyclic declarations *)

Lemma settled_assign (secrets : list Secret) (T : Secrets) (Q rest : list Secret)
    (c : Secret) (s : SecretStr) :
  secret_truthy s = true ->
  settled secrets T (Q ++ c :: rest) ->
  settled secrets (assign T (application c) (key c) s) (Q ++ rest).
Proof.
  intros Hs HJ d Hd. destruct (HJ d Hd) as [Hin | Hhas].
  - apply In_app_middle in Hin. destruct Hin as [-> | Hin]; [| now left].
    right. unfold has, secret_id. simpl.
    now rewrite DictFacts.lookup_assign_same.
  - right. now apply has_assign.
Qed.

Lemma exists_least_rank (rank : Secret -> nat) (P : list Secret) :
  P <> [] ->
  exists m, In m P /\ forall d, In d P -> rank m <= rank d.
Proof.
  induction P as [| c rest IH]; [congruence |]. intros _.
  destruct rest as [| c' rest'].
  - exists c. split; [now left |]. intros d [<- | []]. lia.
  - destruct IH as (m & Hm & Hleast); [discriminate |].
    destruct (Nat.le_gt_cases (rank c) (rank m)) as [Hle | Hgt].
    + exists c. split; [now left |].
      intros d [<- | Hd]; [lia |]. specialize (Hleast d Hd). lia.
    + exists m. split; [now right |].
      intros d [<- | Hd]; [lia | auto].
Qed.

Section Convergence.
Context {Rng : Type} {G : Generator Rng}.
Variables (vault_secrets : Secrets) (static_secrets : StaticSecrets)
  (regenerate : bool).
Variables (secrets : list Secret) (rank : Secret -> nat) (N : nat).
Hypothesis Hacyclic : acyclic rank N secrets.
Hypothesis Hprovided : forall d, In d secrets -> provided vault_secrets static_secrets d.
Hypothesis Hproductive : productive G.

(** A declaration whose references are all in the table resolves. *)
Lemma resolve_secret_ready (d : Secret) (T : Secrets) (rng : Rng) :
  In d secrets ->
  (forall p, In p (references d) -> has T p) ->
  truthy (fst (_resolve_secret d T (current_value_of vault_secrets d)
                 (static_value_of static_secrets d) regenerate rng)) = true.
Proof.
  intros Hd Hrefs. pose proof (Hprovided d Hd) as Hleaf.
  destruct Hproductive as [Hsimple Hsource].
  unfold provided in Hleaf. unfold references in Hrefs.
  unfold _resolve_secret.
  destruct (truthy (value d)) eqn:Hv; [exact Hv |].
  destruct (copy_rules d) as [rules |].
  - assert (Hsrc : has T (copy_application rules, copy_key rules)).
    { apply Hrefs. simpl. auto. }
    unfold has in Hsrc. simpl in Hsrc. now rewrite Hsrc.
  - destruct (generate d) as [rules |].
    + destruct (truthy (current_value_of vault_secrets d) && negb regenerate)
        eqn:Hkeep.
      * simpl. now apply andb_true_iff in Hkeep.
      * destruct rules as [ty | ty src].
        -- specialize (Hsimple ty rng).
           now destruct (generate_simple ty rng).
        -- assert (Hsrc : has T (application d, src)).
           { apply Hrefs. simpl. auto. }
           unfold has in Hsrc. simpl in Hsrc.
           destruct (lookup T (application d) src) as [other |]; [| discriminate].
           simpl in Hsrc. rewrite Hsrc.
           specialize (Hsource ty src other rng).
           now destruct (generate_from_source ty src other rng).
    + simpl. destruct (truthy (static_value_of static_secrets d)) eqn:Hst;
        [exact Hst |].
      destruct Hleaf as [Hs | Hcur]; auto. congruence.
Qed.

(** Such a declaration is not pending after a pass. *)
Lemma resolve_pass_resolves_ready (P : list Secret) (T : Secrets) (rng : Rng)
    T' rng' P' (d : Secret) :
  resolve_pass vault_secrets static_secrets regenerate P T rng = (T', rng', P') ->
  In d secrets ->
  (forall p, In p (references d) -> has T p) ->
  ~ In d P'.
Proof.
  intros Hpass Hd Hrefs Hin.
  destruct (resolve_pass_failed _ _ _ _ _ _ _ _ _ Hpass d Hin)
    as (T1 & rng1 & Hmono & Hfail).
  rewrite resolve_secret_ready in Hfail; [discriminate | assumption |].
  intros p Hp. apply Hmono. now apply Hrefs.
Qed.

(** What a declaration refers to is in the table as soon as nothing pending
    ranks below the declaration. *)
Lemma references_settled (T : Secrets) (P : list Secret) (d : Secret) :
  settled secrets T P -> In d secrets ->
  (forall d', In d' P -> rank d <= rank d') ->
  forall p, In p (references d) -> has T p.
Proof.
  intros Hsettled Hd Hleast p Hp.
  destruct (Hacyclic d Hd) as [_ Hrefs].
  destruct (Hrefs p Hp) as (d' & Hd' & <- & Hlt).
  destruct (Hsettled d' Hd') as [Hin | Hhas]; [| exact Hhas].
  specialize (Hleast d' Hin). lia.
Qed.

(** After [i] passes the pending declarations rank [i] or more, so [N]
    passes resolve everything. *)
Lemma resolve_loop_converges :
  forall fuel i T rng P,
    incl P secrets -> settled secrets T P ->
    (forall d, In d P -> i <= rank d) ->
    N <= i + fuel ->
    exists T' rng',
      resolve_loop vault_secrets static_secrets regenerate fuel T rng P (length P)
        = Resolved (T', rng')
      /\ settled secrets T' [].
Proof.
  induction fuel as [| fuel IH]; intros i T rng P Hincl Hsettled Hrank Hfuel.
  - destruct P as [| c rest]; [now exists T, rng |].
    assert (Hc : In c secrets) by (apply Hincl; now left).
    destruct (Hacyclic c Hc) as [Hlt _].
    assert (i <= rank c) by (apply Hrank; now left). lia.
  - destruct P as [| c rest]; [now exists T, rng |].
    rewrite resolve_loop_step.
    destruct (resolve_pass vault_secrets static_secrets regenerate (c :: rest) T rng)
      as [[T' rng'] P'] eqn:Hpass.
    assert (Hincl' : incl P' secrets).
    { intros x Hx. apply Hincl. eapply resolve_pass_incl; eassumption. }
    assert (Hsettled' : settled secrets T' P').
    { apply (resolve_pass_invariant vault_secrets static_secrets regenerate
               (settled secrets)) with (Q := []) (P := c :: rest) (T := T)
               (rng := rng) (rng' := rng'); auto.
      intros T0 Q c0 rest0 rng0 s HJ _ Hs. now apply settled_assign. }
    assert (Hrank' : forall d, In d P' -> S i <= rank d).
    { intros d Hd.
      assert (HdP : In d (c :: rest)) by (eapply resolve_pass_incl; eassumption).
      pose proof (Hrank d HdP) as Hle.
      destruct (Nat.eq_dec (rank d) i) as [Heq | Hne]; [| lia].
      exfalso.
      apply (resolve_pass_resolves_ready _ _ _ _ _ _ d Hpass); auto.
      apply references_settled with (P := c :: rest); auto.
      intros d' Hd'. specialize (Hrank d' Hd'). lia. }
    destruct (Nat.leb_spec (length (c :: rest)) (length P')) as [Hstall | Hprogress].
    + exfalso.
      destruct (exists_least_rank rank (c :: rest)) as (m & Hm & Hleast);
        [discriminate |].
      apply (resolve_pass_resolves_ready _ _ _ _ _ _ m Hpass); auto.
      * apply references_settled with (P := c :: rest); auto.
      * destruct (resolve_pass_length _ _ _ _ _ _ _ _ _ Hpass) as [_ Hsame].
        destruct (Hsame Hstall) as [-> _]. exact Hm.
    + apply (IH (S i)); auto. lia.
Qed.

End Convergence.

Section ResolutionFacts.
Context {Rng : Type} {G : Generator Rng}.

(** C10: a copy rule reads the table of secrets resolved in this run and
    nothing else. When the pair a copy rule refers to has no declaration of
    its own, [_resolve_secrets] raises [UnresolvedSecretsError], with the
    copying declaration among those it carries, whatever Vault and the
    static secrets hold for that pair. *)
Theorem copy_of_undeclared_secret_raises (secrets : list Secret)
    (vault_secrets : Secrets) (static_secrets : option StaticSecrets)
    (regenerate : bool) (rng : Rng) (d : Secret) (rules : SecretCopyRules) :
  In d secrets ->
  truthy (value d) = false ->
  copy_rules d = Some rules ->
  (forall d', In d' secrets ->
     secret_id d' <> (copy_application rules, copy_key rules)) ->
  exists unresolved,
    _resolve_secrets secrets vault_secrets static_secrets regenerate rng
      = UnresolvedSecretsError unresolved
    /\ In d unresolved.
Proof.
  intros Hd Hv Hc Hundeclared.
  pose (J := fun (T : Secrets) (X : list Secret) =>
               In d X /\ incl X secrets
               /\ forall a k v, lookup T a k = Some v ->
                    exists d', In d' secrets /\ secret_id d' = (a, k)).
  pose proof (resolve_secrets_invariant secrets vault_secrets static_secrets
                regenerate J rng) as Hinv.
  assert (Hstep : forall T Q c rest rng0 s,
             J T (Q ++ c :: rest) ->
             fst (_resolve_secret c T (current_value_of vault_secrets c)
                    (static_value_of (statics_or_empty static_secrets) c)
                    regenerate rng0) = Some s ->
             secret_truthy s = true ->
             J (assign T (application c) (key c) s) (Q ++ rest)).
  { intros T Q c rest rng0 s (Hin & Hincl & Htable) Hs _.
    apply In_app_middle in Hin. destruct Hin as [-> | Hin].
    - apply (resolve_secret_copy _ _ _ _ _ _ rules s Hv Hc) in Hs.
      destruct (Htable _ _ _ Hs) as (d' & Hd' & Hid).
      now destruct (Hundeclared d' Hd').
    - split; [exact Hin | split].
      + intros x Hx. apply Hincl. now apply In_app_skip.
      + intros a k v Hlook. apply lookup_assign_Some in Hlook.
        destruct Hlook as [Heq | Hold]; [| eauto].
        exists c. split; [| now rewrite Heq].
        apply Hincl. rewrite in_app_iff. simpl. auto. }
  assert (Hstart : J [] secrets).
  { split; [exact Hd | split; [apply incl_refl | discriminate]]. }
  specialize (Hinv Hstep Hstart).
  destruct (_resolve_secrets secrets vault_secrets static_secrets regenerate rng)
    as [[R rng'] | l |].
  - destruct Hinv as [[] _].
  - exists l. split; [reflexivity |]. now destruct Hinv as (T & Hin & _).
  - destruct Hinv.
Qed.




(** C9: when [_resolve_secrets] returns for declarations about distinct
    pairs, a declaration resolved by its copy rule has the very value of the
    pair the rule names. *)
Theorem copy_fidelity (secrets : list Secret) (vault_secrets : Secrets)
    (static_secrets : option StaticSecrets) (regenerate : bool) (rng : Rng)
    (R : ResolvedSecrets) (rng' : Rng) :
  NoDup (map secret_id secrets) ->
  _resolve_secrets secrets vault_secrets static_secrets regenerate rng
    = Resolved (R, rng') ->
  forall d rules,
    In d secrets -> truthy (value d) = false -> copy_rules d = Some rules ->
    exists v,
      lookup (applications R) (application d) (key d) = Some v
      /\ lookup (applications R) (copy_application rules) (copy_key rules) = Some v.
Proof.
  intros Hnd Hres.
  pose (J := fun (T : Secrets) (X : list Secret) =>
               origin secrets T X
               /\ forall d rules,
                    In d secrets -> ~ In d X ->
                    truthy (value d) = false -> copy_rules d = Some rules ->
                    exists v,
                      lookup T (application d) (key d) = Some v
                      /\ lookup T (copy_application rules) (copy_key rules) = Some v).
  pose proof (resolve_secrets_invariant secrets vault_secrets static_secrets
                regenerate J rng) as Hinv.
  rewrite Hres in Hinv.
  intros d rules Hd Hv Hc.
  destruct Hinv as [_ Hcopies]; [| | now apply Hcopies].
  - intros T Q c rest rng0 s [Horigin Hcopies] Hs _.
    split; [now apply origin_assign |].
    assert (HcX : In c (Q ++ c :: rest)).
    { rewrite in_app_iff. simpl. auto. }
    assert (Hcin : In c secrets) by now apply Horigin.
    intros d0 rules0 Hd0 Hnot Hv0 Hc0.
    destruct (string_dec (application d0) (application c)) as [Happ | Happ];
      [destruct (string_dec (key d0) (key c)) as [Hkey | Hkey] |].
    + assert (d0 = c) as ->.
      { apply (NoDup_map_injective secret_id secrets Hnd); auto.
        unfold secret_id. congruence. }
      apply (resolve_secret_copy _ _ _ _ _ _ rules0 s Hv0 Hc0) in Hs.
      exists s. split; [apply DictFacts.lookup_assign_same |].
      rewrite DictFacts.lookup_assign_other; [exact Hs |].
      intros Heq.
      now apply (origin_pending_fresh secrets T _ c _ _ s Hnd Horigin HcX Hs).
    + destruct (Hcopies d0 rules0) as (v & Hval & Hsrc); auto.
      { intros Hin. apply In_app_middle in Hin.
        destruct Hin as [-> | Hin]; [congruence | contradiction]. }
      exists v. split.
      * rewrite DictFacts.lookup_assign_other by congruence. exact Hval.
      * rewrite DictFacts.lookup_assign_other; [exact Hsrc |].
        intros Heq.
        now apply (origin_pending_fresh secrets T _ c _ _ v Hnd Horigin HcX Hsrc).
    + destruct (Hcopies d0 rules0) as (v & Hval & Hsrc); auto.
      { intros Hin. apply In_app_middle in Hin.
        destruct Hin as [-> | Hin]; [congruence | contradiction]. }
      exists v. split.
      * rewrite DictFacts.lookup_assign_other by congruence. exact Hval.
      * rewrite DictFacts.lookup_assign_other; [exact Hsrc |].
        intros Heq.
        now apply (origin_pending_fresh secrets T _ c _ _ v Hnd Horigin HcX Hsrc).
  - split; [now apply origin_start |].
    intros d0 rules0 Hd0 Hnot. contradiction.
Qed.

(** C2 (as amended): declarations whose copy and from-source references
    form a DAG over the declared pairs, whose rule-less declarations find a
    static or current value and whose generator yields non-empty values, are
    resolved in at most [N] passes, [N] bounding the longest chain of
    references: [_resolve_secrets] returns a table with a value for every
    declaration and nothing but the declared pairs, each once; when the
    declarations are about distinct pairs it has as many entries as there
    are declarations. *)
Theorem resolution_converges (secrets : list Secret) (vault_secrets : Secrets)
    (static_secrets : option StaticSecrets) (regenerate : bool) (rng : Rng)
    (rank : Secret -> nat) (N : nat) :
  acyclic rank N secrets ->
  (forall d, In d secrets ->
     provided vault_secrets (statics_or_empty static_secrets) d) ->
  productive G ->
  exists R rng',
    resolve_secrets_fuel N secrets vault_secrets static_secrets regenerate rng
      = Resolved (R, rng')
    /\ _resolve_secrets secrets vault_secrets static_secrets regenerate rng
       = Resolved (R, rng')
    /\ (forall d, In d secrets ->
          exists v, lookup (applications R) (application d) (key d) = Some v
                    /\ secret_truthy v = true)
    /\ (forall a k v, lookup (applications R) a k = Some v ->
          exists d, In d secrets /\ secret_id d = (a, k))
    /\ NoDup (entries (applications R))
    /\ (NoDup (map secret_id secrets) ->
        length (entries (applications R)) = length secrets).
Proof.
  intros Hacyclic Hprovided Hproductive.
  destruct (resolve_loop_converges vault_secrets (statics_or_empty static_secrets)
              regenerate secrets rank N Hacyclic Hprovided Hproductive
              N 0 [] rng secrets)
    as (T & rng' & Hloop & _).
  { apply incl_refl. }
  { intros d Hd. now left. }
  { intros d _. lia. }
  { lia. }
  set (R := mkResolved T (static_pull_secret (statics_or_empty static_secrets))).
  assert (HfuelN :
            resolve_secrets_fuel N secrets vault_secrets static_secrets
              regenerate rng = Resolved (R, rng')).
  { rewrite resolve_secrets_fuel_loop, Hloop. reflexivity. }
  assert (Hres :
            _resolve_secrets secrets vault_secrets static_secrets regenerate rng
            = Resolved (R, rng')).
  { pose proof (resolve_secrets_total secrets vault_secrets static_secrets
                  regenerate rng) as Htotal.
    unfold _resolve_secrets in *. rewrite resolve_secrets_fuel_loop in *.
    rewrite (resolve_loop_fuel_irrelevant _ _ _ (length secrets) N).
    - now rewrite Hloop.
    - intros Hout. apply Htotal. now rewrite Hout.
    - rewrite Hloop. discriminate. }
  pose proof (resolve_secrets_complete _ _ _ _ _ _ _ Hres) as Hcomplete.
  pose proof (resolve_secrets_declared _ _ _ _ _ _ _ Hres) as Hdeclared.
  pose proof (resolve_secrets_wf _ _ _ _ _ _ _ Hres) as Hwf.
  assert (Hvalues : forall d, In d secrets ->
            exists v, lookup (applications R) (application d) (key d) = Some v
                      /\ secret_truthy v = true).
  { intros d Hd. pose proof (Hcomplete d Hd) as Hhas.
    unfold has, secret_id, truthy in Hhas. cbn [fst snd] in Hhas.
    destruct (lookup (applications R) (application d) (key d)) as [v |];
      [eauto | discriminate]. }
  exists R, rng'. repeat split; auto.
  - now apply DictFacts.NoDup_entries.
  - intros Hnd.
    rewrite <- (length_map secret_id secrets). apply Nat.le_antisymm.
    + apply NoDup_incl_length; [now apply DictFacts.NoDup_entries |].
      intros [a k] Hin. apply DictFacts.entries_lookup in Hin; [| apply Hwf].
      destruct (lookup (applications R) a k) as [v |] eqn:Hlook; [| congruence].
      destruct (Hdeclared a k v Hlook) as (d & Hd & <-). now apply in_map.
    + apply NoDup_incl_length; [exact Hnd |].
      intros id Hin. apply in_map_iff in Hin. destruct Hin as (d & <- & Hd).
      apply DictFacts.entries_lookup; [apply Hwf |].
      destruct (Hvalues d Hd) as (v & Hlook & _). unfold secret_id. congruence.
Qed.

End ResolutionFacts.

(** ** Audit classification *)

Lemma entry_eqb_spec (e e' : Entry) : reflect (e = e') (entry_eqb e e').
Proof.
  destruct e as [a k], e' as [a' k']. unfold entry_eqb. simpl.
  destruct (String.eqb_spec a a') as [-> | Ha];
    [destruct (String.eqb_spec k k') as [-> | Hk] |]; simpl;
    constructor; congruence.
Qed.

Lemma items_cons (a : string) (d : Dict.t SecretStr) (T : Secrets) :
  items ((a, d) :: T) = map (fun kv => ((a, fst kv), snd kv)) d ++ items T.
Proof. reflexivity. Qed.

Lemma entries_cons (a : string) (d : Dict.t SecretStr) (T : Secrets) :
  entries ((a, d) :: T) = map (fun kv => (a, fst kv)) d ++ entries T.
Proof. reflexivity. Qed.

Lemma audit_fold_items (T : Secrets) :
  forall st, fold_left audit_application T st = fold_left audit_item (items T) st.
Proof.
  induction T as [| [a d] T IH]; intros st; [reflexivity |].
  rewrite items_cons, fold_left_app, <- IH. cbn [fold_left]. f_equal.
  unfold audit_application. cbn [fst snd]. clear IH. revert st.
  induction d as [| [k s] d IHd]; intros st; [reflexivity |].
  cbn [fold_left map]. now rewrite IHd.
Qed.

Lemma items_entries (T : Secrets) : map fst (items T) = entries T.
Proof.
  induction T as [| [a d] T IH]; [reflexivity |].
  rewrite items_cons, entries_cons, map_app.
  f_equal; [now rewrite map_map | exact IH].
Qed.

Lemma items_lookup (T : Secrets) (e : Entry) (s : SecretStr) :
  wf_secrets T -> In (e, s) (items T) ->
  lookup T (fst e) (snd e) = Some s.
Proof.
  intros [Houter Hinner] Hin. unfold items in Hin. apply in_flat_map in Hin.
  destruct Hin as ([a d] & Had & Hin). simpl in Hin.
  apply in_map_iff in Hin. destruct Hin as ([k v] & [= <- <-] & Hkv). simpl.
  unfold lookup, Dict.get_default.
  rewrite (DictFacts.In_get T a d Houter Had).
  apply DictFacts.In_get; [now apply (Hinner a) | exact Hkv].
Qed.

(** Consuming a pair of the snapshot leaves the other pairs alone and
    removes this one from the entries, in place. *)
Lemma lookup_consume_other (W : Secrets) (a k a' k' : string) :
  (a', k') <> (a, k) -> lookup (consume W a k) a' k' = lookup W a' k'.
Proof.
  intros Hne. unfold lookup, consume, Dict.get_default.
  destruct (String.eqb_spec a' a) as [-> | Ha].
  - rewrite DictFacts.get_set_same. apply DictFacts.get_del_other. congruence.
  - now rewrite DictFacts.get_set_other.
Qed.

Lemma wf_secrets_consume (W : Secrets) (a k : string) :
  wf_secrets W -> wf_secrets (consume W a k).
Proof.
  intros HW. apply DictFacts.wf_secrets_set; [exact HW |].
  apply DictFacts.wf_del. now apply DictFacts.wf_get_default.
Qed.

Lemma filter_app_free (a : string) (p : Entry -> bool) (T : Secrets) :
  ~ In a (Dict.keys T) ->
  (forall e, fst e <> a -> p e = true) ->
  filter p (entries T) = entries T.
Proof.
  intros Hnotin Hp. apply forallb_filter_id. apply forallb_forall.
  intros [a' k'] Hin. apply Hp. simpl. intros ->.
  apply DictFacts.In_entries in Hin. destruct Hin as (d & Hin & _).
  apply Hnotin. now apply (in_map fst) in Hin.
Qed.

Lemma entries_consume (W : Secrets) (a k : string) (d : Dict.t SecretStr) :
  wf_secrets W -> Dict.get W a = Some d ->
  entries (Dict.set W a (Dict.del d k))
  = filter (fun e => negb (entry_eqb e (a, k))) (entries W).
Proof.
  induction W as [| [a0 d0] W IH]; intros [Houter Hinner] Hget; [discriminate |].
  unfold Dict.wf in Houter. simpl in Houter.
  inversion Houter as [| ? ? Hnotin Houter']; subst.
  simpl in Hget. simpl Dict.set.
  rewrite entries_cons, filter_app.
  destruct (String.eqb_spec a a0) as [-> | Hne].
  - injection Hget as ->.
    rewrite entries_cons. f_equal.
    + rewrite DictFacts.del_filter by (apply (Hinner a0); now left).
      clear. induction d as [| [k0 v0] d IHd]; [reflexivity |].
      simpl. unfold entry_eqb at 1. simpl. rewrite String.eqb_refl. simpl.
      destruct (String.eqb k0 k); simpl; now rewrite IHd.
    + symmetry. apply (filter_app_free a0); [exact Hnotin |].
      intros e He.
      destruct (entry_eqb_spec e (a0, k)) as [-> | _];
        [exfalso; now apply He | reflexivity].
  - rewrite entries_cons. f_equal.
    + symmetry. apply forallb_filter_id. apply forallb_forall.
      intros e Hin. apply in_map_iff in Hin. destruct Hin as (kv & <- & _).
      destruct (entry_eqb_spec (a0, fst kv) (a, k)) as [[= Heq _] | _];
        [congruence | reflexivity].
    + apply IH; [| exact Hget]. split; [exact Houter' |].
      intros a' d' Hin. apply (Hinner a'). now right.
Qed.

Lemma audit_item_missing (st : AuditState) (a k : string) (s : SecretStr) :
  lookup (audit_vault st) a k = None ->
  audit_item st ((a, k) : Entry, s)
  = mkAudit (audit_vault st) (audit_missing st ++ [(a, k)]) (audit_mismatch st).
Proof.
  intros Hlook. unfold audit_item, audit_secret, Dict.mem. cbn [fst snd].
  unfold lookup in Hlook. now rewrite Hlook.
Qed.

Lemma audit_item_present (st : AuditState) (a k : string) (s v : SecretStr) :
  lookup (audit_vault st) a k = Some v ->
  audit_item st ((a, k) : Entry, s)
  = mkAudit (consume (audit_vault st) a k) (audit_missing st)
      (if negb (String.eqb s v) then audit_mismatch st ++ [(a, k)]
       else audit_mismatch st).
Proof.
  intros Hlook. unfold audit_item, audit_secret, Dict.mem. cbn [fst snd].
  rewrite Hlook. unfold lookup in Hlook. now rewrite Hlook.
Qed.

Lemma filter_filter_and {A : Type} (f g : A -> bool) (l : list A) :
  filter f (filter g l) = filter (fun x => g x && f x) l.
Proof.
  induction l as [| x l IH]; [reflexivity |]. simpl.
  destruct (g x); simpl; [destruct (f x) |]; now rewrite IH.
Qed.

Lemma lookup_Some_get (W : Secrets) (a k : string) (v : SecretStr) :
  lookup W a k = Some v ->
  exists d, Dict.get W a = Some d /\ Dict.get_default W a [] = d.
Proof.
  unfold lookup, Dict.get_default.
  destruct (Dict.get W a) as [d |]; [eauto | discriminate].
Qed.

(** The audit loop over a list of secrets about distinct pairs: what it
    adds to the two lists, and what it leaves of the snapshot. *)
Lemma audit_items_spec (L : list (Entry * SecretStr)) :
  forall st,
    wf_secrets (audit_vault st) ->
    NoDup (map fst L) ->
    let W := audit_vault st in
    let st' := fold_left audit_item L st in
    audit_missing st' = audit_missing st ++ map fst (filter (item_missing W) L)
    /\ audit_mismatch st'
       = audit_mismatch st ++ map fst (filter (item_mismatch W) L)
    /\ entries (audit_vault st')
       = filter (fun e => negb (existsb (entry_eqb e) (map fst L))) (entries W).
Proof.
  induction L as [| [[a k] s] L IH]; intros st Hwf Hnd; cbv zeta.
  - simpl. rewrite !app_nil_r. repeat split.
    symmetry. apply forallb_filter_id. now apply forallb_forall.
  - cbn [map fst] in Hnd. inversion Hnd as [| ? ? Hfresh Hnd']; subst.
    assert (Hother : forall it, In it L -> fst it <> (a, k)).
    { intros it Hin Heq. apply Hfresh. rewrite <- Heq. now apply in_map. }
    cbn [fold_left].
    destruct (lookup (audit_vault st) a k) as [v |] eqn:Hlook.
    + rewrite (audit_item_present st a k s v Hlook).
      set (st1 := mkAudit _ _ _).
      destruct (IH st1) as (Hmissing & Hmismatch & Hentries);
        [now apply wf_secrets_consume | exact Hnd' |].
      rewrite Hmissing, Hmismatch, Hentries. subst st1. cbn [audit_vault
        audit_missing audit_mismatch].
      assert (Hsame : forall it, In it L ->
                lookup (consume (audit_vault st) a k) (fst (fst it)) (snd (fst it))
                = lookup (audit_vault st) (fst (fst it)) (snd (fst it))).
      { intros it Hin. apply lookup_consume_other.
        rewrite <- surjective_pairing. now apply Hother. }
      repeat split.
      * cbn [filter]. unfold item_missing at 2. cbn [fst snd]. rewrite Hlook.
        f_equal. f_equal. apply filter_ext_in. intros it Hin.
        unfold item_missing. now rewrite Hsame.
      * cbn [filter]. unfold item_mismatch at 2. cbn [fst snd]. rewrite Hlook.
        rewrite (filter_ext_in (item_mismatch (consume (audit_vault st) a k))
                   (item_mismatch (audit_vault st)) L).
        -- destruct (negb (String.eqb s v)); [| reflexivity].
           cbn [map fst]. now rewrite <- app_assoc.
        -- intros it Hin. unfold item_mismatch. now rewrite Hsame.
      * destruct (lookup_Some_get _ _ _ _ Hlook) as (d & Hget & Hdefault).
        unfold consume. rewrite Hdefault.
        rewrite (entries_consume _ _ _ d Hwf Hget), filter_filter_and.
        apply filter_ext. intros e. cbn [map fst existsb].
        now rewrite negb_orb.
    + rewrite (audit_item_missing st a k s Hlook).
      set (st1 := mkAudit _ _ _).
      destruct (IH st1) as (Hmissing & Hmismatch & Hentries);
        [exact Hwf | exact Hnd' |].
      rewrite Hmissing, Hmismatch, Hentries. subst st1. cbn [audit_vault
        audit_missing audit_mismatch].
      repeat split.
      * cbn [filter]. unfold item_missing at 2. cbn [fst snd]. rewrite Hlook.
        cbn [map fst]. now rewrite <- app_assoc.
      * cbn [filter]. unfold item_mismatch at 2. cbn [fst snd].
        now rewrite Hlook.
      * apply filter_ext_in. intros e Hin. cbn [map fst existsb].
        destruct (entry_eqb_spec e (a, k)) as [-> | _]; [| reflexivity].
        apply DictFacts.entries_lookup in Hin; [congruence | apply Hwf].
Qed.

Lemma classified_iff (c : Classification) (R V : Secrets) (e : Entry) :
  classified c R V e = true <-> classify R V e = Some c.
Proof.
  unfold classified. destruct (classify R V e) as [c' |].
  - destruct c, c'; simpl; split; congruence.
  - split; discriminate.
Qed.

Lemma map_fst_filter {A B : Type} (p : A * B -> bool) (q : A -> bool)
    (L : list (A * B)) :
  (forall it, In it L -> p it = q (fst it)) ->
  map fst (filter p L) = filter q (map fst L).
Proof.
  induction L as [| it L IH]; intros Hpq; [reflexivity |]. simpl.
  rewrite <- (Hpq it) by now left.
  destruct (p it); simpl; rewrite IH; auto; intros; apply Hpq; now right.
Qed.

Lemma existsb_entry (e : Entry) (l : list Entry) :
  existsb (entry_eqb e) l = true <-> In e l.
Proof.
  rewrite existsb_exists. split.
  - intros (e' & Hin & Heq). now destruct (entry_eqb_spec e e') as [-> | _].
  - intros Hin. exists e. split; [exact Hin |].
    now destruct (entry_eqb_spec e e).
Qed.

Section AuditFacts.
Variables (resolved : ResolvedSecrets) (V : Secrets).
Hypothesis Hresolved : wf_secrets (applications resolved).
Hypothesis Hvault : wf_secrets V.

Let R := applications resolved.

Lemma classify_resolved (e : Entry) :
  In e (entries R) <-> lookup R (fst e) (snd e) <> None.
Proof.
  destruct e as [a k]. apply DictFacts.entries_lookup. apply Hresolved.
Qed.

Lemma classify_vault (e : Entry) :
  In e (entries V) <-> lookup V (fst e) (snd e) <> None.
Proof.
  destruct e as [a k]. apply DictFacts.entries_lookup. apply Hvault.
Qed.

(** The lists of the audit are the resolved pairs, respectively the pairs
    of the snapshot, that the classification puts in each group, in the
    order of the dictionaries. *)
Lemma audit_compare_filters :
  let f := audit_compare resolved V in
  missing f = filter (classified Missing R V) (entries R)
  /\ mismatch f = filter (classified Mismatch R V) (entries R)
  /\ unknown f = filter (classified Unknown R V) (entries V).
Proof.
  cbv zeta. unfold audit_compare. cbn [missing mismatch unknown].
  rewrite audit_fold_items.
  destruct (audit_items_spec (items (applications resolved)) (mkAudit V [] []))
    as (Hmissing & Hmismatch & Hentries).
  { exact Hvault. }
  { rewrite items_entries. now apply DictFacts.NoDup_entries. }
  rewrite Hmissing, Hmismatch, Hentries. cbn [audit_vault audit_missing
    audit_mismatch app].
  assert (Hitem : forall it, In it (items R) ->
            lookup R (fst (fst it)) (snd (fst it)) = Some (snd it)).
  { intros [e s] Hin. now apply items_lookup. }
  repeat split.
  - rewrite <- items_entries. apply map_fst_filter. intros it Hin.
    unfold item_missing, classified, classify. rewrite (Hitem it Hin).
    destruct (lookup V (fst (fst it)) (snd (fst it))) as [v |]; [| reflexivity].
    now destruct (String.eqb (snd it) v).
  - rewrite <- items_entries. apply map_fst_filter. intros it Hin.
    unfold item_mismatch, classified, classify. rewrite (Hitem it Hin).
    destruct (lookup V (fst (fst it)) (snd (fst it))) as [v |]; [| reflexivity].
    now destruct (String.eqb (snd it) v).
  - rewrite items_entries. apply filter_ext_in. intros e Hin.
    apply classify_vault in Hin. unfold classified, classify.
    destruct (lookup V (fst e) (snd e)) as [v |]; [| congruence].
    destruct (existsb (entry_eqb e) (entries (applications resolved))) eqn:Hex.
    + apply existsb_entry, classify_resolved in Hex. fold R in Hex |- *.
      destruct (lookup R (fst e) (snd e)) as [r |]; [| congruence].
      now destruct (String.eqb r v).
    + destruct (lookup R (fst e) (snd e)) as [r |] eqn:Hr; [| reflexivity].
      assert (Hin' : In e (entries R)) by (apply classify_resolved; congruence).
      apply existsb_entry in Hin'. unfold R in Hin'. congruence.
Qed.

End AuditFacts.

(** The comparison loop puts every pair of the resolved secrets or of the
    snapshot in exactly one class, and keeps the order of discovery. *)
Lemma audit_compare_classification (resolved : ResolvedSecrets)
    (vault_secrets : Secrets) :
  wf_secrets (applications resolved) ->
  wf_secrets vault_secrets ->
  let R := applications resolved in
  let f := audit_compare resolved vault_secrets in
  (forall e, In e (missing f) <-> classify R vault_secrets e = Some Missing)
  /\ (forall e, In e (mismatch f) <-> classify R vault_secrets e = Some Mismatch)
  /\ (forall e, In e (unknown f) <-> classify R vault_secrets e = Some Unknown)
  /\ (forall e, In e (entries R ++ entries vault_secrets) ->
        classify R vault_secrets e <> None
        /\ (classify R vault_secrets e = Some Ok
            <-> ~ In e (missing f ++ mismatch f ++ unknown f)))
  /\ NoDup (missing f ++ mismatch f ++ unknown f)
  /\ missing f = filter (classified Missing R vault_secrets) (entries R)
  /\ mismatch f = filter (classified Mismatch R vault_secrets) (entries R)
  /\ unknown f = filter (classified Unknown R vault_secrets) (entries vault_secrets).
Proof.
  intros Hresolved Hvault R f.
  destruct (audit_compare_filters resolved vault_secrets Hresolved Hvault)
    as (Hmissing & Hmismatch & Hunknown).
  fold R f in Hmissing, Hmismatch, Hunknown.
  assert (HinR : forall e, In e (entries R) <-> lookup R (fst e) (snd e) <> None).
  { intros e. now apply classify_resolved. }
  assert (HinV : forall e, In e (entries vault_secrets)
                           <-> lookup vault_secrets (fst e) (snd e) <> None).
  { intros e. now apply classify_vault. }
  assert (Hm1 : forall e, In e (missing f) <-> classify R vault_secrets e = Some Missing).
  { intros e. rewrite Hmissing, filter_In, classified_iff, HinR.
    unfold classify. destruct (lookup R (fst e) (snd e)) as [r |];
      destruct (lookup vault_secrets (fst e) (snd e)) as [v |];
      try destruct (String.eqb r v); intuition congruence. }
  assert (Hm2 : forall e, In e (mismatch f) <-> classify R vault_secrets e = Some Mismatch).
  { intros e. rewrite Hmismatch, filter_In, classified_iff, HinR.
    unfold classify. destruct (lookup R (fst e) (snd e)) as [r |];
      destruct (lookup vault_secrets (fst e) (snd e)) as [v |];
      try destruct (String.eqb r v); intuition congruence. }
  assert (Hm3 : forall e, In e (unknown f) <-> classify R vault_secrets e = Some Unknown).
  { intros e. rewrite Hunknown, filter_In, classified_iff, HinV.
    unfold classify. destruct (lookup R (fst e) (snd e)) as [r |];
      destruct (lookup vault_secrets (fst e) (snd e)) as [v |];
      try destruct (String.eqb r v); intuition congruence. }
  split; [exact Hm1 | split; [exact Hm2 | split; [exact Hm3 |]]].
  split; [| split; [| repeat split; auto]].
  - intros e Hin. rewrite !in_app_iff, Hm1, Hm2, Hm3.
    rewrite in_app_iff, HinR, HinV in Hin. unfold classify in *.
    destruct (lookup R (fst e) (snd e)) as [r |];
      destruct (lookup vault_secrets (fst e) (snd e)) as [v |];
      try destruct (String.eqb r v); intuition congruence.
  - apply NoDup_app; [| apply NoDup_app |].
    + rewrite Hmissing. apply NoDup_filter.
      now apply DictFacts.NoDup_entries.
    + rewrite Hmismatch. apply NoDup_filter.
      now apply DictFacts.NoDup_entries.
    + rewrite Hunknown. apply NoDup_filter.
      now apply DictFacts.NoDup_entries.
    + intros e H2 H3. apply Hm2 in H2. apply Hm3 in H3. congruence.
    + intros e H1 H23. apply Hm1 in H1. apply in_app_iff in H23.
      destruct H23 as [H2 | H3]; [apply Hm2 in H2 | apply Hm3 in H3]; congruence.
Qed.

Section AuditOfResolution.
Context {Rng : Type} {G : Generator Rng}.

Lemma string_app_assoc (s t u : string) :
  ((s ++ t) ++ u)%string = (s ++ t ++ u)%string.
Proof. induction s as [| c s IH]; simpl; [reflexivity | now rewrite IH]. Qed.

Lemma unlines_app (l l' : list string) :
  unlines (l ++ l') = (unlines l ++ unlines l')%string.
Proof.
  induction l as [| line l IH]; simpl; [reflexivity |].
  now rewrite IH, !string_app_assoc.
Qed.

(** Joining the pairs with a newline and a bullet is listing them one per
    line. *)
Lemma bullets_lines (e : Entry) (l : list Entry) :
  ("• " ++ String.concat bullet (map entry_text (e :: l)) ++ newline)%string
  = unlines (map (fun e => ("• " ++ fst e ++ " " ++ snd e)%string) (e :: l)).
Proof.
  revert e. induction l as [| e' l IH]; intros e.
  - cbn [map String.concat unlines]. unfold entry_text.
    now rewrite !string_app_assoc.
  - change (String.concat bullet (map entry_text (e :: e' :: l)))
      with (entry_text e ++ bullet
            ++ String.concat bullet (map entry_text (e' :: l)))%string.
    change (unlines (map (fun e0 => ("• " ++ fst e0 ++ " " ++ snd e0)%string)
                       (e :: e' :: l)))
      with (("• " ++ fst e ++ " " ++ snd e) ++ newline
            ++ unlines (map (fun e0 => ("• " ++ fst e0 ++ " " ++ snd e0)%string)
                          (e' :: l)))%string.
    rewrite <- IH. unfold entry_text, bullet.
    now rewrite !string_app_assoc.
Qed.

Lemma report_section_lines (heading : string) (l : list Entry) :
  report_section heading l = unlines (group_lines heading l).
Proof.
  destruct l as [| e l]; [reflexivity |].
  unfold report_section, group_lines. cbn [unlines].
  rewrite <- bullets_lines. unfold bullet.
  now rewrite !string_app_assoc.
Qed.

Lemma audit_report_listed (f : AuditFindings) :
  audit_report f = listed_report (missing f) (mismatch f) (unknown f).
Proof.
  unfold audit_report, listed_report.
  now rewrite !unlines_app, !report_section_lines.
Qed.

(** C4: for well-formed dictionaries, [audit] puts every pair of the
    resolved secrets or of the snapshot in exactly one class: [missing]
    holds the resolved pairs absent from the snapshot, [mismatch] those
    present with another value, [unknown] the pairs of the snapshot that are
    not resolved, and a pair in none of the lists is present and equal. The
    three lists share no pair and repeat none; each keeps the order of the
    dictionary it was discovered in (the resolved secrets for missing and
    mismatch, the snapshot for unknown). The text of the report is the
    listing of the groups in the order missing, mismatch, unknown, each
    group that is not empty under its heading with one line per pair, and
    it is what [audit] returns whenever its resolution returns these
    resolved secrets; when the resolution raises, so does [audit]. *)
Theorem audit_classification (resolved : ResolvedSecrets) (vault_secrets : Secrets) :
  wf_secrets (applications resolved) ->
  wf_secrets vault_secrets ->
  let R := applications resolved in
  let f := audit_compare resolved vault_secrets in
  let listed :=
    listed_report
      (filter (classified Missing R vault_secrets) (entries R))
      (filter (classified Mismatch R vault_secrets) (entries R))
      (filter (classified Unknown R vault_secrets) (entries vault_secrets)) in
  (forall e, In e (missing f) <-> classify R vault_secrets e = Some Missing)
  /\ (forall e, In e (mismatch f) <-> classify R vault_secrets e = Some Mismatch)
  /\ (forall e, In e (unknown f) <-> classify R vault_secrets e = Some Unknown)
  /\ (forall e, In e (entries R ++ entries vault_secrets) ->
        classify R vault_secrets e <> None
        /\ (classify R vault_secrets e = Some Ok
            <-> ~ In e (missing f ++ mismatch f ++ unknown f)))
  /\ NoDup (missing f ++ mismatch f ++ unknown f)
  /\ missing f = filter (classified Missing R vault_secrets) (entries R)
  /\ mismatch f = filter (classified Mismatch R vault_secrets) (entries R)
  /\ unknown f = filter (classified Unknown R vault_secrets) (entries vault_secrets)
  /\ audit_report f = listed
  /\ (forall secrets onepassword static_secrets (rng rng' : Rng),
        _resolve_secrets secrets vault_secrets
          (match static_secrets with Some s => Some s | None => onepassword end)
          false rng = Resolved (resolved, rng') ->
        audit secrets onepassword vault_secrets static_secrets rng
        = Resolved listed)
  /\ (forall secrets onepassword static_secrets (rng : Rng) unresolved,
        _resolve_secrets secrets vault_secrets
          (match static_secrets with Some s => Some s | None => onepassword end)
          false rng = UnresolvedSecretsError unresolved ->
        audit secrets onepassword vault_secrets static_secrets rng
        = UnresolvedSecretsError unresolved).
Proof.
  intros Hresolved Hvault R f listed.
  destruct (audit_compare_classification resolved vault_secrets Hresolved Hvault)
    as (Hm1 & Hm2 & Hm3 & Hunion & Hnodup & Hmissing & Hmismatch & Hunknown).
  fold R f in Hm1, Hm2, Hm3, Hunion, Hnodup, Hmissing, Hmismatch, Hunknown.
  assert (Hreport : audit_report f = listed).
  { rewrite audit_report_listed. unfold listed.
    now rewrite Hmissing, Hmismatch, Hunknown. }
  repeat (split; [assumption |]). split.
  - intros secrets onepassword static_secrets rng rng' Hres.
    unfold audit. rewrite Hres. f_equal. exact Hreport.
  - intros secrets onepassword static_secrets rng unresolved Hres.
    unfold audit. now rewrite Hres.
Qed.

End AuditOfResolution.

(** ** Sync *)

(** A dictionary equals a one-key dictionary exactly when it is that
    dictionary. *)
Lemma eqb_singleton (k : string) (v : SecretStr) (d : Dict.t SecretStr) :
  Dict.eqb String.eqb [(k, v)] d = true <-> d = [(k, v)].
Proof.
  unfold Dict.eqb. simpl. split.
  - intros H. apply andb_true_iff in H. destruct H as [Hlen Hall].
    destruct d as [| [k' v'] [| kv d]]; try discriminate. simpl in Hall.
    destruct (String.eqb_spec k k') as [<- | _]; [| discriminate].
    rewrite andb_true_r in Hall. apply String.eqb_eq in Hall. congruence.
  - intros ->. simpl. now rewrite !String.eqb_refl.
Qed.

Lemma vault_apply_keeps (store : Secrets) (c : VaultCall) (app : string) :
  c <> delete_application_secret app ->
  Dict.mem store app = true -> Dict.mem (vault_apply store c) app = true.
Proof.
  intros Hc Hmem. apply DictFacts.mem_true_keys in Hmem.
  apply DictFacts.mem_true_keys.
  destruct c as [a values | a k s | a]; simpl.
  - apply DictFacts.In_keys_set. auto.
  - apply DictFacts.In_keys_set. auto.
  - apply DictFacts.get_In_keys. rewrite DictFacts.get_del_other by congruence.
    now apply DictFacts.get_In_keys.
Qed.

Lemma vault_run_keeps (calls : list VaultCall) (app : string) :
  forall store,
    ~ In (delete_application_secret app) calls ->
    Dict.mem store app = true -> Dict.mem (vault_run store calls) app = true.
Proof.
  induction calls as [| c calls IH]; intros store Hnot Hmem; [exact Hmem |].
  simpl in *. apply IH; [tauto |].
  apply vault_apply_keeps; [| exact Hmem]. intros ->. tauto.
Qed.

Lemma sync_application_secrets_no_delete (vault_secrets : Secrets)
    (resolved : ResolvedSecrets) (app : string) :
  ~ In (delete_application_secret app)
      (_sync_application_secrets vault_secrets resolved).
Proof.
  unfold _sync_application_secrets. intros Hin. apply in_flat_map in Hin.
  destruct Hin as ([a values] & _ & Hin).
  destruct (negb (Dict.mem vault_secrets a)).
  - destruct Hin as [Heq | []]. discriminate.
  - apply in_flat_map in Hin. destruct Hin as (kv & _ & Hin).
    destruct (secret_neb _ _); [destruct Hin as [Heq | []]; discriminate | destruct Hin].
Qed.

(** With a pull secret expected, cleaning never deletes its entry. *)
Lemma clean_vault_secrets_keeps_pull_secret (vault_secrets : Secrets)
    (resolved : ResolvedSecrets) :
  ~ In (delete_application_secret "pull-secret")
      (_clean_vault_secrets vault_secrets resolved true).
Proof.
  unfold _clean_vault_secrets. intros Hin. apply in_flat_map in Hin.
  destruct Hin as ([a values] & _ & Hin).
  destruct (Dict.get (applications resolved) a) as [expected |].
  - destruct (filter _ _); [destruct Hin |].
    destruct Hin as [Heq | []]. discriminate.
  - destruct (String.eqb_spec a "pull-secret") as [-> | Hne]; simpl in Hin.
    + destruct Hin.
    + destruct Hin as [[= Heq] | []]. congruence.
Qed.

(** A call for another application leaves an entry as it is. *)
Lemma vault_apply_other (store : Secrets) (c : VaultCall) (app : string) :
  call_target c <> app ->
  Dict.get (vault_apply store c) app = Dict.get store app.
Proof.
  intros Hne. destruct c as [a values | a k s | a]; simpl in *.
  - apply DictFacts.get_set_other. congruence.
  - apply DictFacts.get_set_other. congruence.
  - apply DictFacts.get_del_other. congruence.
Qed.

Lemma vault_run_other (calls : list VaultCall) (app : string) :
  forall store,
    (forall c, In c calls -> call_target c <> app) ->
    Dict.get (vault_run store calls) app = Dict.get store app.
Proof.
  induction calls as [| c calls IH]; intros store Hcalls; [reflexivity |].
  simpl. rewrite IH by (intros c' Hc'; apply Hcalls; now right).
  apply vault_apply_other. apply Hcalls. now left.
Qed.

Lemma vault_run_app (store : Secrets) (calls calls' : list VaultCall) :
  vault_run store (calls ++ calls') = vault_run (vault_run store calls) calls'.
Proof. apply fold_left_app. Qed.

(** The application sync only writes to resolved applications. *)
Lemma sync_application_secrets_targets (vault_secrets : Secrets)
    (resolved : ResolvedSecrets) (c : VaultCall) :
  In c (_sync_application_secrets vault_secrets resolved) ->
  In (call_target c) (Dict.keys (applications resolved)).
Proof.
  unfold _sync_application_secrets. intros Hin. apply in_flat_map in Hin.
  destruct Hin as ([a values] & Ha & Hin).
  apply (in_map fst) in Ha. simpl in Ha.
  destruct (negb (Dict.mem vault_secrets a)).
  - destruct Hin as [<- | []]. exact Ha.
  - apply in_flat_map in Hin. destruct Hin as (kv & _ & Hin).
    destruct (secret_neb _ _); [| destruct Hin].
    destruct Hin as [<- | []]. exact Ha.
Qed.

(** With a pull secret expected and no resolved application of that name,
    cleaning does not touch the pull secret's entry. *)
Lemma clean_vault_secrets_spares_pull_secret (vault_secrets : Secrets)
    (resolved : ResolvedSecrets) (c : VaultCall) :
  Dict.get (applications resolved) "pull-secret" = None ->
  In c (_clean_vault_secrets vault_secrets resolved true) ->
  call_target c <> "pull-secret".
Proof.
  intros Hnone Hin. unfold _clean_vault_secrets in Hin.
  apply in_flat_map in Hin. destruct Hin as ([a values] & _ & Hin).
  destruct (Dict.get (applications resolved) a) as [expected |] eqn:Hget.
  - destruct (filter _ _); [destruct Hin |].
    destruct Hin as [<- | []]. simpl. congruence.
  - destruct (String.eqb_spec a "pull-secret") as [-> | Hne]; simpl in Hin.
    + destruct Hin.
    + destruct Hin as [<- | []]. exact Hne.
Qed.

Section SyncFacts.
Context {Rng : Type} {G : Generator Rng}.
Variable to_dockerconfigjson : PullSecret -> string.

(** C8: [_sync_pull_secret] serialises the pull secret into one value under
    [.dockerconfigjson] and makes at most one call, which writes that whole
    entry for [pull-secret]: it creates the entry when the snapshot has
    none, rewrites it when the snapshot's entry differs in any way from the
    one-key composite (such as the serialisation of credentials that differ
    in one field), and does nothing when they are equal. *)
Theorem pull_secret_atomic (vault_secrets : Secrets) (pull : PullSecret) :
  let composite := [(".dockerconfigjson", to_dockerconfigjson pull)] in
  let calls := _sync_pull_secret to_dockerconfigjson vault_secrets pull in
  (calls = [] \/ calls = [store_application_secret "pull-secret" composite])
  /\ (Dict.get vault_secrets "pull-secret" = None ->
      calls = [store_application_secret "pull-secret" composite])
  /\ (forall current, Dict.get vault_secrets "pull-secret" = Some current ->
        (current = composite -> calls = [])
        /\ (current <> composite ->
            calls = [store_application_secret "pull-secret" composite]))
  /\ (forall other, Dict.get vault_secrets "pull-secret"
                    = Some [(".dockerconfigjson", to_dockerconfigjson other)] ->
        to_dockerconfigjson other <> to_dockerconfigjson pull ->
        calls = [store_application_secret "pull-secret" composite]).
Proof.
  cbv zeta. unfold _sync_pull_secret.
  assert (Hcurrent : forall current,
            Dict.get vault_secrets "pull-secret" = Some current ->
            (current = [(".dockerconfigjson", to_dockerconfigjson pull)] ->
             _sync_pull_secret to_dockerconfigjson vault_secrets pull = [])
            /\ (current <> [(".dockerconfigjson", to_dockerconfigjson pull)] ->
                _sync_pull_secret to_dockerconfigjson vault_secrets pull
                = [store_application_secret "pull-secret"
                     [(".dockerconfigjson", to_dockerconfigjson pull)]])).
  { intros current Hget. unfold _sync_pull_secret. rewrite Hget.
    destruct (Dict.eqb String.eqb _ current) eqn:Heq; simpl.
    - apply eqb_singleton in Heq. split; [reflexivity |].
      intros Hne. now destruct Hne.
    - split; [| reflexivity]. intros ->.
      rewrite (proj2 (eqb_singleton _ _ _) eq_refl) in Heq. discriminate. }
  unfold _sync_pull_secret in Hcurrent.
  split; [| split; [| split]].
  - destruct (Dict.get vault_secrets "pull-secret") as [current |]; [| auto].
    destruct (Dict.eqb String.eqb _ current); simpl; auto.
  - now intros ->.
  - exact Hcurrent.
  - intros other Hget Hne. apply (Hcurrent _ Hget). congruence.
Qed.

(** C5: when the resolved secrets carry a pull secret, a sync with
    [delete = true] never calls [delete_application_secret] for
    [pull-secret], whether or not that application is among the resolved
    ones, and an entry the store had for it is still there afterwards; when
    [pull-secret] is not a resolved application, that entry is what it was
    or the pull secret just written. *)
Theorem pull_secret_never_deleted (secrets : list Secret)
    (onepassword : option StaticSecrets) (store : Secrets)
    (static_secrets : option StaticSecrets) (regenerate : bool) (rng : Rng)
    (r : SyncResult) :
  sync to_dockerconfigjson secrets onepassword store static_secrets
    regenerate true rng = Resolved r ->
  pull_secret (sync_resolved r) <> None ->
  ~ In (delete_application_secret "pull-secret") (sync_made r)
  /\ (Dict.mem store "pull-secret" = true ->
      Dict.mem (sync_store r) "pull-secret" = true)
  /\ (Dict.get (applications (sync_resolved r)) "pull-secret" = None ->
      Dict.get (sync_store r) "pull-secret" = Dict.get store "pull-secret"
      \/ exists pull,
           pull_secret (sync_resolved r) = Some pull
           /\ Dict.get (sync_store r) "pull-secret"
              = Some [(".dockerconfigjson", to_dockerconfigjson pull)]).
Proof.
  intros Hsync Hpull. unfold sync in Hsync.
  destruct (_resolve_secrets secrets store _ regenerate rng)
    as [[resolved rng'] | l |]; try discriminate.
  injection Hsync as <-. cbn [sync_resolved sync_made sync_store] in *.
  assert (Hcalls : ~ In (delete_application_secret "pull-secret")
                     (sync_calls to_dockerconfigjson store resolved true)).
  { unfold sync_calls. rewrite !in_app_iff.
    intros [Happ | [Hps | Hclean]].
    - now apply sync_application_secrets_no_delete in Happ.
    - destruct (pull_secret resolved) as [pull |]; [| destruct Hps].
      destruct (registries pull); [destruct Hps |].
      unfold _sync_pull_secret in Hps.
      destruct (Dict.get store "pull-secret") as [current |].
      + destruct (negb _); [destruct Hps as [Heq | []]; discriminate | destruct Hps].
      + destruct Hps as [Heq | []]. discriminate.
    - destruct (pull_secret resolved) as [pull |]; [| congruence].
      now apply clean_vault_secrets_keeps_pull_secret in Hclean. }
  split; [exact Hcalls | split; [now apply vault_run_keeps |]].
  intros Habsent. unfold sync_calls. rewrite !vault_run_app.
  destruct (pull_secret resolved) as [pull |]; [| congruence].
  rewrite (vault_run_other (_clean_vault_secrets store resolved true))
    by (intros c Hc;
        now apply (clean_vault_secrets_spares_pull_secret store resolved)).
  assert (Happs : Dict.get (vault_run store (_sync_application_secrets store resolved))
                    "pull-secret" = Dict.get store "pull-secret").
  { apply vault_run_other. intros c Hc Heq.
    apply sync_application_secrets_targets in Hc. rewrite Heq in Hc.
    apply DictFacts.get_In_keys in Hc. congruence. }
  destruct (registries pull) as [| registry others]; [left; exact Happs |].
  unfold _sync_pull_secret.
  destruct (Dict.get store "pull-secret") as [current |].
  - destruct (negb _); [| left; exact Happs].
    right. exists pull. split; [reflexivity |]. apply DictFacts.get_set_same.
  - right. exists pull. split; [reflexivity |]. apply DictFacts.get_set_same.
Qed.

End SyncFacts.

(** * The model on concrete declarations *)

Ltac solve_NoDup :=
  repeat constructor; simpl; intuition discriminate.

Ltac solve_wf_secrets :=
  split;
  [ unfold Dict.wf; solve_NoDup
  | intros a d Hin; simpl in Hin;
    repeat (destruct Hin as [[= <- <-] | Hin]; [unfold Dict.wf; solve_NoDup |]);
    destruct Hin ].

Lemma counter_generator_productive : productive counter_generator.
Proof.
  split.
  - intros ty rng. simpl. now destruct rng.
  - intros ty src s rng. reflexivity.
Qed.


(** The scenario of the spec takes two passes when the copy is declared
    first: one pass is not enough, two are. *)
Lemma copy_before_source_takes_two_passes :
  resolve_secrets_fuel 1 [demo_api; demo_db] [] None false 0 = OutOfFuel
  /\ resolve_secrets_fuel 2 [demo_api; demo_db] [] None false 0
     = Resolved
         (mkResolved [("db", [("password", "g")]); ("api", [("dbpass", "g")])] None,
          1).
Proof. split; reflexivity. Qed.

(** C2 as stated fails: a declaration without a rule, a static value or a
    current value refers to nothing, so its references form a DAG, and
    [_resolve_secrets] raises instead of returning a value for it. *)
Lemma static_secret_without_value_unresolved :
  NoDup (map secret_id [demo_static])
  /\ acyclic (fun _ => 0) 1 [demo_static]
  /\ _resolve_secrets [demo_static] [] None false 0
     = UnresolvedSecretsError [demo_static].
Proof.
  split; [solve_NoDup | split; [| reflexivity]].
  intros d [<- | []]. split; [simpl; lia | intros p []].
Qed.

Lemma resolution_converges_witness :
  exists R rng',
    resolve_secrets_fuel 2 [demo_api; demo_db] [] None false 0 = Resolved (R, rng')
    /\ length (entries (applications R)) = 2.
Proof.
  destruct (resolution_converges [demo_api; demo_db] [] None false 0 demo_rank 2)
    as (R & rng' & Hfuel & _ & _ & _ & _ & Hcount).
  - intros d [<- | [<- | []]]; (split; [unfold demo_rank; simpl; lia |]).
    + intros p [<- | []]. exists demo_db.
      split; [simpl; auto | split; [reflexivity | unfold demo_rank; simpl; lia]].
    + intros p [].
  - intros d [<- | [<- | []]]; intros Hv Hc Hg; discriminate.
  - exact counter_generator_productive.
  - exists R, rng'. split; [exact Hfuel | apply Hcount; solve_NoDup].
Defined.

Lemma audit_classification_witness :
  let secrets :=
    [mkSecret "a" "k1" (Some "v") None None; mkSecret "a" "k2" (Some "w") None None;
     mkSecret "a" "k3" (Some "z") None None; mkSecret "b" "x" (Some "1") None None] in
  let resolved :=
    mkResolved [("a", [("k1", "v"); ("k2", "w"); ("k3", "z")]); ("b", [("x", "1")])]
      None in
  let vault_secrets :=
    [("c", [("u", "1")]); ("a", [("k2", "w"); ("k9", "q"); ("k3", "zz")])] in
  audit_compare resolved vault_secrets
  = mkFindings [("a", "k1"); ("b", "x")] [("a", "k3")] [("c", "u"); ("a", "k9")]
  /\ NoDup [("a", "k1"); ("b", "x"); ("a", "k3"); ("c", "u"); ("a", "k9")]
  /\ audit secrets None vault_secrets None 0
     = Resolved
         ("Missing secrets:" ++ newline
          ++ "• a k1" ++ newline
          ++ "• b x" ++ newline
          ++ "Incorrect secrets:" ++ newline
          ++ "• a k3" ++ newline
          ++ "Unknown secrets in Vault:" ++ newline
          ++ "• c u" ++ newline
          ++ "• a k9" ++ newline)%string.
Proof.
  cbv zeta. split; [reflexivity |].
  destruct (audit_classification (G := counter_generator)
              (mkResolved
                 [("a", [("k1", "v"); ("k2", "w"); ("k3", "z")]); ("b", [("x", "1")])]
                 None)
              [("c", [("u", "1")]); ("a", [("k2", "w"); ("k9", "q"); ("k3", "zz")])])
    as (_ & _ & _ & _ & Hnodup & _ & _ & _ & _ & Haudit & _);
    [solve_wf_secrets | solve_wf_secrets |].
  split; [exact Hnodup |].
  exact (Haudit
           [mkSecret "a" "k1" (Some "v") None None;
            mkSecret "a" "k2" (Some "w") None None;
            mkSecret "a" "k3" (Some "z") None None;
            mkSecret "b" "x" (Some "1") None None]
           None None 0 0 eq_refl).
Defined.

Lemma pull_secret_never_deleted_witness :
  let store := [("pull-secret", [(".dockerconfigjson", "x")]); ("stale", [("a", "b")])] in
  let r := mkSync (mkResolved [("A", [("k1", "new")])] (Some (mkPull [])))
             [store_application_secret "A" [("k1", "new")];
              delete_application_secret "stale"]
             [("pull-secret", [(".dockerconfigjson", "x")]); ("A", [("k1", "new")])]
             0 in
  sync demo_dockerconfigjson [demo_literal] None store
    (Some (mkStatics [] (Some (mkPull [])))) false true 0 = Resolved r
  /\ ~ In (delete_application_secret "pull-secret") (sync_made r)
  /\ Dict.mem (sync_store r) "pull-secret" = true.
Proof.
  cbv zeta. split; [reflexivity |].
  destruct (pull_secret_never_deleted demo_dockerconfigjson [demo_literal] None
              [("pull-secret", [(".dockerconfigjson", "x")]); ("stale", [("a", "b")])]
              (Some (mkStatics [] (Some (mkPull [])))) false 0 _ eq_refl)
    as (Hcalls & Hstore & _).
  - discriminate.
  - split; [exact Hcalls | now apply Hstore].
Defined.

Lemma resolve_secret_precedence_witness :
  _resolve_secret
    (mkSecret "a" "k" (Some "literal") (Some (mkCopy "b" "k"))
       (Some (SimpleSecretGenerateRules "password")))
    [("b", [("k", "copied")])] (Some "current") (Some "static") true 0
  = (Some "literal", 0).
Proof.
  now apply (resolve_secret_precedence
               (mkSecret "a" "k" (Some "literal") (Some (mkCopy "b" "k"))
                  (Some (SimpleSecretGenerateRules "password")))
               [("b", [("k", "copied")])] (Some "current") (Some "static") true 0).
Defined.

Lemma generated_secret_stability_witness :
  _resolve_secret demo_db [] (Some "kept") None false 0 = (Some "kept", 0)
  /\ _resolve_secret demo_db [] (Some "kept") None true 0 = (Some "g", 1).
Proof.
  destruct (generated_secret_stability demo_db [] "kept" None 0
              (SimpleSecretGenerateRules "password")
              eq_refl eq_refl eq_refl eq_refl)
    as (Hkeep & _ & Hfresh).
  split; [exact Hkeep | exact Hfresh].
Defined.

Lemma pull_secret_atomic_witness :
  _sync_pull_secret demo_dockerconfigjson
    [("pull-secret", [(".dockerconfigjson", demo_dockerconfigjson demo_pull)])]
    demo_pull_changed
  = [store_application_secret "pull-secret"
       [(".dockerconfigjson", demo_dockerconfigjson demo_pull_changed)]].
Proof.
  destruct (pull_secret_atomic demo_dockerconfigjson
              [("pull-secret", [(".dockerconfigjson", demo_dockerconfigjson demo_pull)])]
              demo_pull_changed)
    as (_ & _ & _ & Hfield).
  apply (Hfield demo_pull); [reflexivity |].
  vm_compute. discriminate.
Defined.

Lemma copy_fidelity_witness :
  exists v,
    lookup [("db", [("password", "g")]); ("api", [("dbpass", "g")])] "api" "dbpass"
      = Some v
    /\ lookup [("db", [("password", "g")]); ("api", [("dbpass", "g")])] "db" "password"
       = Some v.
Proof.
  refine (copy_fidelity [demo_api; demo_db] [] None false 0
            (mkResolved [("db", [("password", "g")]); ("api", [("dbpass", "g")])] None)
            1 _ _ demo_api (mkCopy "db" "password") _ _ _);
    [solve_NoDup | reflexivity | simpl; auto | reflexivity | reflexivity].
Defined.

Lemma copy_of_undeclared_secret_raises_witness :
  exists unresolved,
    _resolve_secrets [demo_api]
      [("db", [("password", "in-vault")])]
      (Some (mkStatics [("db", [("password", mkStatic (Some "static"))])] None))
      false 0
    = UnresolvedSecretsError unresolved
    /\ In demo_api unresolved.
Proof.
  apply (copy_of_undeclared_secret_raises [demo_api]
           [("db", [("password", "in-vault")])]
           (Some (mkStatics [("db", [("password", mkStatic (Some "static"))])] None))
           false 0 demo_api (mkCopy "db" "password"));
    [simpl; auto | reflexivity | reflexivity |].
  intros d' [<- | []]. discriminate.
Defined.

(** C3 (failing input): with [delete = true], a first sync that both
    corrects a key and removes an extraneous key of the same application
    writes the stale snapshot back, so the store keeps the old value and the
    second sync makes a store call again. *)
Theorem sync_with_delete_repeats_update :
  let secrets := [demo_literal] in
  let store := [("A", [("k1", "old"); ("k2", "x")])] in
  exists r1 r2,
    sync demo_dockerconfigjson secrets None store None false true 0 = Resolved r1
    /\ sync demo_dockerconfigjson secrets None (sync_store r1) None false true
         (sync_rng r1) = Resolved r2
    /\ sync_made r1 = [update_application_secret "A" "k1" "new";
                       store_application_secret "A" [("k1", "old")]]
    /\ lookup (sync_store r1) "A" "k1" = Some "old"
    /\ sync_made r2 = [update_application_secret "A" "k1" "new"].
Proof.
  cbv zeta. eexists. eexists.
  split; [reflexivity | split; [reflexivity | repeat split]].
Qed.

(** * Further properties of the service *)

(** ** What [_resolve_secrets] returns *)

Lemma NoDup_app_middle_out {A : Type} (c : A) (Q rest : list A) :
  NoDup (Q ++ c :: rest) -> ~ In c (Q ++ rest).
Proof. intros Hnd. now apply NoDup_remove_2. Qed.

(** A pending declaration about a pair of its own has no value yet. *)
Lemma origin_pending_unassigned (secrets : list Secret) (T : Secrets)
    (X : list Secret) (c : Secret) :
  NoDup (map secret_id secrets) ->
  origin secrets T X -> In c X ->
  lookup T (application c) (key c) = None.
Proof.
  intros Hnd Horigin Hc.
  destruct (lookup T (application c) (key c)) as [v |] eqn:Hlook; [| reflexivity].
  now destruct (origin_pending_fresh secrets T X c _ _ v Hnd Horigin Hc Hlook).
Qed.

(** Assigning a pair that has no value keeps every value of the table. *)
Lemma assign_extends (T : Secrets) (app k : string) (s : SecretStr) :
  lookup T app k = None ->
  forall a' k' v, lookup T a' k' = Some v ->
    lookup (assign T app k s) a' k' = Some v.
Proof.
  intros Hnone a' k' v Hlook.
  rewrite DictFacts.lookup_assign_other; [exact Hlook |].
  intros [= -> ->]. congruence.
Qed.

Section ResolvedValues.
Context {Rng : Type} {G : Generator Rng}.
Variables (secrets : list Secret) (vault_secrets : Secrets)
  (static_secrets : option StaticSecrets) (regenerate : bool).
Hypothesis Hdistinct : NoDup (map secret_id secrets).

(** The value the returned table holds for a declaration is the one
    [_resolve_secret] gave for it, against a table whose values are all in
    the returned table. *)
Lemma resolve_secrets_values (rng : Rng) (R : ResolvedSecrets) (rng' : Rng) :
  _resolve_secrets secrets vault_secrets static_secrets regenerate rng
    = Resolved (R, rng') ->
  forall d, In d secrets ->
    exists T rng0 s,
      (forall a k v, lookup T a k = Some v -> lookup (applications R) a k = Some v)
      /\ fst (_resolve_secret d T (current_value_of vault_secrets d)
                (static_value_of (statics_or_empty static_secrets) d)
                regenerate rng0) = Some s
      /\ secret_truthy s = true
      /\ lookup (applications R) (application d) (key d) = Some s.
Proof.
  intros Hres.
  pose (J := fun (T : Secrets) (X : list Secret) =>
               origin secrets T X
               /\ forall d, In d secrets -> ~ In d X ->
                    exists T0 rng0 s,
                      (forall a k v, lookup T0 a k = Some v -> lookup T a k = Some v)
                      /\ fst (_resolve_secret d T0 (current_value_of vault_secrets d)
                                (static_value_of (statics_or_empty static_secrets) d)
                                regenerate rng0) = Some s
                      /\ secret_truthy s = true
                      /\ lookup T (application d) (key d) = Some s).
  pose proof (resolve_secrets_invariant secrets vault_secrets static_secrets
                regenerate J rng) as Hinv.
  rewrite Hres in Hinv.
  intros d Hd. destruct Hinv as [_ Hvalues]; [| | now apply Hvalues].
  - intros T Q c rest rng0 s [Horigin Hvalues] Hs Htrue.
    split; [now apply origin_assign |].
    assert (HcX : In c (Q ++ c :: rest)).
    { rewrite in_app_iff. simpl. auto. }
    assert (Hcin : In c secrets) by now apply Horigin.
    pose proof (origin_pending_unassigned secrets T _ c Hdistinct Horigin HcX)
      as Hfresh.
    intros d0 Hd0 Hnot.
    destruct (string_dec (application d0) (application c)) as [Happ | Happ];
      [destruct (string_dec (key d0) (key c)) as [Hkey | Hkey] |].
    + assert (d0 = c) as ->.
      { apply (NoDup_map_injective secret_id secrets Hdistinct); auto.
        unfold secret_id. congruence. }
      exists T, rng0, s. repeat split; auto.
      * now apply assign_extends.
      * apply DictFacts.lookup_assign_same.
    + destruct (Hvalues d0 Hd0) as (T0 & rng1 & s0 & Hsub & Hval & Hs0 & Hlook).
      { intros Hin. apply In_app_middle in Hin.
        destruct Hin as [-> | Hin]; [congruence | contradiction]. }
      exists T0, rng1, s0. repeat split; auto.
      * intros a k v Hv. apply assign_extends; auto.
      * apply assign_extends; auto.
    + destruct (Hvalues d0 Hd0) as (T0 & rng1 & s0 & Hsub & Hval & Hs0 & Hlook).
      { intros Hin. apply In_app_middle in Hin.
        destruct Hin as [-> | Hin]; [congruence | contradiction]. }
      exists T0, rng1, s0. repeat split; auto.
      * intros a k v Hv. apply assign_extends; auto.
      * apply assign_extends; auto.
  - split; [now apply origin_start |]. intros d0 Hd0 Hnot. contradiction.
Qed.

End ResolvedValues.

Section ResolvedValueRules.
Context {Rng : Type} {G : Generator Rng}.

(** X2: For declarations about distinct pairs, the returned table gives a
    declaration with a value in configuration that value; a declaration
    without any rule gets its static value when there is one and otherwise
    the value Vault currently holds. *)
Theorem resolved_value_of_configuration (secrets : list Secret)
    (vault_secrets : Secrets) (static_secrets : option StaticSecrets)
    (regenerate : bool) (rng : Rng) (R : ResolvedSecrets) (rng' : Rng) :
  NoDup (map secret_id secrets) ->
  _resolve_secrets secrets vault_secrets static_secrets regenerate rng
    = Resolved (R, rng') ->
  forall d, In d secrets ->
    let resolved_value := lookup (applications R) (application d) (key d) in
    let static := static_value_of (statics_or_empty static_secrets) d in
    (truthy (value d) = true -> resolved_value = value d)
    /\ (truthy (value d) = false -> copy_rules d = None -> generate d = None ->
        (truthy static = true -> resolved_value = static)
        /\ (truthy static = false ->
            resolved_value = current_value_of vault_secrets d)).
Proof.
  intros Hnd Hres d Hd. cbv zeta.
  destruct (resolve_secrets_values secrets vault_secrets static_secrets
              regenerate Hnd rng R rng' Hres d Hd)
    as (T & rng0 & s & _ & Hval & _ & Hlook).
  rewrite Hlook. unfold _resolve_secret in Hval. split.
  - intros Hv. rewrite Hv in Hval. simpl in Hval. congruence.
  - intros Hv Hc Hg. rewrite Hv, Hc, Hg in Hval.
    split; intros Hs; rewrite Hs in Hval; simpl in Hval; congruence.
Qed.

(** X3: For declarations about distinct pairs and [regenerate = false], a
    declaration resolved by its generate rule that has a non-empty value in
    Vault keeps exactly that value in the returned table. *)
Theorem resolved_generated_secret_kept (secrets : list Secret)
    (vault_secrets : Secrets) (static_secrets : option StaticSecrets)
    (rng : Rng) (R : ResolvedSecrets) (rng' : Rng) :
  NoDup (map secret_id secrets) ->
  _resolve_secrets secrets vault_secrets static_secrets false rng
    = Resolved (R, rng') ->
  forall d rules,
    In d secrets -> truthy (value d) = false -> copy_rules d = None ->
    generate d = Some rules ->
    truthy (current_value_of vault_secrets d) = true ->
    lookup (applications R) (application d) (key d)
    = current_value_of vault_secrets d.
Proof.
  intros Hnd Hres d rules Hd Hv Hc Hg Hcur.
  destruct (resolve_secrets_values secrets vault_secrets static_secrets
              false Hnd rng R rng' Hres d Hd)
    as (T & rng0 & s & _ & Hval & _ & Hlook).
  rewrite Hlook. unfold _resolve_secret in Hval.
  rewrite Hv, Hc, Hg, Hcur in Hval. simpl in Hval. congruence.
Qed.

(** X4: For declarations about distinct pairs, a declaration whose generate
    rule runs (no reusable current value, or [regenerate = true]) holds the
    generator's output in the returned table, and a from-source rule was
    given the value the returned table holds for its source. *)
Theorem resolved_generated_secret_fresh (secrets : list Secret)
    (vault_secrets : Secrets) (static_secrets : option StaticSecrets)
    (regenerate : bool) (rng : Rng) (R : ResolvedSecrets) (rng' : Rng) :
  NoDup (map secret_id secrets) ->
  _resolve_secrets secrets vault_secrets static_secrets regenerate rng
    = Resolved (R, rng') ->
  forall d rules,
    In d secrets -> truthy (value d) = false -> copy_rules d = None ->
    generate d = Some rules ->
    truthy (current_value_of vault_secrets d) = false \/ regenerate = true ->
    match rules with
    | SimpleSecretGenerateRules ty =>
        exists rng0,
          lookup (applications R) (application d) (key d)
          = Some (fst (generate_simple ty rng0))
    | SourceSecretGenerateRules ty src =>
        exists rng0 other,
          lookup (applications R) (application d) src = Some other
          /\ lookup (applications R) (application d) (key d)
             = Some (fst (generate_from_source ty src other rng0))
    end.
Proof.
  intros Hnd Hres d rules Hd Hv Hc Hg Hrun.
  destruct (resolve_secrets_values secrets vault_secrets static_secrets
              regenerate Hnd rng R rng' Hres d Hd)
    as (T & rng0 & s & Hsub & Hval & _ & Hlook).
  rewrite Hlook.
  rewrite (resolve_secret_generates _ _ _ _ _ _ _ Hv Hc Hg) in Hval.
  - destruct rules as [ty | ty src].
    + exists rng0. simpl in Hval. congruence.
    + destruct (lookup T (application d) src) as [other |] eqn:Hother;
        [| discriminate].
      destruct (secret_truthy other); [| discriminate].
      exists rng0, other. split; [now apply Hsub | simpl in Hval; congruence].
  - destruct Hrun as [-> | ->]; [reflexivity | apply andb_false_r].
Qed.

End ResolvedValueRules.

Section ResolutionOutcome.
Context {Rng : Type} {G : Generator Rng}.
Variables (secrets : list Secret) (vault_secrets : Secrets)
  (static_secrets : option StaticSecrets) (regenerate : bool).

(** X1: Whatever the declarations, the table [_resolve_secrets] returns holds
    no application twice and no key of an application twice, only non-empty
    values, and only pairs that are declared; the pull secret it returns is
    the one of the static secrets, none when no static secrets are given. *)
Theorem resolved_table_sound (rng : Rng) (R : ResolvedSecrets) (rng' : Rng) :
  _resolve_secrets secrets vault_secrets static_secrets regenerate rng
    = Resolved (R, rng') ->
  wf_secrets (applications R)
  /\ (forall a k v, lookup (applications R) a k = Some v ->
        secret_truthy v = true
        /\ exists d, In d secrets /\ secret_id d = (a, k))
  /\ pull_secret R
     = match static_secrets with
       | Some s => static_pull_secret s
       | None => None
       end.
Proof.
  intros Hres. split; [eapply resolve_secrets_wf; exact Hres | split].
  - intros a k v Hlook. split; [| eapply resolve_secrets_declared; eassumption].
    pose proof (resolve_secrets_invariant secrets vault_secrets static_secrets
                  regenerate
                  (fun T _ => forall a k v, lookup T a k = Some v ->
                                secret_truthy v = true)
                  rng) as Hinv.
    rewrite Hres in Hinv. apply (Hinv) with (a := a) (k := k); auto.
    + intros T Q c rest rng0 s HJ _ Hs a0 k0 v0 Hv0.
      destruct (lookup_assign_Some _ _ _ _ _ _ _ Hv0) as [[= -> ->] | Hold].
      * rewrite DictFacts.lookup_assign_same in Hv0. now injection Hv0 as <-.
      * eauto.
    + discriminate.
  - unfold _resolve_secrets in Hres. rewrite resolve_secrets_fuel_loop in Hres.
    destruct (resolve_loop _ _ _ _ _ _ _ _) as [[T rng1] | l |]; try discriminate.
    injection Hres as <- _. now destruct static_secrets.
Qed.

End ResolutionOutcome.

(** ** What [_resolve_secrets] raises *)

Section UnresolvedSecrets.
Context {Rng : Type} {G : Generator Rng}.
Variables (vault_secrets : Secrets) (static_secrets : StaticSecrets)
  (regenerate : bool).

(** When the loop raises, the declarations it carries were all tried
    against one table and none resolved. *)
Lemma resolve_loop_raises_stalled (J : Secrets -> list Secret -> Prop) :
  (forall T Q c rest rng s,
      J T (Q ++ c :: rest) ->
      fst (_resolve_secret c T (current_value_of vault_secrets c)
             (static_value_of static_secrets c) regenerate rng) = Some s ->
      secret_truthy s = true ->
      J (assign T (application c) (key c) s) (Q ++ rest)) ->
  forall fuel T rng P l,
    J T P ->
    resolve_loop vault_secrets static_secrets regenerate fuel T rng P (length P)
      = UnresolvedSecretsError l ->
    l <> []
    /\ exists T1 rng1 rng2,
         J T1 l
         /\ resolve_pass vault_secrets static_secrets regenerate l T1 rng1
            = (T1, rng2, l).
Proof.
  intros Hstep. induction fuel as [| fuel IH]; intros T rng P l HJ Hloop.
  - destruct P; discriminate.
  - destruct P as [| c rest]; [discriminate |].
    rewrite resolve_loop_step in Hloop.
    destruct (resolve_pass vault_secrets static_secrets regenerate (c :: rest) T rng)
      as [[T' rng'] P'] eqn:Hpass.
    destruct (Nat.leb_spec (length (c :: rest)) (length P')) as [Hstall | _].
    + injection Hloop as <-.
      destruct (resolve_pass_length _ _ _ _ _ _ _ _ _ Hpass) as [_ Hsame].
      destruct (Hsame Hstall) as [-> ->].
      split; [discriminate |]. exists T, rng, rng'. auto.
    + apply (IH T' rng' P' l); [| exact Hloop].
      now apply (resolve_pass_invariant vault_secrets static_secrets regenerate
                   J Hstep (c :: rest) [] T rng T' rng' P').
Qed.

End UnresolvedSecrets.

Section UnresolvedDiagnosis.
Context {Rng : Type} {G : Generator Rng}.

(** X5: With a generator that yields non-empty values, [UnresolvedSecretsError]
    carries at least one declaration, only declarations of the input, and
    each of them has no value in configuration and is stuck for one of
    three reasons: its copy rule names a pair that is undeclared or whose
    declarations are all unresolved too; its from-source generate rule has
    to run and names such a pair; or it has no rule and neither a static nor
    a current value. *)
Theorem unresolved_secrets_diagnosis (secrets : list Secret)
    (vault_secrets : Secrets) (static_secrets : option StaticSecrets)
    (regenerate : bool) (rng : Rng) (unresolved : list Secret) :
  productive G ->
  _resolve_secrets secrets vault_secrets static_secrets regenerate rng
    = UnresolvedSecretsError unresolved ->
  unresolved <> []
  /\ incl unresolved secrets
  /\ forall d, In d unresolved ->
       truthy (value d) = false
       /\ ((exists rules,
              copy_rules d = Some rules
              /\ forall d', In d' secrets ->
                   secret_id d' = (copy_application rules, copy_key rules) ->
                   In d' unresolved)
           \/ (copy_rules d = None
               /\ exists ty src,
                    generate d = Some (SourceSecretGenerateRules ty src)
                    /\ (truthy (current_value_of vault_secrets d) = false
                        \/ regenerate = true)
                    /\ forall d', In d' secrets ->
                         secret_id d' = (application d, src) -> In d' unresolved)
           \/ (copy_rules d = None /\ generate d = None
               /\ truthy (static_value_of (statics_or_empty static_secrets) d)
                  = false
               /\ truthy (current_value_of vault_secrets d) = false)).
Proof.
  intros [Hsimple Hsource] Hres.
  unfold _resolve_secrets in Hres. rewrite resolve_secrets_fuel_loop in Hres.
  destruct (resolve_loop _ _ _ _ _ _ _ _) as [[T rng1] | l |] eqn:Hloop;
    try discriminate.
  injection Hres as ->.
  pose (J := fun (T : Secrets) (X : list Secret) =>
               incl X secrets /\ settled secrets T X).
  destruct (resolve_loop_raises_stalled vault_secrets
              (statics_or_empty static_secrets) regenerate J) with
    (fuel := length secrets) (T := @nil (string * Dict.t SecretStr))
    (rng := rng) (P := secrets) (l := unresolved)
    as (Hne & T1 & rng1 & rng2 & [Hincl Hsettled] & Hpass); auto.
  { intros T Q c rest rng0 s [Hincl Hsettled] _ Hs. split.
    - intros x Hx. apply Hincl. now apply In_app_skip.
    - now apply settled_assign. }
  { split; [apply incl_refl | intros d Hd; now left]. }
  split; [exact Hne | split; [exact Hincl |]].
  intros d Hd.
  destruct (resolve_pass_failed _ _ _ _ _ _ _ _ _ Hpass d Hd)
    as (T2 & rng3 & Hmono & Hfail).
  assert (Hstuck : forall p, truthy (lookup T2 (fst p) (snd p)) = false ->
            forall d', In d' secrets -> secret_id d' = p -> In d' unresolved).
  { intros p Hp d' Hd' Hid. destruct (Hsettled d' Hd') as [Hin | Hhas]; auto.
    apply Hmono in Hhas. unfold has in Hhas. rewrite Hid in Hhas. congruence. }
  unfold _resolve_secret in Hfail.
  destruct (truthy (value d)) eqn:Hv; [simpl in Hfail; congruence |].
  split; [reflexivity |].
  destruct (copy_rules d) as [rules |].
  - left. exists rules. split; [reflexivity |].
    apply (Hstuck (copy_application rules, copy_key rules)). simpl.
    destruct (truthy (lookup T2 (copy_application rules) (copy_key rules)))
      eqn:Hother; [simpl in Hfail; congruence | reflexivity].
  - right. destruct (generate d) as [rules |].
    + left. split; [reflexivity |].
      destruct (truthy (current_value_of vault_secrets d) && negb regenerate)
        eqn:Hkeep.
      { simpl in Hfail. apply andb_true_iff in Hkeep. destruct Hkeep. congruence. }
      destruct rules as [ty | ty src].
      { specialize (Hsimple ty rng3). destruct (generate_simple ty rng3).
        simpl in *. congruence. }
      exists ty, src. split; [reflexivity | split].
      * apply andb_false_iff in Hkeep. destruct Hkeep as [Hcur | Hre]; auto.
        right. now destruct regenerate.
      * apply (Hstuck (application d, src)). simpl.
        destruct (lookup T2 (application d) src) as [other |]; [| reflexivity].
        simpl. destruct (secret_truthy other) eqn:Hother; [| reflexivity].
        specialize (Hsource ty src other rng3).
        destruct (generate_from_source ty src other rng3).
        simpl in *. congruence.
    + right. simpl in Hfail.
      destruct (truthy (static_value_of (statics_or_empty static_secrets) d))
        eqn:Hstatic; [congruence | auto].
Qed.

End UnresolvedDiagnosis.

(** ** Randomness *)

Section Randomness.
Context {Rng : Type} {G : Generator Rng}.
Variables (vault_secrets : Secrets) (static_secrets : StaticSecrets)
  (regenerate : bool).

(** The declaration never runs its generate rule: it has none, or another
    rule comes first, or its current value is kept. *)
Let quiet (d : Secret) : Prop :=
  truthy (value d) = false -> copy_rules d = None ->
  generate d <> None ->
  truthy (current_value_of vault_secrets d) = true /\ regenerate = false.

Lemma resolve_secret_quiet (d : Secret) (T : Secrets) (rng : Rng) :
  quiet d ->
  snd (_resolve_secret d T (current_value_of vault_secrets d)
         (static_value_of static_secrets d) regenerate rng) = rng.
Proof.
  intros Hquiet. unfold quiet in Hquiet. unfold _resolve_secret.
  destruct (truthy (value d)); [reflexivity |].
  destruct (copy_rules d) as [rules |].
  - destruct (truthy (lookup T (copy_application rules) (copy_key rules)));
      reflexivity.
  - destruct (generate d) as [rules |]; [| reflexivity].
    destruct Hquiet as [-> ->]; auto. discriminate.
Qed.

Lemma resolve_pass_quiet (P : list Secret) :
  (forall d, In d P -> quiet d) ->
  forall T rng T' rng' P',
    resolve_pass vault_secrets static_secrets regenerate P T rng = (T', rng', P') ->
    rng' = rng.
Proof.
  induction P as [| c rest IH]; intros Hquiet T rng T' rng' P' Hpass.
  - now injection Hpass as _ <- _.
  - apply resolve_pass_cons in Hpass.
    assert (Hc : quiet c) by (apply Hquiet; now left).
    assert (Hrest : forall d, In d rest -> quiet d)
      by (intros d Hd; apply Hquiet; now right).
    destruct Hpass as [(s & _ & _ & Hpass) | (_ & U & _ & Hpass)];
      apply (IH Hrest) in Hpass; now rewrite Hpass, resolve_secret_quiet.
Qed.

Lemma resolve_loop_quiet :
  forall fuel P T rng left T' rng',
    (forall d, In d P -> quiet d) ->
    resolve_loop vault_secrets static_secrets regenerate fuel T rng P left
      = Resolved (T', rng') ->
    rng' = rng.
Proof.
  induction fuel as [| fuel IH]; intros P T rng left T' rng' Hquiet Hloop.
  - destruct P; [now injection Hloop as _ -> | discriminate].
  - destruct P as [| c rest]; [now injection Hloop as _ -> |].
    rewrite resolve_loop_step in Hloop.
    destruct (resolve_pass vault_secrets static_secrets regenerate (c :: rest) T rng)
      as [[T1 rng1] P1] eqn:Hpass.
    destruct (Nat.leb left (length P1)); [discriminate |].
    apply IH in Hloop.
    + rewrite Hloop. eapply resolve_pass_quiet; eassumption.
    + intros d Hd. apply Hquiet. eapply resolve_pass_incl; eassumption.
Qed.

End Randomness.

Section RandomnessOfResolution.
Context {Rng : Type} {G : Generator Rng}.

(** X6: A resolution in which no generate rule has to run (every declaration
    decided by a generate rule has a non-empty current value and
    [regenerate] is false) draws no randomness: the generator state it
    returns is the one it was given. *)
Theorem resolution_without_generation_is_quiet (secrets : list Secret)
    (vault_secrets : Secrets) (static_secrets : option StaticSecrets)
    (regenerate : bool) (rng : Rng) (R : ResolvedSecrets) (rng' : Rng) :
  (forall d, In d secrets ->
     truthy (value d) = false -> copy_rules d = None -> generate d <> None ->
     truthy (current_value_of vault_secrets d) = true /\ regenerate = false) ->
  _resolve_secrets secrets vault_secrets static_secrets regenerate rng
    = Resolved (R, rng') ->
  rng' = rng.
Proof.
  intros Hquiet Hres.
  unfold _resolve_secrets in Hres. rewrite resolve_secrets_fuel_loop in Hres.
  destruct (resolve_loop _ _ _ _ _ _ _ _) as [[T rng1] | l |] eqn:Hloop;
    try discriminate.
  injection Hres as _ <-.
  eapply resolve_loop_quiet; [| exact Hloop]. exact Hquiet.
Qed.

End RandomnessOfResolution.

(** ** What the sync of the application secrets does to Vault *)

Lemma lookup_of_get (T T' : Secrets) (a k : string) :
  Dict.get T' a = Dict.get T a -> lookup T' a k = lookup T a k.
Proof. intros H. unfold lookup, Dict.get_default. now rewrite H. Qed.

Lemma lookup_get_Some (T : Secrets) (a k : string) (d : Dict.t SecretStr) :
  Dict.get T a = Some d -> lookup T a k = Dict.get d k.
Proof. intros H. unfold lookup, Dict.get_default. now rewrite H. Qed.

Lemma lookup_get_None (T : Secrets) (a k : string) :
  Dict.get T a = None -> lookup T a k = None.
Proof. intros H. unfold lookup, Dict.get_default. now rewrite H. Qed.

Lemma secret_neb_false (v : SecretStr) (x : option SecretStr) :
  secret_neb (Some v) x = false <-> x = Some v.
Proof.
  destruct x as [w |]; simpl; [| split; discriminate].
  rewrite negb_false_iff, String.eqb_eq. split; congruence.
Qed.

Lemma sync_application_secrets_calls (vault_secrets : Secrets)
    (resolved : ResolvedSecrets) :
  _sync_application_secrets vault_secrets resolved
  = flat_map (sync_application_calls vault_secrets) (applications resolved).
Proof.
  unfold _sync_application_secrets. apply flat_map_ext. now intros [a values].
Qed.

Lemma sync_application_calls_target (vault_secrets : Secrets) (a : string)
    (values : Dict.t SecretStr) (c : VaultCall) :
  In c (sync_application_calls vault_secrets (a, values)) -> call_target c = a.
Proof.
  unfold sync_application_calls. destruct (negb (Dict.mem vault_secrets a)).
  - now intros [<- | []].
  - intros Hin. apply in_flat_map in Hin. destruct Hin as (kv & _ & Hin).
    destruct (secret_neb _ _); [| destruct Hin]. now destruct Hin as [<- | []].
Qed.

(** The updates of one application: each key whose value differs from the
    snapshot's [d] is set, the others stay as the store has them. *)
Lemma sync_updates_effect (a : string) (d values : Dict.t SecretStr) :
  NoDup (Dict.keys values) ->
  forall store k,
    lookup
      (vault_run store
         (flat_map
            (fun kv : string * SecretStr =>
               if secret_neb (Some (snd kv)) (Dict.get d (fst kv))
               then [update_application_secret a (fst kv) (snd kv)]
               else [])
            values))
      a k
    = match Dict.get values k with
      | Some v =>
          if secret_neb (Some v) (Dict.get d k) then Some v else lookup store a k
      | None => lookup store a k
      end.
Proof.
  induction values as [| [k0 v0] values IH]; intros Hnd store k; [reflexivity |].
  unfold Dict.keys in Hnd. simpl in Hnd.
  inversion Hnd as [| ? ? Hfresh Hnd']; subst.
  cbn [flat_map fst snd]. rewrite vault_run_app, (IH Hnd'). cbn [Dict.get].
  destruct (String.eqb_spec k k0) as [-> | Hne].
  - apply DictFacts.get_None_keys in Hfresh. rewrite Hfresh.
    destruct (secret_neb (Some v0) (Dict.get d k0)); simpl; [| reflexivity].
    apply DictFacts.lookup_assign_same.
  - assert (Hsame : lookup
                      (vault_run store
                         (if secret_neb (Some v0) (Dict.get d k0)
                          then [update_application_secret a k0 v0]
                          else []))
                      a k = lookup store a k).
    { destruct (secret_neb (Some v0) (Dict.get d k0)); simpl; [| reflexivity].
      apply DictFacts.lookup_assign_other. congruence. }
    now rewrite Hsame.
Qed.

(** One resolved application, on a store that still has the snapshot's
    entry for it. *)
Lemma sync_application_calls_effect (vault_secrets store : Secrets) (a : string)
    (values : Dict.t SecretStr) (k : string) :
  NoDup (Dict.keys values) ->
  Dict.get store a = Dict.get vault_secrets a ->
  lookup (vault_run store (sync_application_calls vault_secrets (a, values))) a k
  = match Dict.get values k with
    | Some v => Some v
    | None => lookup store a k
    end.
Proof.
  intros Hnd Hentry. unfold sync_application_calls, Dict.mem, Dict.get_default.
  destruct (Dict.get vault_secrets a) as [d |] eqn:Hget; simpl.
  - rewrite (sync_updates_effect a d values Hnd).
    destruct (Dict.get values k) as [v |]; [| reflexivity].
    destruct (secret_neb (Some v) (Dict.get d k)) eqn:Hneb; [reflexivity |].
    apply secret_neb_false in Hneb.
    now rewrite (lookup_get_Some store a k d Hentry).
  - unfold lookup, Dict.get_default. rewrite DictFacts.get_set_same.
    destruct (Dict.get values k) as [v |]; [reflexivity |].
    now rewrite Hentry.
Qed.

Lemma sync_applications_effect (vault_secrets : Secrets)
    (L : list (string * Dict.t SecretStr)) :
  forall store,
    NoDup (Dict.keys L) ->
    (forall a values, In (a, values) L ->
       NoDup (Dict.keys values) /\ Dict.get store a = Dict.get vault_secrets a) ->
    forall a k,
      lookup (vault_run store (flat_map (sync_application_calls vault_secrets) L)) a k
      = match Dict.get L a with
        | Some values =>
            match Dict.get values k with
            | Some v => Some v
            | None => lookup store a k
            end
        | None => lookup store a k
        end.
Proof.
  induction L as [| [a0 values0] L IH]; intros store Hnd Hitems a k;
    [reflexivity |].
  unfold Dict.keys in Hnd. simpl in Hnd.
  inversion Hnd as [| ? ? Hfresh Hnd']; subst.
  destruct (Hitems a0 values0) as [Hvalues Hentry]; [now left |].
  cbn [flat_map]. rewrite vault_run_app.
  set (store1 := vault_run store (sync_application_calls vault_secrets (a0, values0))).
  assert (Hother : forall a', a' <> a0 -> Dict.get store1 a' = Dict.get store a').
  { intros a' Hne. apply vault_run_other. intros c Hc.
    apply sync_application_calls_target in Hc. congruence. }
  rewrite IH; [| exact Hnd' |].
  - cbn [Dict.get]. destruct (String.eqb_spec a a0) as [-> | Hne].
    + apply DictFacts.get_None_keys in Hfresh. rewrite Hfresh.
      now apply sync_application_calls_effect.
    + rewrite (lookup_of_get store store1 a k) by now apply Hother.
      reflexivity.
  - intros a' values' Hin. destruct (Hitems a' values') as [Hv He]; [now right |].
    split; [exact Hv |]. rewrite Hother; [exact He |].
    intros ->. apply Hfresh. now apply (in_map fst) in Hin.
Qed.

(** The pairs after [_sync_application_secrets]. *)
Lemma sync_application_secrets_lookup (vault_secrets : Secrets)
    (resolved : ResolvedSecrets) :
  wf_secrets (applications resolved) ->
  forall a k,
    lookup (vault_run vault_secrets (_sync_application_secrets vault_secrets resolved))
      a k
    = match lookup (applications resolved) a k with
      | Some v => Some v
      | None => lookup vault_secrets a k
      end.
Proof.
  intros [Houter Hinner] a k.
  rewrite sync_application_secrets_calls, sync_applications_effect.
  - destruct (Dict.get (applications resolved) a) as [values |] eqn:Hget.
    + now rewrite (lookup_get_Some _ _ k _ Hget).
    + now rewrite (lookup_get_None _ _ k Hget).
  - exact Houter.
  - intros a' values' Hin. split; [now apply (Hinner a') | reflexivity].
Qed.

Lemma flat_map_nil {A B : Type} (f : A -> list B) (l : list A) :
  (forall x, In x l -> f x = []) -> flat_map f l = [].
Proof.
  induction l as [| x l IH]; intros Hf; [reflexivity |]. simpl.
  rewrite (Hf x) by now left. apply IH. intros y Hy. apply Hf. now right.
Qed.

(** The calls made for one resolved application. *)
Lemma sync_application_calls_In (vault_secrets : Secrets) (a : string)
    (values : Dict.t SecretStr) (c : VaultCall) :
  In c (sync_application_calls vault_secrets (a, values)) ->
  (Dict.get vault_secrets a = None /\ c = store_application_secret a values)
  \/ (exists d k v,
        Dict.get vault_secrets a = Some d /\ In (k, v) values
        /\ secret_neb (Some v) (Dict.get d k) = true
        /\ c = update_application_secret a k v).
Proof.
  unfold sync_application_calls, Dict.mem, Dict.get_default.
  destruct (Dict.get vault_secrets a) as [d |]; cbn [negb].
  - intros Hin. apply in_flat_map in Hin. destruct Hin as ([k v] & Hkv & Hin).
    cbn [fst snd] in Hin. right. exists d, k, v.
    destruct (secret_neb (Some v) (Dict.get d k)); [| destruct Hin].
    destruct Hin as [<- | []]. auto.
  - intros [<- | []]. auto.
Qed.

(** X9: [_sync_application_secrets] writes nothing it does not have to: it
    stores a whole entry only for a resolved application the snapshot lacks,
    updates only a resolved pair whose value in the snapshot is absent or
    different, and deletes nothing. *)
Theorem sync_application_secrets_minimal (vault_secrets : Secrets)
    (resolved : ResolvedSecrets) (c : VaultCall) :
  wf_secrets (applications resolved) ->
  In c (_sync_application_secrets vault_secrets resolved) ->
  match c with
  | store_application_secret a values =>
      Dict.get vault_secrets a = None
      /\ Dict.get (applications resolved) a = Some values
  | update_application_secret a k v =>
      Dict.get vault_secrets a <> None
      /\ lookup (applications resolved) a k = Some v
      /\ lookup vault_secrets a k <> Some v
  | delete_application_secret _ => False
  end.
Proof.
  intros [Houter Hinner] Hin.
  rewrite sync_application_secrets_calls in Hin. apply in_flat_map in Hin.
  destruct Hin as ([a values] & Hitem & Hin).
  pose proof (DictFacts.In_get _ _ _ Houter Hitem) as Hget.
  apply sync_application_calls_In in Hin.
  destruct Hin as [[Hvault ->] | (d & k & v & Hvault & Hkv & Hneb & ->)].
  - auto.
  - split; [congruence | split].
    + rewrite (lookup_get_Some _ _ k _ Hget).
      apply DictFacts.In_get; [now apply (Hinner a) | exact Hkv].
    + rewrite (lookup_get_Some _ _ k _ Hvault). intros Heq.
      apply secret_neb_false in Heq. congruence.
Qed.

Lemma vault_run_stored (a : string) (values : Dict.t SecretStr)
    (calls : list VaultCall) :
  forall store,
    In (store_application_secret a values) calls ->
    ~ In (delete_application_secret a) calls ->
    Dict.mem (vault_run store calls) a = true.
Proof.
  induction calls as [| c calls IH]; intros store Hin Hnot; [destruct Hin |].
  simpl in *. destruct Hin as [-> | Hin].
  - apply vault_run_keeps; [tauto |]. simpl.
    apply DictFacts.mem_true_keys, DictFacts.In_keys_set. auto.
  - apply IH; tauto.
Qed.

(** Every resolved application has an entry after the sync. *)
Lemma sync_application_secrets_present (vault_secrets : Secrets)
    (resolved : ResolvedSecrets) (a : string) (values : Dict.t SecretStr) :
  In (a, values) (applications resolved) ->
  Dict.mem
    (vault_run vault_secrets (_sync_application_secrets vault_secrets resolved)) a
  = true.
Proof.
  intros Hitem. destruct (Dict.mem vault_secrets a) eqn:Hmem.
  - apply vault_run_keeps; [apply sync_application_secrets_no_delete | exact Hmem].
  - apply (vault_run_stored a values);
      [| apply sync_application_secrets_no_delete].
    rewrite sync_application_secrets_calls. apply in_flat_map.
    exists (a, values). split; [exact Hitem |].
    unfold sync_application_calls. rewrite Hmem. now left.
Qed.

(** X10: After [_sync_application_secrets] against the snapshot of the store,
    the store holds every resolved pair with its resolved value and every
    other pair as before, every resolved application has an entry, and the
    applications that are not resolved have the entry they had. *)
Theorem sync_application_secrets_effect (vault_secrets : Secrets)
    (resolved : ResolvedSecrets) :
  wf_secrets (applications resolved) ->
  let store :=
    vault_run vault_secrets (_sync_application_secrets vault_secrets resolved) in
  (forall a k,
     lookup store a k
     = match lookup (applications resolved) a k with
       | Some v => Some v
       | None => lookup vault_secrets a k
       end)
  /\ (forall a, Dict.mem (applications resolved) a = true ->
        Dict.mem store a = true)
  /\ (forall a, Dict.mem (applications resolved) a = false ->
        Dict.get store a = Dict.get vault_secrets a).
Proof.
  intros Hwf. cbv zeta. split; [| split].
  - now apply sync_application_secrets_lookup.
  - intros a Hmem. unfold Dict.mem in Hmem.
    destruct (Dict.get (applications resolved) a) as [values |] eqn:Hget;
      [| discriminate].
    apply (sync_application_secrets_present _ _ a values).
    now apply DictFacts.get_In.
  - intros a Hmem. apply vault_run_other. intros c Hc Heq.
    apply sync_application_secrets_targets in Hc. rewrite Heq in Hc.
    apply DictFacts.mem_true_keys in Hc. congruence.
Qed.

(** X11: A second [_sync_application_secrets] of the same resolved secrets,
    against the store the first one left, makes no call. *)
Theorem sync_application_secrets_idempotent (vault_secrets : Secrets)
    (resolved : ResolvedSecrets) :
  wf_secrets (applications resolved) ->
  _sync_application_secrets
    (vault_run vault_secrets (_sync_application_secrets vault_secrets resolved))
    resolved
  = [].
Proof.
  intros Hwf.
  set (store := vault_run vault_secrets
                  (_sync_application_secrets vault_secrets resolved)).
  rewrite sync_application_secrets_calls. apply flat_map_nil.
  intros [a values] Hitem. unfold sync_application_calls.
  unfold store at 1. rewrite (sync_application_secrets_present _ _ a values Hitem).
  simpl. apply flat_map_nil. intros [k v] Hkv. cbn [fst snd].
  assert (Hlook : lookup store a k = Some v).
  { unfold store. rewrite (sync_application_secrets_lookup _ _ Hwf).
    destruct Hwf as [Houter Hinner].
    rewrite (lookup_get_Some _ _ k _ (DictFacts.In_get _ _ _ Houter Hitem)).
    now rewrite (DictFacts.In_get values k v (Hinner a values Hitem) Hkv). }
  unfold lookup in Hlook. rewrite Hlook. simpl. now rewrite String.eqb_refl.
Qed.

(** ** What the sync of the pull secret does to Vault *)

Section PullSecretSync.
Variable to_dockerconfigjson : PullSecret -> string.

(** X12: After [_sync_pull_secret] against the snapshot of the store, the entry
    of [pull-secret] is exactly the one-key composite, every other
    application is untouched, and a second run makes no call. *)
Theorem sync_pull_secret_effect (vault_secrets : Secrets) (pull : PullSecret) :
  let composite := [(".dockerconfigjson", to_dockerconfigjson pull)] in
  let store :=
    vault_run vault_secrets
      (_sync_pull_secret to_dockerconfigjson vault_secrets pull) in
  Dict.get store "pull-secret" = Some composite
  /\ (forall a, a <> "pull-secret" -> Dict.get store a = Dict.get vault_secrets a)
  /\ _sync_pull_secret to_dockerconfigjson store pull = [].
Proof.
  cbv zeta.
  assert (Hentry : Dict.get
                     (vault_run vault_secrets
                        (_sync_pull_secret to_dockerconfigjson vault_secrets pull))
                     "pull-secret"
                   = Some [(".dockerconfigjson", to_dockerconfigjson pull)]).
  { unfold _sync_pull_secret.
    destruct (Dict.get vault_secrets "pull-secret") as [current |] eqn:Hget.
    - destruct (Dict.eqb String.eqb _ current) eqn:Heq; simpl.
      + apply eqb_singleton in Heq. now rewrite Hget, Heq.
      + apply DictFacts.get_set_same.
    - simpl. apply DictFacts.get_set_same. }
  split; [exact Hentry | split].
  - intros a Hne. apply vault_run_other. intros c Hc.
    unfold _sync_pull_secret in Hc.
    destruct (Dict.get vault_secrets "pull-secret") as [current |].
    + destruct (negb _); [| destruct Hc]. destruct Hc as [<- | []]. simpl. congruence.
    + destruct Hc as [<- | []]. simpl. congruence.
  - unfold _sync_pull_secret at 1. rewrite Hentry.
    now rewrite (proj2 (eqb_singleton _ _ _) eq_refl).
Qed.

End PullSecretSync.

(** ** What cleaning does to Vault *)

Lemma clean_vault_secrets_calls (vault_secrets : Secrets)
    (resolved : ResolvedSecrets) (has_pull_secret : bool) :
  _clean_vault_secrets vault_secrets resolved has_pull_secret
  = flat_map (clean_application_calls resolved has_pull_secret) vault_secrets.
Proof.
  unfold _clean_vault_secrets. apply flat_map_ext. now intros [a values].
Qed.

Lemma clean_application_calls_target (resolved : ResolvedSecrets)
    (has_pull_secret : bool) (a : string) (values : Dict.t SecretStr)
    (c : VaultCall) :
  In c (clean_application_calls resolved has_pull_secret (a, values)) ->
  call_target c = a.
Proof.
  unfold clean_application_calls.
  destruct (Dict.get (applications resolved) a) as [expected |].
  - destruct (filter _ _); [intros [] | now intros [<- | []]].
  - destruct (_ && _); [intros [] | now intros [<- | []]].
Qed.

Lemma get_filter_keys {V : Type} (p : string -> bool) (d : Dict.t V) (k : string) :
  Dict.get (filter (fun kv => p (fst kv)) d) k
  = if p k then Dict.get d k else None.
Proof.
  induction d as [| [k0 v0] d IH]; simpl; [now destruct (p k) |].
  destruct (String.eqb_spec k k0) as [-> | Hne].
  - destruct (p k0) eqn:Hp; simpl.
    + now rewrite String.eqb_refl.
    + exact IH.
  - destruct (p k0); simpl; [| exact IH].
    destruct (String.eqb_spec k k0); [congruence | exact IH].
Qed.

Lemma filter_keys_none {V : Type} (p : string -> bool) (d : Dict.t V) :
  filter (fun k => negb (p k)) (Dict.keys d) = [] ->
  filter (fun kv => p (fst kv)) d = d.
Proof.
  induction d as [| [k0 v0] d IH]; [reflexivity |]. simpl.
  destruct (p k0); simpl; [| discriminate]. intros H. now rewrite IH.
Qed.

Lemma filter_keys_kept {V : Type} (p : string -> bool) (d : Dict.t V) :
  filter (fun k => negb (p k)) (Dict.keys (filter (fun kv => p (fst kv)) d)) = [].
Proof.
  induction d as [| [k0 v0] d IH]; [reflexivity |]. simpl.
  destruct (p k0) eqn:Hp; simpl; [now rewrite Hp |]. exact IH.
Qed.

Lemma vault_run_wf (calls : list VaultCall) :
  forall store, Dict.wf store -> Dict.wf (vault_run store calls).
Proof.
  induction calls as [| c calls IH]; intros store Hwf; [exact Hwf |].
  simpl. apply IH. destruct c as [a values | a k s | a]; simpl.
  - now apply DictFacts.wf_set.
  - now apply DictFacts.wf_set.
  - now apply DictFacts.wf_del.
Qed.

(** One application of the snapshot, on a store that still has its entry. *)
Lemma clean_application_calls_effect (resolved : ResolvedSecrets)
    (has_pull_secret : bool) (store : Secrets) (a : string)
    (values : Dict.t SecretStr) :
  Dict.wf store -> Dict.get store a = Some values ->
  Dict.get
    (vault_run store (clean_application_calls resolved has_pull_secret (a, values)))
    a
  = cleaned_entry resolved has_pull_secret a values.
Proof.
  intros Hwf Hget. unfold clean_application_calls, cleaned_entry.
  destruct (Dict.get (applications resolved) a) as [expected |].
  - destruct (filter (fun k => negb (Dict.mem expected k)) (Dict.keys values))
      eqn:Hdel; simpl.
    + rewrite Hget. f_equal. symmetry. now apply filter_keys_none.
    + apply DictFacts.get_set_same.
  - destruct (_ && _); simpl; [exact Hget |].
    now apply DictFacts.get_del_same.
Qed.

Lemma clean_applications_effect (resolved : ResolvedSecrets) (has_pull_secret : bool)
    (L : list (string * Dict.t SecretStr)) :
  forall store,
    NoDup (Dict.keys L) -> Dict.wf store ->
    (forall a values, In (a, values) L -> Dict.get store a = Some values) ->
    forall a,
      Dict.get
        (vault_run store
           (flat_map (clean_application_calls resolved has_pull_secret) L))
        a
      = match Dict.get L a with
        | Some values => cleaned_entry resolved has_pull_secret a values
        | None => Dict.get store a
        end.
Proof.
  induction L as [| [a0 values0] L IH]; intros store Hnd Hwf Hitems a;
    [reflexivity |].
  unfold Dict.keys in Hnd. simpl in Hnd.
  inversion Hnd as [| ? ? Hfresh Hnd']; subst.
  cbn [flat_map]. rewrite vault_run_app.
  set (store1 := vault_run store
                   (clean_application_calls resolved has_pull_secret (a0, values0))).
  assert (Hother : forall a', a' <> a0 -> Dict.get store1 a' = Dict.get store a').
  { intros a' Hne. apply vault_run_other. intros c Hc.
    apply clean_application_calls_target in Hc. congruence. }
  rewrite IH; [| exact Hnd' | now apply vault_run_wf |].
  - cbn [Dict.get]. destruct (String.eqb_spec a a0) as [-> | Hne].
    + apply DictFacts.get_None_keys in Hfresh. rewrite Hfresh.
      apply clean_application_calls_effect; [exact Hwf |].
      apply Hitems. now left.
    + rewrite (Hother a Hne). reflexivity.
  - intros a' values' Hin. rewrite Hother; [apply Hitems; now right |].
    intros ->. apply Hfresh. now apply (in_map fst) in Hin.
Qed.

(** The entries after [_clean_vault_secrets]. *)
Lemma clean_vault_secrets_entries (vault_secrets : Secrets)
    (resolved : ResolvedSecrets) (has_pull_secret : bool) :
  Dict.wf vault_secrets ->
  forall a,
    Dict.get
      (vault_run vault_secrets
         (_clean_vault_secrets vault_secrets resolved has_pull_secret)) a
    = match Dict.get vault_secrets a with
      | Some values => cleaned_entry resolved has_pull_secret a values
      | None => None
      end.
Proof.
  intros Hwf a. rewrite clean_vault_secrets_calls, clean_applications_effect.
  - now destruct (Dict.get vault_secrets a).
  - exact Hwf.
  - exact Hwf.
  - intros a' values' Hin. now apply DictFacts.In_get.
Qed.

(** X13: After [_clean_vault_secrets] against the snapshot of the store, an
    application of the snapshot that is not resolved is gone, unless it is
    [pull-secret] and a pull secret is expected, in which case it is
    untouched; a resolved application keeps exactly its resolved keys, in
    order and with the values the snapshot had; nothing else appears. *)
Theorem clean_vault_secrets_effect (vault_secrets : Secrets)
    (resolved : ResolvedSecrets) (has_pull_secret : bool) :
  Dict.wf vault_secrets ->
  let store :=
    vault_run vault_secrets
      (_clean_vault_secrets vault_secrets resolved has_pull_secret) in
  (forall a,
     Dict.get store a
     = match Dict.get vault_secrets a with
       | Some values => cleaned_entry resolved has_pull_secret a values
       | None => None
       end)
  /\ (forall a k,
        lookup store a k
        = match Dict.get (applications resolved) a with
          | Some expected =>
              if Dict.mem expected k then lookup vault_secrets a k else None
          | None =>
              if String.eqb a "pull-secret" && has_pull_secret
              then lookup vault_secrets a k
              else None
          end).
Proof.
  intros Hwf. cbv zeta.
  pose proof (clean_vault_secrets_entries vault_secrets resolved
                has_pull_secret Hwf) as Hentries.
  split; [exact Hentries |].
  intros a k. unfold lookup at 1. unfold Dict.get_default. rewrite Hentries.
  destruct (Dict.get vault_secrets a) as [values |] eqn:Hget.
  - rewrite (lookup_get_Some _ _ k _ Hget). unfold cleaned_entry.
    destruct (Dict.get (applications resolved) a) as [expected |].
    + apply get_filter_keys.
    + now destruct (_ && _).
  - rewrite (lookup_get_None _ _ k Hget).
    destruct (Dict.get (applications resolved) a) as [expected |].
    + now destruct (Dict.mem expected k).
    + now destruct (_ && _).
Qed.

(** X14: A second [_clean_vault_secrets] for the same resolved secrets, against
    the store the first one left, makes no call. *)
Theorem clean_vault_secrets_idempotent (vault_secrets : Secrets)
    (resolved : ResolvedSecrets) (has_pull_secret : bool) :
  Dict.wf vault_secrets ->
  _clean_vault_secrets
    (vault_run vault_secrets
       (_clean_vault_secrets vault_secrets resolved has_pull_secret))
    resolved has_pull_secret
  = [].
Proof.
  intros Hwf.
  pose proof (clean_vault_secrets_entries vault_secrets resolved
                has_pull_secret Hwf) as Hentries.
  set (store := vault_run vault_secrets
                  (_clean_vault_secrets vault_secrets resolved has_pull_secret))
    in *.
  assert (Hstore : Dict.wf store) by now apply vault_run_wf.
  rewrite clean_vault_secrets_calls. apply flat_map_nil.
  intros [a values'] Hin.
  pose proof (DictFacts.In_get _ _ _ Hstore Hin) as Hget.
  rewrite Hentries in Hget.
  destruct (Dict.get vault_secrets a) as [values |]; [| discriminate].
  unfold cleaned_entry in Hget. unfold clean_application_calls.
  destruct (Dict.get (applications resolved) a) as [expected |].
  - injection Hget as <-. now rewrite filter_keys_kept.
  - destruct (_ && _); [reflexivity | discriminate].
Qed.

(** ** What [sync] without deletion does to Vault *)

Section SyncWithoutDelete.
Context {Rng : Type} {G : Generator Rng}.
Variable to_dockerconfigjson : PullSecret -> string.

Lemma sync_pull_secret_calls (vault_secrets : Secrets) (pull : PullSecret)
    (c : VaultCall) :
  In c (_sync_pull_secret to_dockerconfigjson vault_secrets pull) ->
  c = store_application_secret "pull-secret"
        [(".dockerconfigjson", to_dockerconfigjson pull)].
Proof.
  unfold _sync_pull_secret.
  destruct (Dict.get vault_secrets "pull-secret") as [current |].
  - destruct (negb _); [| intros []]. now intros [<- | []].
  - now intros [<- | []].
Qed.

(** The calls of [sync] without deletion. *)
Lemma sync_calls_without_delete (vault_secrets : Secrets)
    (resolved : ResolvedSecrets) :
  sync_calls to_dockerconfigjson vault_secrets resolved false
  = _sync_application_secrets vault_secrets resolved
    ++ match synced_pull_secret resolved with
       | Some pull => _sync_pull_secret to_dockerconfigjson vault_secrets pull
       | None => []
       end.
Proof.
  unfold sync_calls, synced_pull_secret. rewrite app_nil_r.
  destruct (pull_secret resolved) as [pull |]; [| reflexivity].
  now destruct (registries pull).
Qed.

(** The pairs [sync] without deletion leaves as the application sync left
    them. *)
Lemma sync_calls_lookup (vault_secrets : Secrets) (resolved : ResolvedSecrets) :
  wf_secrets (applications resolved) ->
  forall a k,
    a <> "pull-secret" \/ synced_pull_secret resolved = None ->
    lookup
      (vault_run vault_secrets
         (sync_calls to_dockerconfigjson vault_secrets resolved false))
      a k
    = match lookup (applications resolved) a k with
      | Some v => Some v
      | None => lookup vault_secrets a k
      end.
Proof.
  intros Hwf a k Hcase. rewrite sync_calls_without_delete, vault_run_app.
  rewrite <- (sync_application_secrets_lookup vault_secrets resolved Hwf a k).
  destruct (synced_pull_secret resolved) as [pull |]; [| reflexivity].
  apply lookup_of_get. apply vault_run_other. intros c Hc.
  apply sync_pull_secret_calls in Hc. subst c. simpl.
  destruct Hcase as [Hne | Hnone]; congruence.
Qed.

(** The entry of the pull secret after [sync] without deletion. *)
Lemma sync_calls_pull_entry (vault_secrets : Secrets) (resolved : ResolvedSecrets)
    (pull : PullSecret) :
  synced_pull_secret resolved = Some pull ->
  Dict.get (applications resolved) "pull-secret" = None ->
  Dict.get
    (vault_run vault_secrets
       (sync_calls to_dockerconfigjson vault_secrets resolved false))
    "pull-secret"
  = Some [(".dockerconfigjson", to_dockerconfigjson pull)].
Proof.
  intros Hpull Habsent. rewrite sync_calls_without_delete, vault_run_app, Hpull.
  assert (Hsame : Dict.get
                    (vault_run vault_secrets
                       (_sync_application_secrets vault_secrets resolved))
                    "pull-secret" = Dict.get vault_secrets "pull-secret").
  { apply vault_run_other. intros c Hc Heq.
    apply sync_application_secrets_targets in Hc. rewrite Heq in Hc.
    apply DictFacts.get_In_keys in Hc. congruence. }
  unfold _sync_pull_secret.
  destruct (Dict.get vault_secrets "pull-secret") as [current |] eqn:Hget.
  - destruct (Dict.eqb String.eqb _ current) eqn:Heq; simpl.
    + apply eqb_singleton in Heq. now rewrite Hsame, Heq.
    + apply DictFacts.get_set_same.
  - simpl. apply DictFacts.get_set_same.
Qed.

Lemma sync_calls_no_delete (vault_secrets : Secrets) (resolved : ResolvedSecrets)
    (a : string) :
  ~ In (delete_application_secret a)
      (sync_calls to_dockerconfigjson vault_secrets resolved false).
Proof.
  rewrite sync_calls_without_delete. intros Hin.
  apply in_app_iff in Hin. destruct Hin as [Hin | Hin].
  - now apply sync_application_secrets_no_delete in Hin.
  - destruct (synced_pull_secret resolved) as [pull |]; [| destruct Hin].
    apply sync_pull_secret_calls in Hin. discriminate.
Qed.

(** X15: When [sync] returns with [delete = false], it has deleted nothing;
    every pair of an application other than [pull-secret] has its resolved
    value if it is resolved and the value it had otherwise, and so do the
    pairs of [pull-secret] when no pull secret is written; when one is
    written and [pull-secret] is not a resolved application, its entry is
    exactly the serialised pull secret. *)
Theorem sync_without_delete_effect (secrets : list Secret)
    (onepassword : option StaticSecrets) (store : Secrets)
    (static_secrets : option StaticSecrets) (regenerate : bool) (rng : Rng)
    (r : SyncResult) :
  sync to_dockerconfigjson secrets onepassword store static_secrets
    regenerate false rng = Resolved r ->
  let resolved := sync_resolved r in
  (forall a, ~ In (delete_application_secret a) (sync_made r))
  /\ (forall a k,
        a <> "pull-secret" \/ synced_pull_secret resolved = None ->
        lookup (sync_store r) a k
        = match lookup (applications resolved) a k with
          | Some v => Some v
          | None => lookup store a k
          end)
  /\ (forall pull,
        synced_pull_secret resolved = Some pull ->
        Dict.get (applications resolved) "pull-secret" = None ->
        Dict.get (sync_store r) "pull-secret"
        = Some [(".dockerconfigjson", to_dockerconfigjson pull)]).
Proof.
  intros Hsync. cbv zeta. unfold sync in Hsync.
  destruct (_resolve_secrets secrets store _ regenerate rng)
    as [[resolved rng'] | l |] eqn:Hres; try discriminate.
  injection Hsync as <-. cbn [sync_resolved sync_made sync_store].
  pose proof (resolve_secrets_wf _ _ _ _ _ _ _ Hres) as Hwf.
  split; [| split].
  - intros a. apply sync_calls_no_delete.
  - now apply sync_calls_lookup.
  - intros pull. apply sync_calls_pull_entry.
Qed.

End SyncWithoutDelete.

(** ** A second sync *)

(** Convergence of the loop from any account of what a declaration needs:
    [needs d] lists pairs whose presence in the table makes [d] resolve,
    and [rank] orders the declarations so that every need is declared with
    a smaller rank. *)
Section ConvergenceByNeeds.
Context {Rng : Type} {G : Generator Rng}.
Variables (vault_secrets : Secrets) (static_secrets : StaticSecrets)
  (regenerate : bool).
Variables (secrets : list Secret) (needs : Secret -> list (string * string))
  (rank : Secret -> nat) (N : nat).
Hypothesis Hranked :
  forall d, In d secrets ->
    rank d < N
    /\ forall p, In p (needs d) ->
         exists d', In d' secrets /\ secret_id d' = p /\ rank d' < rank d.
Hypothesis Hready :
  forall d T rng, In d secrets ->
    (forall p, In p (needs d) -> has T p) ->
    truthy (fst (_resolve_secret d T (current_value_of vault_secrets d)
                   (static_value_of static_secrets d) regenerate rng)) = true.

Lemma ready_not_pending (P : list Secret) (T : Secrets) (rng : Rng)
    T' rng' P' (d : Secret) :
  resolve_pass vault_secrets static_secrets regenerate P T rng = (T', rng', P') ->
  In d secrets ->
  (forall p, In p (needs d) -> has T p) ->
  ~ In d P'.
Proof.
  intros Hpass Hd Hneeds Hin.
  destruct (resolve_pass_failed _ _ _ _ _ _ _ _ _ Hpass d Hin)
    as (T1 & rng1 & Hmono & Hfail).
  rewrite Hready in Hfail; [discriminate | assumption |].
  intros p Hp. apply Hmono. now apply Hneeds.
Qed.

Lemma needs_settled (T : Secrets) (P : list Secret) (d : Secret) :
  settled secrets T P -> In d secrets ->
  (forall d', In d' P -> rank d <= rank d') ->
  forall p, In p (needs d) -> has T p.
Proof.
  intros Hsettled Hd Hleast p Hp.
  destruct (Hranked d Hd) as [_ Hneeds].
  destruct (Hneeds p Hp) as (d' & Hd' & <- & Hlt).
  destruct (Hsettled d' Hd') as [Hin | Hhas]; [| exact Hhas].
  specialize (Hleast d' Hin). lia.
Qed.

Lemma resolve_loop_converges_by_needs :
  forall fuel i T rng P,
    incl P secrets -> settled secrets T P ->
    (forall d, In d P -> i <= rank d) ->
    N <= i + fuel ->
    exists T' rng',
      resolve_loop vault_secrets static_secrets regenerate fuel T rng P (length P)
        = Resolved (T', rng').
Proof.
  induction fuel as [| fuel IH]; intros i T rng P Hincl Hsettled Hrank Hfuel.
  - destruct P as [| c rest]; [now exists T, rng |].
    assert (Hc : In c secrets) by (apply Hincl; now left).
    destruct (Hranked c Hc) as [Hlt _].
    assert (i <= rank c) by (apply Hrank; now left). lia.
  - destruct P as [| c rest]; [now exists T, rng |].
    rewrite resolve_loop_step.
    destruct (resolve_pass vault_secrets static_secrets regenerate (c :: rest) T rng)
      as [[T' rng'] P'] eqn:Hpass.
    assert (Hincl' : incl P' secrets).
    { intros x Hx. apply Hincl. eapply resolve_pass_incl; eassumption. }
    assert (Hsettled' : settled secrets T' P').
    { apply (resolve_pass_invariant vault_secrets static_secrets regenerate
               (settled secrets)) with (Q := []) (P := c :: rest) (T := T)
               (rng := rng) (rng' := rng'); auto.
      intros T0 Q c0 rest0 rng0 s HJ _ Hs. now apply settled_assign. }
    assert (Hrank' : forall d, In d P' -> S i <= rank d).
    { intros d Hd.
      assert (HdP : In d (c :: rest)) by (eapply resolve_pass_incl; eassumption).
      pose proof (Hrank d HdP) as Hle.
      destruct (Nat.eq_dec (rank d) i) as [Heq | Hne]; [| lia].
      exfalso.
      apply (ready_not_pending _ _ _ _ _ _ d Hpass); auto.
      apply needs_settled with (P := c :: rest); auto.
      intros d' Hd'. specialize (Hrank d' Hd'). lia. }
    destruct (Nat.leb_spec (length (c :: rest)) (length P')) as [Hstall | Hprogress].
    + exfalso.
      destruct (exists_least_rank rank (c :: rest)) as (m & Hm & Hleast);
        [discriminate |].
      apply (ready_not_pending _ _ _ _ _ _ m Hpass); auto.
      * apply needs_settled with (P := c :: rest); auto.
      * destruct (resolve_pass_length _ _ _ _ _ _ _ _ _ Hpass) as [_ Hsame].
        destruct (Hsame Hstall) as [-> _]. exact Hm.
    + apply (IH (S i)); auto. lia.
Qed.

End ConvergenceByNeeds.

Lemma exists_rank_bound (rank : Secret -> nat) (l : list Secret) :
  exists N, forall d, In d l -> rank d < N.
Proof.
  induction l as [| c l [N HN]]; [exists 0; intros d [] |].
  exists (S (Nat.max N (rank c))). intros d [<- | Hd]; [lia |].
  specialize (HN d Hd). lia.
Qed.

Section CopyOrder.
Context {Rng : Type} {G : Generator Rng}.
Variables (secrets : list Secret) (vault_secrets : Secrets)
  (static_secrets : option StaticSecrets) (regenerate : bool).
Hypothesis Hdistinct : NoDup (map secret_id secrets).

(** When [_resolve_secrets] returns, the copy rules that decided are well
    founded: the declarations can be ranked so that each copied pair is
    declared with a smaller rank than its copy. *)
Lemma resolved_copies_ranked (rng : Rng) (R : ResolvedSecrets) (rng' : Rng) :
  _resolve_secrets secrets vault_secrets static_secrets regenerate rng
    = Resolved (R, rng') ->
  exists rank : Secret -> nat,
    forall d, In d secrets ->
      forall p, In p (copy_needs d) ->
        exists d', In d' secrets /\ secret_id d' = p /\ rank d' < rank d.
Proof.
  intros Hres.
  pose (K := fun (T : Secrets) (X : list Secret) =>
               origin secrets T X
               /\ exists rank : Secret -> nat,
                    forall d, In d secrets -> ~ In d X ->
                      forall p, In p (copy_needs d) ->
                        exists d', In d' secrets /\ secret_id d' = p
                                   /\ ~ In d' X /\ rank d' < rank d).
  pose proof (resolve_secrets_invariant secrets vault_secrets static_secrets
                regenerate K rng) as Hinv.
  rewrite Hres in Hinv.
  destruct Hinv as [_ [rank Hrank]].
  - intros T Q c rest rng0 s [Horigin [rank Hrank]] Hs _.
    split; [now apply origin_assign |].
    assert (HcX : In c (Q ++ c :: rest)).
    { rewrite in_app_iff. simpl. auto. }
    assert (Hcin : In c secrets) by now apply Horigin.
    assert (Hnew : ~ In c (Q ++ rest)).
    { destruct Horigin as (_ & Hnd & _). rewrite map_app in Hnd. simpl in Hnd.
      apply NoDup_remove_2 in Hnd. rewrite <- map_app in Hnd.
      intros Hin. apply Hnd. now apply in_map. }
    assert (Hkeep : forall d, In d secrets -> ~ In d (Q ++ rest) -> d <> c ->
              ~ In d (Q ++ c :: rest)).
    { intros d Hd Hnot Hne Hin. apply In_app_middle in Hin. tauto. }
    assert (Hids : forall d, In d secrets -> ~ In d (Q ++ c :: rest) ->
              secret_id d <> secret_id c).
    { intros d Hd Hnot Heq. apply Hnot.
      now rewrite (NoDup_map_injective secret_id secrets Hdistinct d c). }
    assert (Hid_dec : forall d, {secret_id d = secret_id c} + {secret_id d <> secret_id c}).
    { intros d. unfold secret_id.
      destruct (string_dec (application d) (application c));
        [destruct (string_dec (key d) (key c)) |];
        [left; congruence | right; congruence | right; congruence]. }
    destruct (copy_needs c) as [| p0 others] eqn:Hneeds.
    + exists rank. intros d Hd Hnot p Hp.
      assert (Hne : d <> c) by (intros ->; rewrite Hneeds in Hp; destruct Hp).
      destruct (Hrank d Hd (Hkeep d Hd Hnot Hne) p Hp) as (d' & Hd' & Hid & Hout & Hlt).
      exists d'. repeat split; auto. intros Hin. apply Hout. now apply In_app_skip.
    + assert (Hsource : exists d', In d' secrets /\ secret_id d' = p0
                                   /\ ~ In d' (Q ++ c :: rest)
                                   /\ copy_needs c = [p0]).
      { unfold copy_needs in Hneeds |- *.
        destruct (truthy (value c)) eqn:Hv; [discriminate |].
        destruct (copy_rules c) as [rules |] eqn:Hc; [| discriminate].
        injection Hneeds as <- <-.
        apply (resolve_secret_copy _ _ _ _ _ _ rules s Hv Hc) in Hs.
        destruct Horigin as (_ & _ & Htable).
        destruct (Htable _ _ _ Hs) as (d' & Hd' & Hid & Hout).
        exists d'. auto. }
      destruct Hsource as (d0 & Hd0 & Hid0 & Hout0 & Hone).
      exists (fun x => if Hid_dec x then S (rank d0) else rank x).
      intros d Hd Hnot p Hp.
      destruct (Hid_dec d) as [Heq | Hne].
      * assert (d = c) as ->
          by now apply (NoDup_map_injective secret_id secrets Hdistinct).
        rewrite Hone in Hp. destruct Hp as [<- | []].
        exists d0. repeat split; auto.
        -- intros Hin. apply Hout0. now apply In_app_skip.
        -- destruct (Hid_dec d0) as [Heq0 | _]; [| lia].
           now destruct (Hids d0 Hd0 Hout0).
      * assert (Hdc : d <> c) by congruence.
        destruct (Hrank d Hd (Hkeep d Hd Hnot Hdc) p Hp)
          as (d' & Hd' & Hid & Hout & Hlt).
        exists d'. repeat split; auto.
        -- intros Hin. apply Hout. now apply In_app_skip.
        -- destruct (Hid_dec d') as [Heq' | _]; [| exact Hlt].
           now destruct (Hids d' Hd' Hout).
  - split; [now apply origin_start |].
    exists (fun _ => 0). intros d Hd Hnot. contradiction.
  - exists rank. intros d Hd p Hp.
    destruct (Hrank d Hd (fun H => H) p Hp) as (d' & Hd' & Hid & _ & Hlt).
    exists d'. auto.
Qed.

End CopyOrder.

Section SecondResolution.
Context {Rng : Type} {G : Generator Rng}.
Variables (secrets : list Secret) (vault_secrets : Secrets)
  (static_secrets : option StaticSecrets).
Variables (regenerate : bool) (rng : Rng) (R : ResolvedSecrets) (rng' : Rng).
Hypothesis Hdistinct : NoDup (map secret_id secrets).
Hypothesis Hfirst :
  _resolve_secrets secrets vault_secrets static_secrets regenerate rng
    = Resolved (R, rng').

(** A Vault that holds every resolved value. *)
Variable vault_after : Secrets.
Hypothesis Hafter :
  forall a k v, lookup (applications R) a k = Some v ->
    lookup vault_after a k = Some v.

Lemma resolve_secrets_pull_secret (secrets0 : list Secret) (vault0 : Secrets)
    (regenerate0 : bool) (rng0 : Rng) (R0 : ResolvedSecrets) (rng0' : Rng) :
  _resolve_secrets secrets0 vault0 static_secrets regenerate0 rng0
    = Resolved (R0, rng0') ->
  pull_secret R0 = static_pull_secret (statics_or_empty static_secrets).
Proof.
  intros Hres. unfold _resolve_secrets in Hres.
  rewrite resolve_secrets_fuel_loop in Hres.
  destruct (resolve_loop _ _ _ _ _ _ _ _) as [[T rng1] | l |]; try discriminate.
  now injection Hres as <- _.
Qed.

(** Every declaration finds its resolved value as current value. *)
Lemma current_value_after (d : Secret) :
  In d secrets ->
  exists s, lookup (applications R) (application d) (key d) = Some s
            /\ secret_truthy s = true
            /\ current_value_of vault_after d = Some s.
Proof.
  intros Hd. pose proof (resolve_secrets_complete _ _ _ _ _ _ _ Hfirst d Hd) as Hhas.
  unfold has, secret_id, truthy in Hhas. cbn [fst snd] in Hhas.
  destruct (lookup (applications R) (application d) (key d)) as [s |] eqn:Hlook;
    [| discriminate].
  exists s. repeat split; auto. unfold current_value_of. now apply Hafter.
Qed.

Lemma second_resolution_ready (d : Secret) (T : Secrets) (rng0 : Rng) :
  In d secrets ->
  (forall p, In p (copy_needs d) -> has T p) ->
  truthy (fst (_resolve_secret d T (current_value_of vault_after d)
                 (static_value_of (statics_or_empty static_secrets) d)
                 false rng0)) = true.
Proof.
  intros Hd Hneeds.
  destruct (current_value_after d Hd) as (s & _ & Hs & Hcur).
  unfold copy_needs in Hneeds. unfold _resolve_secret. rewrite Hcur.
  destruct (truthy (value d)) eqn:Hv; [exact Hv |].
  destruct (copy_rules d) as [rules |].
  - assert (Hsrc : has T (copy_application rules, copy_key rules)).
    { apply Hneeds. now left. }
    unfold has in Hsrc. simpl in Hsrc. now rewrite Hsrc.
  - destruct (generate d) as [rules |].
    + simpl. now rewrite Hs.
    + simpl. destruct (truthy (static_value_of _ d)) eqn:Hst; [exact Hst | exact Hs].
Qed.

(** The second resolution returns. *)
Lemma second_resolution_returns (rng2 : Rng) :
  exists R2 rng2',
    _resolve_secrets secrets vault_after static_secrets false rng2
      = Resolved (R2, rng2').
Proof.
  destruct (resolved_copies_ranked secrets vault_secrets static_secrets regenerate
              Hdistinct rng R rng' Hfirst) as [rank Hrank].
  destruct (exists_rank_bound rank secrets) as [N HN].
  destruct (resolve_loop_converges_by_needs vault_after
              (statics_or_empty static_secrets) false secrets copy_needs rank N)
    with (fuel := N) (i := 0) (T := @nil (string * Dict.t SecretStr))
         (rng := rng2) (P := secrets)
    as (T & rng2' & Hloop).
  - intros d Hd. split; [now apply HN | now apply Hrank].
  - intros d T rng0 Hd Hneeds. now apply second_resolution_ready.
  - apply incl_refl.
  - intros d Hd. now left.
  - intros d _. lia.
  - lia.
  - exists (mkResolved T (static_pull_secret (statics_or_empty static_secrets))),
      rng2'.
    pose proof (resolve_secrets_total secrets vault_after static_secrets false rng2)
      as Htotal.
    unfold _resolve_secrets in *. rewrite resolve_secrets_fuel_loop in *.
    rewrite (resolve_loop_fuel_irrelevant _ _ _ (length secrets) N).
    + now rewrite Hloop.
    + intros Hout. apply Htotal. now rewrite Hout.
    + rewrite Hloop. discriminate.
Qed.

(** What the second resolution gives a declaration is what the first
    gave. *)
Lemma second_resolution_value (d : Secret) (T : Secrets) (rng0 : Rng)
    (s : SecretStr) :
  In d secrets ->
  (forall a k v, lookup T a k = Some v -> lookup (applications R) a k = Some v) ->
  fst (_resolve_secret d T (current_value_of vault_after d)
         (static_value_of (statics_or_empty static_secrets) d) false rng0)
    = Some s ->
  secret_truthy s = true ->
  lookup (applications R) (application d) (key d) = Some s.
Proof.
  intros Hd Hsub Hval Hs.
  destruct (current_value_after d Hd) as (s1 & Hlook1 & Hs1 & Hcur).
  destruct (resolve_secrets_values secrets vault_secrets static_secrets regenerate
              Hdistinct rng R rng' Hfirst d Hd)
    as (T0 & rng1 & s0 & Hsub0 & Hval0 & _ & Hlook0).
  rewrite Hlook0. f_equal.
  unfold _resolve_secret in Hval, Hval0. rewrite Hcur in Hval.
  destruct (truthy (value d)) eqn:Hv.
  - simpl in *. congruence.
  - destruct (copy_rules d) as [rules |].
    + destruct (truthy (lookup T (copy_application rules) (copy_key rules)));
        [| discriminate].
      destruct (truthy (lookup T0 (copy_application rules) (copy_key rules)));
        [| discriminate].
      simpl in *. apply Hsub in Hval. apply Hsub0 in Hval0. congruence.
    + destruct (generate d) as [rules |].
      * simpl in Hval. rewrite Hs1 in Hval. simpl in Hval. congruence.
      * simpl in *.
        destruct (truthy (static_value_of (statics_or_empty static_secrets) d));
          congruence.
Qed.

Lemma second_resolution_values (rng2 : Rng) (R2 : ResolvedSecrets) (rng2' : Rng) :
  _resolve_secrets secrets vault_after static_secrets false rng2
    = Resolved (R2, rng2') ->
  forall a k, lookup (applications R2) a k = lookup (applications R) a k.
Proof.
  intros Hsecond.
  assert (Hsub : forall a k v, lookup (applications R2) a k = Some v ->
                   lookup (applications R) a k = Some v).
  { pose proof (resolve_secrets_invariant secrets vault_after static_secrets false
                  (fun T X => incl X secrets
                     /\ forall a k v, lookup T a k = Some v ->
                          lookup (applications R) a k = Some v)
                  rng2) as Hinv.
    rewrite Hsecond in Hinv. apply Hinv.
    - intros T Q c rest rng0 s [Hincl Hsub] Hval Hs. split.
      + intros x Hx. apply Hincl. now apply In_app_skip.
      + intros a k v Hlook.
        destruct (lookup_assign_Some _ _ _ _ _ _ _ Hlook) as [[= -> ->] | Hold];
          [| now apply Hsub].
        rewrite DictFacts.lookup_assign_same in Hlook. injection Hlook as <-.
        apply (second_resolution_value c T rng0 s); auto.
        apply Hincl. rewrite in_app_iff. simpl. auto.
    - split; [apply incl_refl | discriminate]. }
  intros a k.
  destruct (lookup (applications R2) a k) as [v |] eqn:Hlook2;
    [symmetry; now apply Hsub |].
  destruct (lookup (applications R) a k) as [v |] eqn:Hlook1; [| reflexivity].
  destruct (resolve_secrets_declared _ _ _ _ _ _ _ Hfirst a k v Hlook1)
    as (d & Hd & Hid).
  pose proof (resolve_secrets_complete _ _ _ _ _ _ _ Hsecond d Hd) as Hhas.
  unfold has in Hhas. rewrite Hid in Hhas. simpl in Hhas.
  rewrite Hlook2 in Hhas. discriminate.
Qed.

(** The second resolution draws no randomness. *)
Lemma second_resolution_quiet (rng2 : Rng) (R2 : ResolvedSecrets) (rng2' : Rng) :
  _resolve_secrets secrets vault_after static_secrets false rng2
    = Resolved (R2, rng2') ->
  rng2' = rng2.
Proof.
  intros Hsecond. unfold _resolve_secrets in Hsecond.
  rewrite resolve_secrets_fuel_loop in Hsecond.
  destruct (resolve_loop _ _ _ _ _ _ _ _) as [[T rng1] | l |] eqn:Hloop;
    try discriminate.
  injection Hsecond as _ <-.
  eapply resolve_loop_quiet; [| exact Hloop].
  intros d Hd _ _ _.
  destruct (current_value_after d Hd) as (s & _ & Hs & Hcur).
  now rewrite Hcur.
Qed.

End SecondResolution.

Section ResolutionStability.
Context {Rng : Type} {G : Generator Rng}.

(** X8: Resolving the same declarations (about distinct pairs) a second time
    with [regenerate = false], against a Vault that holds every value the
    first resolution returned (whether or not that one regenerated), always
    returns, reproduces exactly the same value for every pair and the same
    pull secret, and draws no randomness. *)
Theorem second_resolution_reproduces (secrets : list Secret)
    (vault_secrets : Secrets) (static_secrets : option StaticSecrets)
    (regenerate : bool) (rng : Rng) (R : ResolvedSecrets) (rng' : Rng)
    (vault_after : Secrets) (rng2 : Rng) :
  NoDup (map secret_id secrets) ->
  _resolve_secrets secrets vault_secrets static_secrets regenerate rng
    = Resolved (R, rng') ->
  (forall a k v, lookup (applications R) a k = Some v ->
     lookup vault_after a k = Some v) ->
  exists R2,
    _resolve_secrets secrets vault_after static_secrets false rng2
      = Resolved (R2, rng2)
    /\ (forall a k, lookup (applications R2) a k = lookup (applications R) a k)
    /\ pull_secret R2 = pull_secret R.
Proof.
  intros Hnd Hfirst Hafter.
  destruct (second_resolution_returns secrets vault_secrets static_secrets
              regenerate rng R rng' Hnd Hfirst vault_after Hafter rng2)
    as (R2 & rng2' & Hsecond).
  exists R2.
  rewrite <- (second_resolution_quiet secrets vault_secrets static_secrets
                regenerate rng R rng' Hfirst vault_after Hafter rng2 R2 rng2'
                Hsecond)
    at 2.
  split; [exact Hsecond | split].
  - now apply (second_resolution_values secrets vault_secrets static_secrets
                 regenerate rng R rng' Hnd Hfirst vault_after Hafter rng2 R2
                 rng2').
  - rewrite (resolve_secrets_pull_secret static_secrets _ _ _ _ _ _ Hsecond).
    now rewrite (resolve_secrets_pull_secret static_secrets _ _ _ _ _ _ Hfirst).
Qed.

End ResolutionStability.

(** ** A second [sync] *)

Section SyncTwice.
Context {Rng : Type} {G : Generator Rng}.
Variable to_dockerconfigjson : PullSecret -> string.

(** Every application of a resolved table is the application of a
    declaration. *)
Lemma resolve_secrets_applications (secrets : list Secret)
    (vault_secrets : Secrets) (static_secrets : option StaticSecrets)
    (regenerate : bool) (rng : Rng) (R : ResolvedSecrets) (rng' : Rng) :
  _resolve_secrets secrets vault_secrets static_secrets regenerate rng
    = Resolved (R, rng') ->
  forall a, In a (Dict.keys (applications R)) ->
    exists d, In d secrets /\ application d = a.
Proof.
  intros Hres.
  pose proof (resolve_secrets_invariant secrets vault_secrets static_secrets
                regenerate
                (fun T X => incl X secrets
                   /\ forall a, In a (Dict.keys T) ->
                        exists d, In d secrets /\ application d = a)
                rng) as Hinv.
  rewrite Hres in Hinv. apply Hinv.
  - intros T Q c rest rng0 s [Hincl HJ] _ _. split.
    + intros x Hx. apply Hincl. now apply In_app_skip.
    + intros a Hin. unfold assign in Hin. apply DictFacts.In_keys_set in Hin.
      destruct Hin as [-> | Hold]; [| eauto].
      exists c. split; [| reflexivity].
      apply Hincl. rewrite in_app_iff. simpl. auto.
  - split; [apply incl_refl | intros a []].
Qed.

(** A store that holds a pair of an application has the application. *)
Lemma lookup_mem (T : Secrets) (a k : string) (v : SecretStr) :
  lookup T a k = Some v -> Dict.mem T a = true.
Proof.
  unfold lookup, Dict.get_default, Dict.mem.
  now destruct (Dict.get T a).
Qed.

(** Against a store that holds every resolved pair with its value, the
    sync of the applications makes no call. *)
Lemma sync_application_secrets_settled (store : Secrets)
    (resolved : ResolvedSecrets) :
  wf_secrets (applications resolved) ->
  (forall a values, In (a, values) (applications resolved) ->
     Dict.mem store a = true) ->
  (forall a k v, lookup (applications resolved) a k = Some v ->
     lookup store a k = Some v) ->
  _sync_application_secrets store resolved = [].
Proof.
  intros [Houter Hinner] Hmem Hheld.
  rewrite sync_application_secrets_calls. apply flat_map_nil.
  intros [a values] Hitem. unfold sync_application_calls.
  rewrite (Hmem a values Hitem). simpl. apply flat_map_nil.
  intros [k v] Hkv. cbn [fst snd].
  assert (Hlook : lookup store a k = Some v).
  { apply Hheld.
    rewrite (lookup_get_Some _ _ k _ (DictFacts.In_get _ _ _ Houter Hitem)).
    now apply DictFacts.In_get; [apply (Hinner a) |]. }
  unfold lookup in Hlook. rewrite Hlook. simpl. now rewrite String.eqb_refl.
Qed.

(** No application named [pull-secret] is resolved when none is declared. *)
Lemma resolved_without_pull_secret (secrets : list Secret)
    (vault_secrets : Secrets) (static_secrets : option StaticSecrets)
    (regenerate : bool) (rng : Rng) (R : ResolvedSecrets) (rng' : Rng) :
  (forall d, In d secrets -> application d <> "pull-secret") ->
  _resolve_secrets secrets vault_secrets static_secrets regenerate rng
    = Resolved (R, rng') ->
  Dict.get (applications R) "pull-secret" = None.
Proof.
  intros Hnopull Hres.
  destruct (Dict.get (applications R) "pull-secret") eqn:Hget; [| reflexivity].
  assert (Hin : In "pull-secret" (Dict.keys (applications R))).
  { apply DictFacts.get_In_keys. congruence. }
  destruct (resolve_secrets_applications _ _ _ _ _ _ _ Hres _ Hin)
    as (d & Hd & Happ).
  now apply Hnopull in Hd.
Qed.

(** The store a [sync] without deletion leaves holds every resolved value. *)
Lemma sync_store_holds_resolved (store : Secrets) (R : ResolvedSecrets) :
  wf_secrets (applications R) ->
  Dict.get (applications R) "pull-secret" = None ->
  forall a k v, lookup (applications R) a k = Some v ->
    lookup (vault_run store (sync_calls to_dockerconfigjson store R false)) a k
    = Some v.
Proof.
  intros Hwf Habsent a k v Hlook.
  rewrite (sync_calls_lookup to_dockerconfigjson store R Hwf a k).
  - now rewrite Hlook.
  - left. intros ->.
    rewrite (lookup_get_None _ _ k Habsent) in Hlook. discriminate.
Qed.

(** Against a store that holds the values of a resolution and the pull
    secret [sync] wrote, a [sync] of a resolution with the same values makes
    no call. *)
Lemma sync_calls_settled (secrets : list Secret) (store store1 : Secrets)
    (static_secrets : option StaticSecrets) (regenerate : bool)
    (rng rng' rng2 rng2' : Rng) (R R2 : ResolvedSecrets) :
  _resolve_secrets secrets store static_secrets regenerate rng
    = Resolved (R, rng') ->
  _resolve_secrets secrets store1 static_secrets false rng2
    = Resolved (R2, rng2') ->
  (forall a k v, lookup (applications R) a k = Some v ->
     lookup store1 a k = Some v) ->
  (forall a k, lookup (applications R2) a k = lookup (applications R) a k) ->
  (forall pull, synced_pull_secret R = Some pull ->
     Dict.get store1 "pull-secret"
     = Some [(".dockerconfigjson", to_dockerconfigjson pull)]) ->
  sync_calls to_dockerconfigjson store1 R2 false = [].
Proof.
  intros Hfirst Hsecond Hafter Hvalues Hentry.
  rewrite sync_calls_without_delete.
  rewrite sync_application_secrets_settled; cycle 1.
  - exact (resolve_secrets_wf _ _ _ _ _ _ _ Hsecond).
  - intros a values Hitem.
    assert (Hin : In a (Dict.keys (applications R2))).
    { now apply (in_map fst) in Hitem. }
    destruct (resolve_secrets_applications _ _ _ _ _ _ _ Hsecond _ Hin)
      as (d & Hd & <-).
    pose proof (resolve_secrets_complete _ _ _ _ _ _ _ Hfirst d Hd) as Hhas.
    unfold has in Hhas. cbn [secret_id fst snd] in Hhas.
    destruct (lookup (applications R) (application d) (key d)) as [v |] eqn:Hv;
      [| discriminate].
    exact (lookup_mem _ _ _ _ (Hafter _ _ _ Hv)).
  - intros a k v Hlook. apply Hafter. now rewrite <- Hvalues.
  - simpl. unfold synced_pull_secret.
    rewrite (resolve_secrets_pull_secret _ _ _ _ _ _ _ Hsecond).
    rewrite <- (resolve_secrets_pull_secret _ _ _ _ _ _ _ Hfirst).
    fold (synced_pull_secret R).
    destruct (synced_pull_secret R) as [pull |] eqn:Hpull; [| reflexivity].
    unfold _sync_pull_secret. rewrite (Hentry pull eq_refl).
    assert (Heq : Dict.eqb String.eqb
                    [(".dockerconfigjson", to_dockerconfigjson pull)]
                    [(".dockerconfigjson", to_dockerconfigjson pull)] = true).
    { apply eqb_singleton. reflexivity. }
    cbv zeta. now rewrite Heq.
Qed.

(** X16: After a [sync] with [delete = false] (regenerating or not) of
    declarations about distinct pairs, none in an application named
    [pull-secret], a second [sync] of the same declarations and static
    secrets without [regenerate], on the store and the generator state the
    first one left, resolves the same values, makes no call to Vault, draws
    nothing from the generator and leaves the store as it is. *)
Theorem sync_without_delete_idempotent (secrets : list Secret)
    (onepassword : option StaticSecrets) (store : Secrets)
    (static_secrets : option StaticSecrets) (regenerate : bool) (rng : Rng)
    (r : SyncResult) :
  NoDup (map secret_id secrets) ->
  (forall d, In d secrets -> application d <> "pull-secret") ->
  sync to_dockerconfigjson secrets onepassword store static_secrets
    regenerate false rng = Resolved r ->
  exists r2,
    sync to_dockerconfigjson secrets onepassword (sync_store r) static_secrets
      false false (sync_rng r) = Resolved r2
    /\ sync_made r2 = []
    /\ sync_store r2 = sync_store r
    /\ sync_rng r2 = sync_rng r
    /\ (forall a k,
          lookup (applications (sync_resolved r2)) a k
          = lookup (applications (sync_resolved r)) a k).
Proof.
  intros Hdistinct Hnopull Hsync. unfold sync in Hsync |- *.
  set (statics := match static_secrets with
                  | Some s => Some s
                  | None => onepassword
                  end) in *.
  destruct (_resolve_secrets secrets store statics regenerate rng)
    as [[R rng'] | l |] eqn:Hfirst; try discriminate.
  injection Hsync as <-. cbn [sync_resolved sync_made sync_store sync_rng].
  set (store1 := vault_run store (sync_calls to_dockerconfigjson store R false)).
  pose proof (resolve_secrets_wf _ _ _ _ _ _ _ Hfirst) as Hwf.
  pose proof (resolved_without_pull_secret _ _ _ _ _ _ _ Hnopull Hfirst)
    as Habsent.
  pose proof (sync_store_holds_resolved store R Hwf Habsent) as Hafter.
  fold store1 in Hafter.
  destruct (second_resolution_returns secrets store statics regenerate rng R rng'
              Hdistinct Hfirst store1 Hafter rng') as (R2 & rng2 & Hsecond).
  pose proof (second_resolution_quiet secrets store statics regenerate rng R rng'
                Hfirst store1 Hafter rng' R2 rng2 Hsecond) as ->.
  pose proof (second_resolution_values secrets store statics regenerate rng R
                rng' Hdistinct Hfirst store1 Hafter rng' R2 rng' Hsecond)
    as Hvalues.
  rewrite Hsecond.
  assert (Hcalls : sync_calls to_dockerconfigjson store1 R2 false = []).
  { apply (sync_calls_settled secrets store store1 statics regenerate
             rng rng' rng' rng' R R2 Hfirst Hsecond Hafter Hvalues).
    intros pull Hpull.
    exact (sync_calls_pull_entry to_dockerconfigjson store R pull Hpull Habsent). }
  eexists. split; [reflexivity |].
  cbn [sync_resolved sync_made sync_store sync_rng]. rewrite Hcalls.
  repeat split. exact Hvalues.
Qed.

End SyncTwice.

(** ** The audit report *)

Lemma append_empty (s t : string) :
  (s ++ t)%string = ""%string <-> s = ""%string /\ t = ""%string.
Proof.
  destruct s as [| c s]; simpl.
  - tauto.
  - split; [discriminate | intros [H _]; discriminate].
Qed.

Lemma report_section_empty (heading : string) (l : list Entry) :
  report_section heading l = ""%string <-> l = [].
Proof.
  destruct l as [| e l]; [simpl; tauto |].
  split; [| discriminate]. unfold report_section. intros H.
  apply append_empty in H. destruct H as [_ H]. discriminate.
Qed.

Lemma filter_nil_iff {A : Type} (p : A -> bool) (l : list A) :
  filter p l = [] <-> forall x, In x l -> p x = false.
Proof.
  induction l as [| x l IH]; simpl; [tauto |].
  destruct (p x) eqn:Hp.
  - split; [discriminate |]. intros H. specialize (H x (or_introl eq_refl)).
    congruence.
  - rewrite IH. split.
    + intros H y [<- | Hy]; auto.
    + intros H y Hy. apply H. now right.
Qed.

(** A pair that both tables hold with the same value is classified [Ok]. *)
Lemma classify_agree (R V : Secrets) (e : Entry) :
  lookup R (fst e) (snd e) = lookup V (fst e) (snd e) ->
  classify R V e = Some Ok \/ classify R V e = None.
Proof.
  intros Heq. unfold classify. rewrite <- Heq.
  destruct (lookup R (fst e) (snd e)) as [r |]; [left | now right].
  now rewrite String.eqb_refl.
Qed.

(** X17: The report of the comparison is empty exactly when the resolved secrets
    and the snapshot of Vault hold the same pairs with the same values. *)
Theorem audit_report_empty (resolved : ResolvedSecrets) (vault_secrets : Secrets) :
  wf_secrets (applications resolved) ->
  wf_secrets vault_secrets ->
  audit_report (audit_compare resolved vault_secrets) = ""%string
  <-> forall a k, lookup (applications resolved) a k = lookup vault_secrets a k.
Proof.
  intros Hwf Hvault.
  destruct (audit_compare_filters resolved vault_secrets Hwf Hvault)
    as (Hm & Hmm & Hu).
  unfold audit_report. rewrite !append_empty, !report_section_empty.
  rewrite Hm, Hmm, Hu, !filter_nil_iff. split.
  - intros (Hmissing & Hmismatch & Hunknown) a k.
    specialize (Hmissing (a, k)). specialize (Hmismatch (a, k)).
    specialize (Hunknown (a, k)).
    rewrite (DictFacts.entries_lookup _ a k (proj1 Hwf)) in Hmissing, Hmismatch.
    rewrite (DictFacts.entries_lookup _ a k (proj1 Hvault)) in Hunknown.
    unfold classified, classify in *. cbn [fst snd] in *.
    destruct (lookup (applications resolved) a k) as [r |],
             (lookup vault_secrets a k) as [v |]; try reflexivity.
    + destruct (String.eqb_spec r v) as [-> | Hne]; [reflexivity |].
      now discriminate Hmismatch.
    + now discriminate Hmissing.
    + now discriminate Hunknown.
  - intros Hsame.
    assert (Hok : forall c e, c <> Ok ->
              classified c (applications resolved) vault_secrets e = false).
    { intros c e Hc. unfold classified.
      destruct (classify_agree (applications resolved) vault_secrets e
                  (Hsame (fst e) (snd e))) as [-> | ->]; [| reflexivity].
      destruct c; try reflexivity. congruence. }
    repeat split; intros e _; apply Hok; discriminate.
Qed.

(** ** Auditing what [sync] left *)

Lemma wf_secrets_del (T : Secrets) (a : string) :
  wf_secrets T -> wf_secrets (Dict.del T a).
Proof.
  intros [Houter Hinner]. split; [now apply DictFacts.wf_del |].
  intros a' d Hin. rewrite (DictFacts.del_filter _ _ Houter) in Hin.
  apply filter_In in Hin. now apply (Hinner a').
Qed.

(** Calls that store entries with unique keys keep the keys of the store
    unique. *)
Lemma vault_run_wf_secrets (calls : list VaultCall) :
  forall store,
    wf_secrets store ->
    (forall a values, In (store_application_secret a values) calls ->
       Dict.wf values) ->
    wf_secrets (vault_run store calls).
Proof.
  induction calls as [| c calls IH]; intros store Hwf Hcalls; [exact Hwf |].
  simpl. apply IH.
  - destruct c as [a values | a k s | a]; simpl.
    + apply DictFacts.wf_secrets_set; [exact Hwf |].
      apply (Hcalls a). now left.
    + now apply DictFacts.wf_secrets_assign.
    + now apply wf_secrets_del.
  - intros a values Hin. apply (Hcalls a). now right.
Qed.

Section AuditAfterSync.
Context {Rng : Type} {G : Generator Rng}.
Variable to_dockerconfigjson : PullSecret -> string.

(** [sync] without deletion stores only entries with unique keys. *)
Lemma sync_calls_store_wf (store : Secrets) (R : ResolvedSecrets) (a : string)
    (values : Dict.t SecretStr) :
  wf_secrets (applications R) ->
  In (store_application_secret a values)
    (sync_calls to_dockerconfigjson store R false) ->
  Dict.wf values.
Proof.
  intros [_ Hinner] Hin. rewrite sync_calls_without_delete in Hin.
  apply in_app_iff in Hin. destruct Hin as [Hin | Hin].
  - rewrite sync_application_secrets_calls in Hin. apply in_flat_map in Hin.
    destruct Hin as ([a' values'] & Hitem & Hin).
    apply sync_application_calls_In in Hin.
    destruct Hin as [[_ [= -> ->]] | (d & k & v & _ & _ & _ & Heq)];
      [| discriminate].
    now apply (Hinner a').
  - destruct (synced_pull_secret R) as [pull |]; [| destruct Hin].
    apply sync_pull_secret_calls in Hin. injection Hin as _ ->.
    repeat constructor. intros [].
Qed.

(** X18: An [audit] of the store a [sync] without deletion left (of
    declarations about distinct pairs, none in an application named
    [pull-secret], the store having unique keys) returns, and what it
    reports is at most unknown secrets: nothing is missing or incorrect. *)
Theorem audit_after_sync (secrets : list Secret)
    (onepassword : option StaticSecrets) (store : Secrets)
    (static_secrets : option StaticSecrets) (regenerate : bool) (rng : Rng)
    (r : SyncResult) (rng2 : Rng) :
  NoDup (map secret_id secrets) ->
  (forall d, In d secrets -> application d <> "pull-secret") ->
  wf_secrets store ->
  sync to_dockerconfigjson secrets onepassword store static_secrets
    regenerate false rng = Resolved r ->
  audit secrets onepassword (sync_store r) static_secrets rng2
  = Resolved
      (report_section "Unknown secrets in Vault"
         (filter
            (classified Unknown (applications (sync_resolved r)) (sync_store r))
            (entries (sync_store r)))).
Proof.
  intros Hdistinct Hnopull Hstore Hsync. unfold sync in Hsync. unfold audit.
  set (statics := match static_secrets with
                  | Some s => Some s
                  | None => onepassword
                  end) in *.
  destruct (_resolve_secrets secrets store statics regenerate rng)
    as [[R rng'] | l |] eqn:Hfirst; try discriminate.
  injection Hsync as <-. cbn [sync_resolved sync_store].
  set (store1 := vault_run store (sync_calls to_dockerconfigjson store R false)).
  pose proof (resolve_secrets_wf _ _ _ _ _ _ _ Hfirst) as Hwf.
  pose proof (resolved_without_pull_secret _ _ _ _ _ _ _ Hnopull Hfirst)
    as Habsent.
  pose proof (sync_store_holds_resolved to_dockerconfigjson store R Hwf Habsent)
    as Hafter.
  fold store1 in Hafter.
  destruct (second_resolution_returns secrets store statics regenerate rng R rng'
              Hdistinct Hfirst store1 Hafter rng2) as (R2 & rng2' & Hsecond).
  pose proof (second_resolution_values secrets store statics regenerate rng R
                rng' Hdistinct Hfirst store1 Hafter rng2 R2 rng2' Hsecond)
    as Hvalues.
  rewrite Hsecond. f_equal.
  assert (Hstore1 : wf_secrets store1).
  { apply vault_run_wf_secrets; [exact Hstore |].
    intros a values. now apply sync_calls_store_wf. }
  destruct (audit_compare_filters R2 store1
              (resolve_secrets_wf _ _ _ _ _ _ _ Hsecond) Hstore1)
    as (Hm & Hmm & Hu).
  assert (Hok : forall c e, c <> Ok -> In e (entries (applications R2)) ->
            classified c (applications R2) store1 e = false).
  { intros c [a k] Hc Hin.
    apply (DictFacts.entries_lookup _ a k
             (proj1 (resolve_secrets_wf _ _ _ _ _ _ _ Hsecond))) in Hin.
    unfold classified, classify. cbn [fst snd].
    destruct (lookup (applications R2) a k) as [v |] eqn:Hv; [| congruence].
    rewrite Hvalues in Hv. rewrite (Hafter a k v Hv), String.eqb_refl.
    destruct c; try reflexivity. congruence. }
  unfold audit_report. rewrite Hm, Hmm, Hu.
  rewrite (proj2 (filter_nil_iff (classified Missing _ _) _));
    [| intros e; apply Hok; discriminate].
  rewrite (proj2 (filter_nil_iff (classified Mismatch _ _) _));
    [| intros e; apply Hok; discriminate].
  simpl. f_equal. apply filter_ext. intros e.
  unfold classified, classify. now rewrite Hvalues.
Qed.

End AuditAfterSync.

(** ** What the resolution reads *)

Section ResolutionFrame.
Context {Rng : Type} {G : Generator Rng}.
Variables (V1 V2 : Secrets) (S1 S2 : StaticSecrets) (regenerate : bool).

(** Two configurations agree on a declaration when they give it the same
    current and static value. *)
Let agree (d : Secret) : Prop :=
  current_value_of V1 d = current_value_of V2 d
  /\ static_value_of S1 d = static_value_of S2 d.

Lemma resolve_pass_ext (l : list Secret) :
  forall T rng,
    (forall d, In d l -> agree d) ->
    resolve_pass V1 S1 regenerate l T rng = resolve_pass V2 S2 regenerate l T rng.
Proof.
  induction l as [| c l IH]; intros T rng Hagree; [reflexivity |].
  cbn [resolve_pass].
  destruct (Hagree c (or_introl eq_refl)) as [-> ->].
  assert (Hrest : forall d, In d l -> agree d) by (intros d Hd; apply Hagree; now right).
  destruct (_resolve_secret c T _ _ regenerate rng) as [[s |] rng1].
  - destruct (secret_truthy s); now rewrite IH.
  - now rewrite IH.
Qed.

Lemma resolve_loop_ext (fuel : nat) :
  forall T rng l left,
    (forall d, In d l -> agree d) ->
    resolve_loop V1 S1 regenerate fuel T rng l left
    = resolve_loop V2 S2 regenerate fuel T rng l left.
Proof.
  induction fuel as [| fuel IH]; intros T rng l left Hagree;
    destruct l as [| c l]; try reflexivity.
  cbn [resolve_loop]. rewrite (resolve_pass_ext _ T rng Hagree).
  destruct (resolve_pass V2 S2 regenerate (c :: l) T rng) as [[T' rng'] l'] eqn:Hp.
  destruct (Nat.leb left (length l')); [reflexivity |].
  apply IH. intros d Hd. apply Hagree.
  exact (resolve_pass_incl _ _ _ _ _ _ _ _ _ Hp d Hd).
Qed.

End ResolutionFrame.

Section ResolutionReads.
Context {Rng : Type} {G : Generator Rng}.

(** X7: What [_resolve_secrets] returns or raises depends on Vault only through
    the current values of the declared pairs, and on the static secrets only
    through the static values of the declared pairs and the pull secret. *)
Theorem resolve_secrets_frame (secrets : list Secret) (V1 V2 : Secrets)
    (S1 S2 : option StaticSecrets) (regenerate : bool) (rng : Rng) :
  (forall d, In d secrets -> current_value_of V1 d = current_value_of V2 d) ->
  (forall d, In d secrets ->
     static_value_of (statics_or_empty S1) d
     = static_value_of (statics_or_empty S2) d) ->
  static_pull_secret (statics_or_empty S1)
  = static_pull_secret (statics_or_empty S2) ->
  _resolve_secrets secrets V1 S1 regenerate rng
  = _resolve_secrets secrets V2 S2 regenerate rng.
Proof.
  intros Hcurrent Hstatic Hpull. unfold _resolve_secrets, resolve_secrets_fuel.
  rewrite (resolve_loop_ext V1 V2 (statics_or_empty S1) (statics_or_empty S2)).
  - destruct (resolve_loop V2 _ regenerate _ _ rng secrets _) as [[T rng'] | l |];
      try reflexivity.
    now rewrite Hpull.
  - intros d Hd. split; [now apply Hcurrent | now apply Hstatic].
Qed.

(** Every entry of the template is without value. *)
Lemma template_entries_blank (static : list Secret) :
  forall template,
    (forall a k s, Dict.get (Dict.get_default template a []) k = Some s ->
       static_value s = None) ->
    forall a k s,
      Dict.get (Dict.get_default (fold_left template_entry static template) a [])
        k = Some s ->
      static_value s = None.
Proof.
  induction static as [| c static IH]; intros template Hblank; [exact Hblank |].
  cbn [fold_left]. apply IH. intros a k s. unfold template_entry.
  unfold Dict.get_default at 1.
  destruct (String.eqb_spec a (application c)) as [-> | Ha].
  - rewrite DictFacts.get_set_same.
    destruct (String.eqb_spec k (key c)) as [-> | Hk].
    + rewrite DictFacts.get_set_same. now intros [= <-].
    + rewrite DictFacts.get_set_other by exact Hk. apply Hblank.
  - rewrite DictFacts.get_set_other by exact Ha. apply Hblank.
Qed.

(** The template has an entry for every listed secret. *)
Lemma template_entries_listed (static : list Secret) :
  forall template d,
    In d static
    \/ Dict.get (Dict.get_default template (application d) []) (key d) <> None ->
    Dict.get
      (Dict.get_default (fold_left template_entry static template)
         (application d) [])
      (key d) <> None.
Proof.
  induction static as [| c static IH]; intros template d Hd.
  - destruct Hd as [[] | Hd]; exact Hd.
  - cbn [fold_left]. apply IH.
    destruct Hd as [[<- | Hd] | Hd]; [right | now left | right];
      unfold template_entry; unfold Dict.get_default at 1.
    + now rewrite !DictFacts.get_set_same.
    + destruct (String.eqb_spec (application d) (application c)) as [Ha | Ha].
      * rewrite Ha in *. rewrite DictFacts.get_set_same.
        destruct (String.eqb_spec (key d) (key c)) as [-> | Hk].
        -- now rewrite DictFacts.get_set_same.
        -- now rewrite DictFacts.get_set_other.
      * now rewrite DictFacts.get_set_other.
Qed.

(** X20: The template of static secrets has an entry for every secret it was
    generated for, none of its entries has a value, and resolving with the
    template as it is generated is resolving without static secrets, but
    for the empty pull secret of the template. *)
Theorem static_template_is_blank (static secrets : list Secret)
    (vault_secrets : Secrets) (regenerate : bool) (rng : Rng) :
  let template := generate_static_template static in
  (forall d, In d static ->
     exists s, Dict.get (for_application template (application d)) (key d) = Some s)
  /\ (forall a k s, Dict.get (for_application template a) k = Some s ->
        static_value s = None)
  /\ _resolve_secrets secrets vault_secrets (Some template) regenerate rng
     = match _resolve_secrets secrets vault_secrets None regenerate rng with
       | Resolved (R, rng') =>
           Resolved (mkResolved (applications R) (Some (mkPull [])), rng')
       | UnresolvedSecretsError unresolved => UnresolvedSecretsError unresolved
       | OutOfFuel => OutOfFuel
       end.
Proof.
  cbv zeta.
  assert (Hblank : forall a k s,
            Dict.get (for_application (generate_static_template static) a) k
              = Some s -> static_value s = None).
  { intros a k s. unfold for_application, generate_static_template.
    cbn [static_applications]. apply template_entries_blank.
    intros a' k' s'. discriminate. }
  split; [| split; [exact Hblank |]].
  - intros d Hd.
    pose proof (template_entries_listed static [] d (or_introl Hd)) as Hentry.
    unfold for_application, generate_static_template. cbn [static_applications].
    destruct (Dict.get _ (key d)) as [s |]; [now exists s | congruence].
  - unfold _resolve_secrets, resolve_secrets_fuel.
    rewrite (resolve_loop_ext vault_secrets vault_secrets
               (statics_or_empty (Some (generate_static_template static)))
               (statics_or_empty None)).
    + now destruct (resolve_loop _ _ _ _ _ _ _ _) as [[T rng'] | l |].
    + intros d _. split; [reflexivity |].
      unfold static_value_of. cbn [statics_or_empty].
      destruct (Dict.get (for_application (generate_static_template static) _) _)
        as [s |] eqn:Hget; [| reflexivity].
      now rewrite (Hblank _ _ _ Hget).
Qed.

End ResolutionReads.

(** ** Saving the secrets of Vault *)

Lemma set_absent {V : Type} (d : Dict.t V) (k : string) (v : V) :
  ~ In k (Dict.keys d) -> Dict.set d k v = d ++ [(k, v)].
Proof.
  induction d as [| [k' v'] d IH]; intros Hnotin; [reflexivity |].
  simpl in *. destruct (String.eqb_spec k k') as [-> | Hne].
  - exfalso. apply Hnotin. now left.
  - rewrite IH; [reflexivity |]. intros Hin. apply Hnotin. now right.
Qed.

(** Filling a dictionary key by key from one with unique keys lists the
    keys in the same order. *)
Lemma fold_set_map {V W : Type} (f : V -> W) (l : Dict.t V) :
  forall acc : Dict.t W,
    NoDup (Dict.keys acc ++ Dict.keys l) ->
    fold_left (fun d kv => Dict.set d (fst kv) (f (snd kv))) l acc
    = acc ++ map (fun kv => (fst kv, f (snd kv))) l.
Proof.
  induction l as [| [k v] l IH]; intros acc Hnd; simpl.
  - now rewrite app_nil_r.
  - simpl in Hnd. rewrite set_absent.
    + rewrite IH.
      * now rewrite <- app_assoc.
      * unfold Dict.keys in *. rewrite map_app, <- app_assoc. exact Hnd.
    + apply NoDup_remove_2 in Hnd. intros Hin. apply Hnd.
      apply in_or_app. now left.
Qed.

Lemma append_length (s t : string) :
  String.length (s ++ t) = String.length s + String.length t.
Proof. induction s as [| c s IH]; simpl; [reflexivity | now rewrite IH]. Qed.

(** Two names with the same suffix are equal when the results are. *)
Lemma append_cancel_r (suffix : string) :
  forall s t : string, (s ++ suffix)%string = (t ++ suffix)%string -> s = t.
Proof.
  induction s as [| c s IH]; intros [| c' t] Heq; simpl in Heq.
  - reflexivity.
  - apply (f_equal String.length) in Heq. simpl in Heq.
    rewrite append_length in Heq. lia.
  - apply (f_equal String.length) in Heq. simpl in Heq.
    rewrite append_length in Heq. lia.
  - injection Heq as -> Heq. f_equal. now apply IH.
Qed.

(** X19: [save_vault_secrets] writes one file per application of the snapshot,
    in the order of the snapshot and never the same file twice; the file of
    an application lists its keys in order, each with its value, or with
    [null] when the value is empty. *)
Theorem save_vault_secrets_files (vault_secrets : Secrets) :
  wf_secrets vault_secrets ->
  let null_if_empty (s : SecretStr) := if secret_truthy s then Some s else None in
  save_vault_secrets vault_secrets
  = map
      (fun item =>
         ((fst item ++ ".json")%string,
          map (fun kv => (fst kv, null_if_empty (snd kv))) (snd item)))
      vault_secrets
  /\ NoDup (map fst (save_vault_secrets vault_secrets)).
Proof.
  intros [Houter Hinner]. cbv zeta. split.
  - unfold save_vault_secrets. apply map_ext_in. intros [a values] Hin.
    cbn [fst snd]. f_equal. unfold app_secrets_of.
    rewrite (fold_set_map (fun s => if secret_truthy s then Some s else None)).
    + reflexivity.
    + simpl. now apply (Hinner a).
  - unfold save_vault_secrets. rewrite map_map. cbn [fst].
    unfold Dict.wf, Dict.keys in Houter. clear Hinner.
    induction vault_secrets as [| [a values] T IH]; simpl; constructor.
    + intros Hin. apply in_map_iff in Hin.
      destruct Hin as ([a' values'] & Heq & Hin). simpl in Heq.
      apply append_cancel_r in Heq. subst a'.
      apply NoDup_cons_iff in Houter. apply (proj1 Houter).
      now apply (in_map fst) in Hin.
    + apply IH. now apply NoDup_cons_iff in Houter.
Qed.

(** ** What [sync] with deletion leaves in Vault *)

(** The entry of an application of the snapshot after the cleaning calls,
    on any store with unique keys. *)
Lemma clean_calls_entry (resolved : ResolvedSecrets) (has_pull_secret : bool)
    (vault_secrets store : Secrets) (a : string) (values : Dict.t SecretStr) :
  Dict.wf vault_secrets -> Dict.wf store -> In (a, values) vault_secrets ->
  Dict.get
    (vault_run store (_clean_vault_secrets vault_secrets resolved has_pull_secret))
    a
  = match Dict.get (applications resolved) a with
    | Some expected =>
        match filter (fun k => negb (Dict.mem expected k)) (Dict.keys values) with
        | [] => Dict.get store a
        | _ :: _ => Some (filter (fun kv => Dict.mem expected (fst kv)) values)
        end
    | None =>
        if String.eqb a "pull-secret" && has_pull_secret then Dict.get store a
        else None
    end.
Proof.
  intros Hwf Hstore Hin. rewrite clean_vault_secrets_calls.
  destruct (in_split _ _ Hin) as (V1 & V2 & ->).
  unfold Dict.wf, Dict.keys in Hwf. rewrite map_app in Hwf. cbn [map fst] in Hwf.
  pose proof (NoDup_remove_2 _ _ _ Hwf) as Hfresh.
  assert (Hother : forall V0 c,
            incl V0 (V1 ++ V2) ->
            In c (flat_map (clean_application_calls resolved has_pull_secret) V0) ->
            call_target c <> a).
  { intros V0 c Hincl Hc. apply in_flat_map in Hc.
    destruct Hc as ([a' values'] & Hitem & Hc).
    apply clean_application_calls_target in Hc. rewrite Hc. intros ->.
    apply Hfresh. apply Hincl in Hitem. apply (in_map fst) in Hitem.
    now rewrite map_app in Hitem. }
  rewrite flat_map_app. cbn [flat_map]. rewrite !vault_run_app.
  rewrite (vault_run_other _ a); [| intros c; apply Hother; now apply incl_appr].
  set (store1 := vault_run store _).
  assert (Hsame : Dict.get store1 a = Dict.get store a).
  { apply vault_run_other. intros c. apply Hother. now apply incl_appl. }
  assert (Hwf1 : Dict.wf store1) by now apply vault_run_wf.
  unfold clean_application_calls.
  destruct (Dict.get (applications resolved) a) as [expected |].
  - destruct (filter _ (Dict.keys values)); simpl; [exact Hsame |].
    apply DictFacts.get_set_same.
  - destruct (_ && _); simpl; [exact Hsame |].
    now apply DictFacts.get_del_same.
Qed.

(** The cleaning calls only touch applications of the snapshot. *)
Lemma clean_vault_secrets_targets (vault_secrets : Secrets)
    (resolved : ResolvedSecrets) (has_pull_secret : bool) (c : VaultCall) :
  In c (_clean_vault_secrets vault_secrets resolved has_pull_secret) ->
  In (call_target c) (Dict.keys vault_secrets).
Proof.
  rewrite clean_vault_secrets_calls. intros Hc. apply in_flat_map in Hc.
  destruct Hc as ([a values] & Hitem & Hc).
  apply clean_application_calls_target in Hc. rewrite Hc.
  now apply (in_map fst) in Hitem.
Qed.

Section SyncWithDelete.
Context {Rng : Type} {G : Generator Rng}.
Variable to_dockerconfigjson : PullSecret -> string.

(** After the cleaning calls, on a store [after] that differs from the
    snapshot only in resolved pairs, a pair of an application that the pull
    secret does not protect is there only if it is resolved. *)
Lemma cleaned_pair_resolved (R : ResolvedSecrets) (store after : Secrets)
    (has_pull_secret : bool) (a k : string) (v : SecretStr) :
  Dict.wf store -> Dict.wf after ->
  (String.eqb a "pull-secret" && has_pull_secret)%bool = false ->
  (lookup (applications R) a k = None -> lookup after a k = lookup store a k) ->
  lookup (vault_run after (_clean_vault_secrets store R has_pull_secret)) a k
    = Some v ->
  lookup (applications R) a k <> None.
Proof.
  intros Hstore Hafter Hgone Hsame Hlook Hnone.
  specialize (Hsame Hnone).
  unfold lookup at 1 in Hlook. unfold Dict.get_default in Hlook.
  destruct (Dict.get store a) as [values |] eqn:Hget.
  - rewrite (clean_calls_entry R has_pull_secret store after a values Hstore
               Hafter (DictFacts.get_In _ _ _ Hget)), Hgone in Hlook.
    destruct (Dict.get (applications R) a) as [expected |] eqn:Hexp;
      [| discriminate].
    rewrite (lookup_get_Some _ _ k _ Hexp) in Hnone.
    destruct (filter (fun k0 => negb (Dict.mem expected k0)) (Dict.keys values))
      eqn:Hdel.
    + fold (Dict.get_default after a []) in Hlook.
      fold (lookup after a k) in Hlook.
      rewrite Hsame, (lookup_get_Some _ _ k _ Hget) in Hlook.
      assert (Hin : In k (filter (fun k0 => negb (Dict.mem expected k0))
                            (Dict.keys values))).
      { apply filter_In. split.
        - apply DictFacts.get_In_keys. congruence.
        - unfold Dict.mem. now rewrite Hnone. }
      rewrite Hdel in Hin. destruct Hin.
    + rewrite get_filter_keys in Hlook. unfold Dict.mem in Hlook.
      rewrite Hnone in Hlook. discriminate.
  - rewrite (vault_run_other (_clean_vault_secrets store R has_pull_secret) a)
      in Hlook.
    + fold (Dict.get_default after a []) in Hlook.
      fold (lookup after a k) in Hlook.
      rewrite Hsame, (lookup_get_None _ _ k Hget) in Hlook. discriminate.
    + intros c Hc Heq. apply clean_vault_secrets_targets in Hc.
      rewrite Heq in Hc. apply DictFacts.get_In_keys in Hc. congruence.
Qed.

(** X21: When [sync] returns with [delete = true] (on a store that lists
    every application once), every secret left in the store is a resolved
    one: its pair has a resolved value, unless it belongs to the entry
    [pull-secret] and a pull secret is resolved. *)
Theorem sync_with_delete_prunes (secrets : list Secret)
    (onepassword : option StaticSecrets) (store : Secrets)
    (static_secrets : option StaticSecrets) (regenerate : bool) (rng : Rng)
    (r : SyncResult) :
  Dict.wf store ->
  sync to_dockerconfigjson secrets onepassword store static_secrets
    regenerate true rng = Resolved r ->
  forall a k v,
    lookup (sync_store r) a k = Some v ->
    lookup (applications (sync_resolved r)) a k <> None
    \/ (a = "pull-secret" /\ pull_secret (sync_resolved r) <> None).
Proof.
  intros Hstore Hsync a k v Hlook. unfold sync in Hsync.
  destruct (_resolve_secrets secrets store _ regenerate rng)
    as [[R rng'] | l |] eqn:Hres; try discriminate.
  injection Hsync as <-. cbn [sync_resolved sync_store] in *.
  pose proof (resolve_secrets_wf _ _ _ _ _ _ _ Hres) as Hwf.
  assert (Hcase : (a = "pull-secret" /\ pull_secret R <> None)
                  \/ a <> "pull-secret" \/ pull_secret R = None).
  { destruct (String.eqb_spec a "pull-secret") as [Ha | Ha]; [| auto].
    destruct (pull_secret R); [left; split; [exact Ha | discriminate] | auto]. }
  destruct Hcase as [Hpull | Hcase]; [now right | left].
  unfold sync_calls in Hlook. rewrite !vault_run_app in Hlook.
  set (synced := vault_run store (_sync_application_secrets store R)) in Hlook.
  set (pulled := match pull_secret R with
                 | Some p =>
                     match registries p with
                     | [] => []
                     | _ :: _ => _sync_pull_secret to_dockerconfigjson store p
                     end
                 | None => []
                 end) in Hlook.
  apply (cleaned_pair_resolved R store (vault_run synced pulled)
           (match pull_secret R with Some _ => true | None => false end) a k v).
  - exact Hstore.
  - apply vault_run_wf. unfold synced. now apply vault_run_wf.
  - destruct Hcase as [Ha | Hnone].
    + now destruct (String.eqb_spec a "pull-secret").
    + rewrite Hnone. apply andb_false_r.
  - intros Hnone.
    assert (Hpulled : Dict.get (vault_run synced pulled) a = Dict.get synced a).
    { apply vault_run_other. intros c Hc. unfold pulled in Hc.
      destruct (pull_secret R) as [p |]; [| destruct Hc].
      destruct (registries p); [destruct Hc |].
      apply sync_pull_secret_calls in Hc. subst c.
      destruct Hcase as [Ha | Hno]; [now simpl | discriminate]. }
    rewrite (lookup_of_get _ _ a k Hpulled). unfold synced.
    rewrite (sync_application_secrets_lookup store R Hwf a k).
    now rewrite Hnone.
  - exact Hlook.
Qed.

End SyncWithDelete.

(** * The further properties on concrete declarations *)

Lemma resolved_table_sound_witness :
  wf_secrets [("db", [("password", "g")]); ("api", [("dbpass", "g")])]
  /\ pull_secret
       (mkResolved [("db", [("password", "g")]); ("api", [("dbpass", "g")])] None)
     = None.
Proof.
  destruct (resolved_table_sound (G := counter_generator) [demo_api; demo_db] [] None false 0
              (mkResolved [("db", [("password", "g")]); ("api", [("dbpass", "g")])]
                 None)
              1 eq_refl) as (Hwf & _ & Hpull).
  split; [exact Hwf | exact Hpull].
Defined.

Lemma resolved_value_of_configuration_witness :
  lookup [("A", [("k1", "new")])] "A" "k1" = Some "new".
Proof.
  refine (proj1 (resolved_value_of_configuration (G := counter_generator) [demo_literal]
                   [("A", [("k1", "old")])] None false 0
                   (mkResolved [("A", [("k1", "new")])] None) 0
                   _ eq_refl demo_literal _) eq_refl);
    [solve_NoDup | simpl; auto].
Defined.

Lemma resolved_generated_secret_kept_witness :
  lookup [("db", [("password", "kept")])] "db" "password" = Some "kept".
Proof.
  refine (resolved_generated_secret_kept (G := counter_generator) [demo_db]
            [("db", [("password", "kept")])] None 0
            (mkResolved [("db", [("password", "kept")])] None) 0
            _ eq_refl demo_db (SimpleSecretGenerateRules "password")
            _ eq_refl eq_refl eq_refl eq_refl);
    [solve_NoDup | simpl; auto].
Defined.

Lemma resolved_generated_secret_fresh_witness :
  exists rng0,
    lookup [("db", [("password", "g")])] "db" "password"
    = Some (fst (generate_simple "password" rng0)).
Proof.
  refine (resolved_generated_secret_fresh (G := counter_generator) [demo_db] [] None false 0
            (mkResolved [("db", [("password", "g")])] None) 1
            _ eq_refl demo_db (SimpleSecretGenerateRules "password")
            _ eq_refl eq_refl eq_refl (or_introl eq_refl));
    [solve_NoDup | simpl; auto].
Defined.

Lemma unresolved_secrets_diagnosis_witness :
  _resolve_secrets [demo_static] [] None false 0
    = UnresolvedSecretsError [demo_static]
  /\ incl [demo_static] [demo_static].
Proof.
  split; [reflexivity |].
  exact (proj1 (proj2 (unresolved_secrets_diagnosis (G := counter_generator) [demo_static] [] None false 0
                         [demo_static] counter_generator_productive eq_refl))).
Defined.

Lemma resolution_without_generation_is_quiet_witness :
  _resolve_secrets [demo_api; demo_db] [("db", [("password", "kept")])] None
    false 7
  = Resolved
      (mkResolved [("db", [("password", "kept")]); ("api", [("dbpass", "kept")])]
         None,
       7)
  /\ 7 = 7.
Proof.
  split; [reflexivity |].
  refine (resolution_without_generation_is_quiet (G := counter_generator) [demo_api; demo_db]
            [("db", [("password", "kept")])] None false 7
            (mkResolved
               [("db", [("password", "kept")]); ("api", [("dbpass", "kept")])]
               None)
            7 _ eq_refl).
  intros d [<- | [<- | []]] Hv Hc Hg; [discriminate | split; reflexivity].
Defined.

Lemma second_resolution_reproduces_witness :
  exists R2,
    _resolve_secrets [demo_api; demo_db]
      [("db", [("password", "g")]); ("api", [("dbpass", "g")])] None false 5
    = Resolved (R2, 5)
    /\ (forall a k,
          lookup (applications R2) a k
          = lookup [("db", [("password", "g")]); ("api", [("dbpass", "g")])] a k).
Proof.
  destruct (second_resolution_reproduces (G := counter_generator) [demo_api; demo_db] [] None false 0
              (mkResolved [("db", [("password", "g")]); ("api", [("dbpass", "g")])]
                 None)
              1 [("db", [("password", "g")]); ("api", [("dbpass", "g")])] 5)
    as (R2 & Hsecond & Hvalues & _).
  - solve_NoDup.
  - reflexivity.
  - intros a k v Hlook. exact Hlook.
  - exists R2. split; [exact Hsecond | exact Hvalues].
Defined.

Lemma sync_application_secrets_minimal_witness :
  Dict.get (V := Dict.t SecretStr) [] "db" = None
  /\ Dict.get [("db", [("password", "g")])] "db" = Some [("password", "g")].
Proof.
  refine (sync_application_secrets_minimal []
            (mkResolved [("db", [("password", "g")])] None)
            (store_application_secret "db" [("password", "g")]) _ _);
    [solve_wf_secrets | simpl; auto].
Defined.

Lemma sync_application_secrets_effect_witness :
  let resolved := mkResolved [("db", [("password", "g"); ("user", "u")])] None in
  let vault_secrets := [("db", [("password", "old"); ("extra", "x")])] in
  let store :=
    vault_run vault_secrets (_sync_application_secrets vault_secrets resolved) in
  store = [("db", [("password", "g"); ("extra", "x"); ("user", "u")])]
  /\ lookup store "db" "password" = Some "g"
  /\ lookup store "db" "extra" = Some "x".
Proof.
  cbv zeta. split; [reflexivity |].
  destruct (sync_application_secrets_effect
              [("db", [("password", "old"); ("extra", "x")])]
              (mkResolved [("db", [("password", "g"); ("user", "u")])] None))
    as (Hlook & _ & _); [solve_wf_secrets |].
  split; [exact (Hlook "db" "password") | exact (Hlook "db" "extra")].
Defined.

Lemma sync_application_secrets_idempotent_witness :
  _sync_application_secrets
    [("db", [("password", "g"); ("extra", "x"); ("user", "u")])]
    (mkResolved [("db", [("password", "g"); ("user", "u")])] None)
  = [].
Proof.
  refine (sync_application_secrets_idempotent
            [("db", [("password", "old"); ("extra", "x")])]
            (mkResolved [("db", [("password", "g"); ("user", "u")])] None) _).
  solve_wf_secrets.
Defined.

Lemma clean_vault_secrets_effect_witness :
  let resolved := mkResolved [("db", [("password", "g")])] None in
  let vault_secrets :=
    [("db", [("password", "g"); ("extra", "x")]); ("gone", [("k", "v")]);
     ("pull-secret", [(".dockerconfigjson", "json")])] in
  let store :=
    vault_run vault_secrets (_clean_vault_secrets vault_secrets resolved true) in
  Dict.get store "db" = Some [("password", "g")]
  /\ Dict.get store "gone" = None
  /\ Dict.get store "pull-secret" = Some [(".dockerconfigjson", "json")].
Proof.
  cbv zeta.
  destruct (clean_vault_secrets_effect
              [("db", [("password", "g"); ("extra", "x")]); ("gone", [("k", "v")]);
               ("pull-secret", [(".dockerconfigjson", "json")])]
              (mkResolved [("db", [("password", "g")])] None) true)
    as (Hentries & _); [unfold Dict.wf; solve_NoDup |].
  split; [exact (Hentries "db") | split];
    [exact (Hentries "gone") | exact (Hentries "pull-secret")].
Defined.

Lemma clean_vault_secrets_idempotent_witness :
  _clean_vault_secrets
    [("db", [("password", "g")]);
     ("pull-secret", [(".dockerconfigjson", "json")])]
    (mkResolved [("db", [("password", "g")])] None) true
  = [].
Proof.
  refine (clean_vault_secrets_idempotent
            [("db", [("password", "g"); ("extra", "x")]); ("gone", [("k", "v")]);
             ("pull-secret", [(".dockerconfigjson", "json")])]
            (mkResolved [("db", [("password", "g")])] None) true _).
  unfold Dict.wf. solve_NoDup.
Defined.

Lemma audit_report_empty_witness :
  audit_report
    (audit_compare
       (mkResolved [("db", [("password", "g")]); ("api", [("dbpass", "g")])] None)
       [("api", [("dbpass", "g")]); ("db", [("password", "g")])])
  = ""%string.
Proof.
  refine (proj2 (audit_report_empty
                   (mkResolved
                      [("db", [("password", "g")]); ("api", [("dbpass", "g")])]
                      None)
                   [("api", [("dbpass", "g")]); ("db", [("password", "g")])]
                   _ _) _);
    [solve_wf_secrets | solve_wf_secrets |].
  intros a k. unfold lookup, Dict.get_default. simpl.
  destruct (String.eqb a "db") eqn:Hdb, (String.eqb a "api") eqn:Hapi;
    try reflexivity.
  apply String.eqb_eq in Hdb, Hapi. congruence.
Defined.

Lemma save_vault_secrets_files_witness :
  save_vault_secrets
    [("db", [("password", "g"); ("unset", "")]); ("api", [("dbpass", "g")])]
  = [("db.json", [("password", Some "g"); ("unset", None)]);
     ("api.json", [("dbpass", Some "g")])]
  /\ NoDup ["db.json"; "api.json"]%string.
Proof.
  split; [reflexivity |].
  refine (proj2 (save_vault_secrets_files
                   [("db", [("password", "g"); ("unset", "")]);
                    ("api", [("dbpass", "g")])] _)).
  solve_wf_secrets.
Defined.

(** The scenario of the spec, synced without deletion into a Vault that
    holds a secret of an application that is not declared. *)
Lemma demo_sync :
  sync demo_dockerconfigjson [demo_api; demo_db] None [("old", [("k", "v")])]
    (Some (mkStatics [] (Some demo_pull))) false false 0
  = Resolved
      (mkSync
         (mkResolved [("db", [("password", "g")]); ("api", [("dbpass", "g")])]
            (Some demo_pull))
         [store_application_secret "db" [("password", "g")];
          store_application_secret "api" [("dbpass", "g")];
          store_application_secret "pull-secret"
            [(".dockerconfigjson", "ghcr.io=bot:old-password")]]
         [("old", [("k", "v")]); ("db", [("password", "g")]);
          ("api", [("dbpass", "g")]);
          ("pull-secret", [(".dockerconfigjson", "ghcr.io=bot:old-password")])]
         1).
Proof. reflexivity. Qed.

Lemma sync_without_delete_effect_witness :
  let store :=
    [("old", [("k", "v")]); ("db", [("password", "g")]);
     ("api", [("dbpass", "g")]);
     ("pull-secret", [(".dockerconfigjson", "ghcr.io=bot:old-password")])] in
  lookup store "api" "dbpass" = Some "g"
  /\ lookup store "old" "k" = Some "v"
  /\ Dict.get store "pull-secret"
     = Some [(".dockerconfigjson", "ghcr.io=bot:old-password")].
Proof.
  cbv zeta.
  destruct (sync_without_delete_effect (G := counter_generator)
              demo_dockerconfigjson [demo_api; demo_db] None
              [("old", [("k", "v")])] (Some (mkStatics [] (Some demo_pull)))
              false 0 _ demo_sync) as (_ & Hlook & Hpull).
  split; [| split].
  - apply (Hlook "api" "dbpass"). left. discriminate.
  - apply (Hlook "old" "k"). left. discriminate.
  - apply (Hpull demo_pull); reflexivity.
Defined.

Lemma sync_without_delete_idempotent_witness :
  exists r2,
    sync demo_dockerconfigjson [demo_api; demo_db] None
      [("old", [("k", "v")]); ("db", [("password", "g")]);
       ("api", [("dbpass", "g")]);
       ("pull-secret", [(".dockerconfigjson", "ghcr.io=bot:old-password")])]
      (Some (mkStatics [] (Some demo_pull))) false false 1
    = Resolved r2
    /\ sync_made r2 = [].
Proof.
  pose proof (fun Hdistinct Hnopull =>
                sync_without_delete_idempotent (G := counter_generator)
                  demo_dockerconfigjson [demo_api; demo_db] None
                  [("old", [("k", "v")])] (Some (mkStatics [] (Some demo_pull)))
                  false 0 _ Hdistinct Hnopull demo_sync) as Htwice.
  destruct Htwice as (r2 & Hsync & Hmade & _).
  - solve_NoDup.
  - intros d [<- | [<- | []]]; discriminate.
  - exists r2. split; [exact Hsync | exact Hmade].
Defined.

Lemma audit_after_sync_witness :
  audit [demo_api; demo_db] None
    [("old", [("k", "v")]); ("db", [("password", "g")]);
     ("api", [("dbpass", "g")]);
     ("pull-secret", [(".dockerconfigjson", "ghcr.io=bot:old-password")])]
    (Some (mkStatics [] (Some demo_pull))) 9
  = Resolved
      (report_section "Unknown secrets in Vault"
         [("old", "k"); ("pull-secret", ".dockerconfigjson")]).
Proof.
  refine (audit_after_sync (G := counter_generator) demo_dockerconfigjson
            [demo_api; demo_db] None [("old", [("k", "v")])]
            (Some (mkStatics [] (Some demo_pull))) false 0 _ 9 _ _ _ demo_sync).
  - solve_NoDup.
  - intros d [<- | [<- | []]]; discriminate.
  - solve_wf_secrets.
Defined.

Lemma resolve_secrets_frame_witness :
  _resolve_secrets [demo_db]
    [("db", [("password", "kept"); ("unused", "x")]); ("other", [("k", "v")])]
    (Some (mkStatics [("other", [("k", mkStatic (Some "s"))])] None)) false 0
  = _resolve_secrets [demo_db] [("db", [("password", "kept")])] None false 0.
Proof.
  refine (resolve_secrets_frame (G := counter_generator) [demo_db]
            [("db", [("password", "kept"); ("unused", "x")]);
             ("other", [("k", "v")])]
            [("db", [("password", "kept")])]
            (Some (mkStatics [("other", [("k", mkStatic (Some "s"))])] None))
            None false 0 _ _ eq_refl);
    intros d [<- | []]; reflexivity.
Defined.

(** A sync with deletion into a Vault that holds an application that is not
    declared and a key that is not declared. *)
Lemma demo_sync_delete :
  sync demo_dockerconfigjson [demo_db] None
    [("old", [("k", "v")]); ("db", [("password", "kept"); ("extra", "x")])]
    None false true 0
  = Resolved
      (mkSync
         (mkResolved [("db", [("password", "kept")])] None)
         [delete_application_secret "old";
          store_application_secret "db" [("password", "kept")]]
         [("db", [("password", "kept")])]
         0).
Proof. reflexivity. Qed.

Lemma sync_with_delete_prunes_witness :
  lookup [("db", [("password", "kept")])] "db" "password" <> None
  \/ ("db"%string = "pull-secret"%string /\ @None PullSecret <> None).
Proof.
  refine (sync_with_delete_prunes (G := counter_generator) demo_dockerconfigjson
            [demo_db] None
            [("old", [("k", "v")]); ("db", [("password", "kept"); ("extra", "x")])]
            None false 0 _ _ demo_sync_delete "db" "password" "kept" eq_refl).
  unfold Dict.wf. solve_NoDup.
Defined.
